(** * poly-sdk: the copy-trading scripts, the relayer service and the
      calldata decoder, embedded in Rocq.

    Each module below embeds one source file (or one code snippet of the
    repository's documentation) and proves the properties the specification
    states about it.  The modules from [Settlement] on embed further
    functions of the same files: what the scripts compute around the code
    above, and how they are configured; their properties are read off the
    code and proved in the last part of the file.

    Conventions of the embedding:
    - a JavaScript [number] is a member of the class [JSNumber]; the class has
      two instances: the exact rationals [Qc], on which the general theorems
      are proved, and the IEEE-754 binary64 floats of the kernel ([float]),
      on which the concrete scenarios are replayed bit for bit.  The two
      differ by the rounding of each operation, and at a division by 0,
      which is 0 on [Qc] and NaN or an infinity on binary64: a theorem on
      [Qc] whose code divides by a size takes the size to be non-zero, and
      the sizes of the limit orders, where the rounding of a quotient decides
      a whole number of shares, are embedded on binary64 only;
    - a [while] loop is run with fuel and returns [None] when the fuel is
      exhausted; every theorem about a loop shows that the fuel handed to it
      is enough;
    - a call that may throw returns an [Outcome]: [Returns v] or [Throws e];
    - a [Map<string, V>] is a [gmap string V]; a [Set<string>], whose
      iteration order is the insertion order, is a duplicate-free list. *)

From Stdlib Require Import ZArith QArith Qcanon Qround Lqa Floats String Ascii.
From stdpp Require Import base option list gmap strings numbers sorting pretty.

#[local] Set Warnings "-inexact-float".
#[local] Open Scope string_scope.
#[local] Open Scope nat_scope.
#[local] Open Scope list_scope.

(* ===================================================================== *)
(** * JavaScript numbers                                                  *)
(* ===================================================================== *)

(** The operations the scripts use on numbers.  [a > b] is [js_ltb b a] and
    [a >= b] is [js_leb b a], as in IEEE-754. *)
Class JSNumber (A : Type) := {
  js_zero : A;
  js_one : A;
  js_add : A → A → A;
  js_sub : A → A → A;
  js_mul : A → A → A;
  js_div : A → A → A;
  js_min : A → A → A;
  js_ltb : A → A → bool;
  js_leb : A → A → bool
}.

Declare Scope js_scope.
Delimit Scope js_scope with js.
Infix "+" := js_add : js_scope.
Infix "-" := js_sub : js_scope.
Infix "*" := js_mul : js_scope.
Infix "/" := js_div : js_scope.
Notation "a <? b" := (js_ltb a b) : js_scope.
Notation "a <=? b" := (js_leb a b) : js_scope.
Notation "a >? b" := (js_ltb b a) (at level 70) : js_scope.

(** Exact arithmetic.  No operation rounds, and [x / 0] is [0] (it is NaN or
    an infinity in the scripts). *)
Definition Qc_ltb (a b : Qc) : bool := bool_decide (a < b)%Qc.
Definition Qc_leb (a b : Qc) : bool := bool_decide (a ≤ b)%Qc.
Definition Qc_min (a b : Qc) : Qc := if Qc_leb a b then a else b.

#[global] Instance Qc_JSNumber : JSNumber Qc := {|
  js_zero := 0%Qc;
  js_one := 1%Qc;
  js_add := Qcplus;
  js_sub := Qcminus;
  js_mul := Qcmult;
  js_div := Qcdiv;
  js_min := Qc_min;
  js_ltb := Qc_ltb;
  js_leb := Qc_leb
|}.

(** [Math.min] on binary64: NaN if an argument is NaN, and -0 below +0. *)
Definition float_min (a b : float) : float :=
  if (PrimFloat.is_nan a || PrimFloat.is_nan b)%bool then PrimFloat.nan
  else if PrimFloat.ltb a b then a
  else if PrimFloat.ltb b a then b
  else if PrimFloat.get_sign a then a else b.

#[global] Instance float_JSNumber : JSNumber float := {|
  js_zero := PrimFloat.zero;
  js_one := PrimFloat.one;
  js_add := PrimFloat.add;
  js_sub := PrimFloat.sub;
  js_mul := PrimFloat.mul;
  js_div := PrimFloat.div;
  js_min := float_min;
  js_ltb := PrimFloat.ltb;
  js_leb := PrimFloat.leb
|}.

(** The rational [n / d]. *)
Definition qc (n : Z) (d : positive) : Qc := Q2Qc (n # d).

(** The sum of a list of rationals. *)
Definition sumQc (l : list Qc) : Qc := foldr Qcplus 0%Qc l.

(** The side of a trade ('BUY' | 'SELL'). *)
Inductive Side := BUY | SELL.

#[global] Instance Side_eq_dec : EqDecision Side.
Proof. solve_decision. Defined.

(** A [while (cond) body] loop, run for at most [fuel] iterations. *)
Fixpoint while {S : Type} (fuel : nat) (cond : S → bool) (body : S → S)
    (s : S) : option S :=
  if cond s then
    match fuel with
    | O => None
    | S n => while n cond body (body s)
    end
  else Some s.

(** The result of a call that may throw (or of a promise that may reject). *)
Inductive Outcome (E A : Type) := Returns (a : A) | Throws (e : E).
Arguments Returns {E A}. Arguments Throws {E A}.

(** [try { body } catch (e) { handler(e) }] *)
Definition try_catch {E A : Type} (body : Outcome E A) (handler : E → A) : A :=
  match body with Returns a => a | Throws e => handler e end.

(* ===================================================================== *)
(** * scripts/smart-money/wallet-deepdive.ts: FIFO lots                   *)
(* ===================================================================== *)

(** The script is the last part of scripts/test-relayer-api.ts; line numbers
    are those of that file. *)

Module WalletDeepDive.

(** [interface Lot] and [interface SimpleLot]. *)
Record Lot (A : Type) := mkLot { size : A; cost : A; fromSub1Buy : bool }.
Record SimpleLot (A : Type) := mkSimpleLot { ssize : A; scost : A }.
Arguments mkLot {A}. Arguments size {A}. Arguments cost {A}.
Arguments fromSub1Buy {A}.
Arguments mkSimpleLot {A}. Arguments ssize {A}. Arguments scost {A}.

(** The fields of a trade the two loops read.  A missing or empty string is
    falsy in [t.asset || t.market] and in [if (!asset)]. *)
Record Trade (A : Type) := mkTrade {
  asset : string; market : string; side : Side; tsize : A; price : A
}.
Arguments mkTrade {A}. Arguments asset {A}. Arguments market {A}.
Arguments side {A}. Arguments tsize {A}. Arguments price {A}.

(** The variables of the first loop (sub-$1 BUYs). *)
Record Sub1 (A : Type) := mkSub1 {
  lotsByAsset : gmap string (list (Lot A));
  totalSub1Cost : A;
  realizedSub1Cost : A;
  realizedSub1Proceeds : A
}.
Arguments mkSub1 {A}. Arguments lotsByAsset {A}. Arguments totalSub1Cost {A}.
Arguments realizedSub1Cost {A}. Arguments realizedSub1Proceeds {A}.

(** The variables of the second loop (total ROI). *)
Record Total (A : Type) := mkTotal {
  lotsAllByAsset : gmap string (list (SimpleLot A));
  totalCostAll : A;
  realizedProceedsAll : A
}.
Arguments mkTotal {A}. Arguments lotsAllByAsset {A}.
Arguments totalCostAll {A}. Arguments realizedProceedsAll {A}.

(** What the inner [while] of the first loop reads and writes. *)
Record Sell1 (A : Type) := mkSell1 {
  lots1 : list (Lot A); toSell1 : A; cost1 : A; proceeds1 : A
}.
Arguments mkSell1 {A}. Arguments lots1 {A}. Arguments toSell1 {A}.
Arguments cost1 {A}. Arguments proceeds1 {A}.

(** What the inner [while] of the second loop reads and writes. *)
Record Sell2 (A : Type) := mkSell2 {
  lots2 : list (SimpleLot A); toSell2 : A; proceeds2 : A
}.
Arguments mkSell2 {A}. Arguments lots2 {A}. Arguments toSell2 {A}.
Arguments proceeds2 {A}.

Section Loops.
Context {A : Type} `{JSNumber A}.
#[local] Open Scope js_scope.

Definition MIN_VALUE_USD : A := js_one.

(** [toSell > 0 && lots.length > 0] *)
Definition sell1_cond (s : Sell1 A) : bool :=
  (toSell1 s >? js_zero) && negb (bool_decide (lots1 s = [])).

(** Lines 328-340: one iteration of the first loop's [while]. *)
Definition sell1_body (p : A) (s : Sell1 A) : Sell1 A :=
  match lots1 s with
  | [] => s
  | lot :: rest =>
      let take := js_min (size lot) (toSell1 s) in
      let costRatio := take / size lot in
      let costTaken := cost lot * costRatio in
      let proceedsTaken := take * p in
      let c := if fromSub1Buy lot then cost1 s + costTaken else cost1 s in
      let r :=
        if fromSub1Buy lot then proceeds1 s + proceedsTaken
        else proceeds1 s in
      let lot' := mkLot (size lot - take) (cost lot - costTaken)
                        (fromSub1Buy lot) in
      mkSell1 (if size lot' <=? js_zero then rest else lot' :: rest)
              (toSell1 s - take) c r
  end.

(** [toSell > 0 && lots.length > 0] *)
Definition sell2_cond (s : Sell2 A) : bool :=
  (toSell2 s >? js_zero) && negb (bool_decide (lots2 s = [])).

(** Lines 442-449: one iteration of the second loop's [while]. *)
Definition sell2_body (p : A) (s : Sell2 A) : Sell2 A :=
  match lots2 s with
  | [] => s
  | lot :: rest =>
      let take := js_min (ssize lot) (toSell2 s) in
      let costRatio := take / ssize lot in
      let size' := ssize lot - take in
      let cost' := scost lot - scost lot * costRatio in
      mkSell2 (if size' <=? js_zero then rest
               else mkSimpleLot size' cost' :: rest)
              (toSell2 s - take) (proceeds2 s + take * p)
  end.

(** [t.asset || t.market] *)
Definition asset_key (t : Trade A) : string :=
  if bool_decide (asset t = "") then market t else asset t.

(** Lines 310-343: the body of [for (const t of sorted)], first loop. *)
Definition sub1_trade (st : Sub1 A) (t : Trade A) : option (Sub1 A) :=
  let key := asset_key t in
  if bool_decide (key = "") then Some st
  else
    let lots := default [] (lotsByAsset st !! key) in
    match side t with
    | BUY =>
        let c := tsize t * price t in
        let fromSub1 := c <? MIN_VALUE_USD in
        Some (mkSub1
          (<[key := lots ++ [mkLot (tsize t) c fromSub1]]> (lotsByAsset st))
          (if fromSub1 then totalSub1Cost st + c else totalSub1Cost st)
          (realizedSub1Cost st) (realizedSub1Proceeds st))
    | SELL =>
        s ← while (length lots) sell1_cond (sell1_body (price t))
              (mkSell1 lots (tsize t) (realizedSub1Cost st)
                       (realizedSub1Proceeds st));
        Some (mkSub1 (<[key := lots1 s]> (lotsByAsset st))
                     (totalSub1Cost st) (cost1 s) (proceeds1 s))
    end.

(** Lines 425-452: the body of [for (const t of sorted)], second loop. *)
Definition total_trade (st : Total A) (t : Trade A) : option (Total A) :=
  let key := asset_key t in
  if bool_decide (key = "") then Some st
  else
    let lots := default [] (lotsAllByAsset st !! key) in
    match side t with
    | BUY =>
        let c := tsize t * price t in
        Some (mkTotal
          (<[key := lots ++ [mkSimpleLot (tsize t) c]]> (lotsAllByAsset st))
          (totalCostAll st + c) (realizedProceedsAll st))
    | SELL =>
        s ← while (length lots) sell2_cond (sell2_body (price t))
              (mkSell2 lots (tsize t) (realizedProceedsAll st));
        Some (mkTotal (<[key := lots2 s]> (lotsAllByAsset st))
                      (totalCostAll st) (proceeds2 s))
    end.

(** The two [for] loops over the sorted trades. *)
Definition sub1_loop (st : Sub1 A) (ts : list (Trade A)) : option (Sub1 A) :=
  foldl (λ acc t, st' ← acc; sub1_trade st' t) (Some st) ts.

Definition total_loop (st : Total A) (ts : list (Trade A))
    : option (Total A) :=
  foldl (λ acc t, st' ← acc; total_trade st' t) (Some st) ts.

Definition sub1_init : Sub1 A := mkSub1 ∅ js_zero js_zero js_zero.
Definition total_init : Total A := mkTotal ∅ js_zero js_zero.
End Loops.


Section Decide.
Context {A : Type} `{EqDecision A}.

#[global] Instance Lot_eq_dec : EqDecision (Lot A).
Proof. solve_decision. Defined.
#[global] Instance SimpleLot_eq_dec : EqDecision (SimpleLot A).
Proof. solve_decision. Defined.
#[global] Instance Sub1_eq_dec : EqDecision (Sub1 A).
Proof. solve_decision. Defined.
#[global] Instance Total_eq_dec : EqDecision (Total A).
Proof. solve_decision. Defined.
#[global] Instance Sell1_eq_dec : EqDecision (Sell1 A).
Proof. solve_decision. Defined.
#[global] Instance Sell2_eq_dec : EqDecision (Sell2 A).
Proof. solve_decision. Defined.
End Decide.

(** ** The specification's scenario (section 8, "FIFO correctness") *)

(** BUY 10 @ $0.50, BUY 10 @ $0.60, SELL 15 @ $0.70 on one asset, in exact
    arithmetic and in binary64. *)
Definition scenario_Qc : list (Trade Qc) :=
  [ mkTrade "X" "" BUY (qc 10 1) (qc 1 2);
    mkTrade "X" "" BUY (qc 10 1) (qc 3 5);
    mkTrade "X" "" SELL (qc 15 1) (qc 7 10) ].

Definition scenario_float : list (Trade float) :=
  [ mkTrade "X" "" BUY 10%float 0.5%float;
    mkTrade "X" "" BUY 10%float 0.6%float;
    mkTrade "X" "" SELL 15%float 0.7%float ].

(** The two lots the first loop makes of the scenario's BUYs; they cost $5
    and $6, so the script does not flag them ([flag] is [false]). *)
Definition scenario_lots (flag : bool) : list (Lot Qc) :=
  [ mkLot (qc 10 1) (qc 5 1) flag; mkLot (qc 10 1) (qc 6 1) flag ].

(** A scenario the first loop tracks: BUY 10 @ $0.05, BUY 10 @ $0.06 (both
    worth less than $1), SELL 15 @ $0.70 on one asset. *)
Definition sub1_scenario_Qc : list (Trade Qc) :=
  [ mkTrade "X" "" BUY (qc 10 1) (qc 1 20);
    mkTrade "X" "" BUY (qc 10 1) (qc 3 50);
    mkTrade "X" "" SELL (qc 15 1) (qc 7 10) ].

Definition sub1_scenario_float : list (Trade float) :=
  [ mkTrade "X" "" BUY 10%float 0.05%float;
    mkTrade "X" "" BUY 10%float 0.06%float;
    mkTrade "X" "" SELL 15%float 0.7%float ].

(** The two lots the first loop makes of these BUYs. *)
Definition sub1_scenario_lots : list (Lot Qc) :=
  [ mkLot (qc 10 1) (qc 1 2) true; mkLot (qc 10 1) (qc 3 5) true ].

(** A scenario in which rounding decides whether a lot is used up: BUY 0.1
    and BUY 0.2 @ $0.50, then SELL 0.3 @ $0.50 on one asset. *)
Definition rounding_scenario_Qc : list (Trade Qc) :=
  [ mkTrade "X" "" BUY (qc 1 10) (qc 1 2);
    mkTrade "X" "" BUY (qc 1 5) (qc 1 2);
    mkTrade "X" "" SELL (qc 3 10) (qc 1 2) ].

Definition rounding_scenario_float : list (Trade float) :=
  [ mkTrade "X" "" BUY 0.1%float 0.5%float;
    mkTrade "X" "" BUY 0.2%float 0.5%float;
    mkTrade "X" "" SELL 0.3%float 0.5%float ].

(** ** The FIFO rule, in the arithmetic of the script *)

Section Fifo.
Context {A : Type} `{JSNumber A}.
#[local] Open Scope js_scope.

(** The rule of section 4.4 as a recursion on the queue, with the
    operations of [A] in the order of lines 328-340: lots are consumed from
    the front, [take = min(lot.size, toSell)], the cost goes down by
    [cost * (take / lot.size)], a lot whose size is then not positive is
    dropped and the next lot is consumed, and a lot that is not used up ends
    the SELL.  The cost and the proceeds of a slice are added for a lot
    flagged [fromSub1Buy]. *)
Fixpoint fifo1 (p : A) (lots : list (Lot A)) (toSell c r : A) : Sell1 A :=
  match lots with
  | [] => mkSell1 [] toSell c r
  | lot :: rest =>
      if toSell >? js_zero then
        let take := js_min (size lot) toSell in
        let costTaken := cost lot * (take / size lot) in
        let c' := if fromSub1Buy lot then c + costTaken else c in
        let r' := if fromSub1Buy lot then r + take * p else r in
        if size lot - take <=? js_zero then fifo1 p rest (toSell - take) c' r'
        else mkSell1 (mkLot (size lot - take) (cost lot - costTaken)
                            (fromSub1Buy lot) :: rest)
                     (toSell - take) c' r'
      else mkSell1 lots toSell c r
  end.

(** The same rule with the operations in the order of lines 442-449; the
    proceeds of every slice are added. *)
Fixpoint fifo2 (p : A) (lots : list (SimpleLot A)) (toSell r : A) : Sell2 A :=
  match lots with
  | [] => mkSell2 [] toSell r
  | lot :: rest =>
      if toSell >? js_zero then
        let take := js_min (ssize lot) toSell in
        let size' := ssize lot - take in
        let cost' := scost lot - scost lot * (take / ssize lot) in
        if size' <=? js_zero then fifo2 p rest (toSell - take) (r + take * p)
        else mkSell2 (mkSimpleLot size' cost' :: rest)
                     (toSell - take) (r + take * p)
      else mkSell2 lots toSell r
  end.

End Fifo.

(** ** The specification's FIFO rule, over exact rationals *)

(** Forget the [fromSub1Buy] flag; a lot of the second loop, seen as one
    that is not flagged. *)
Definition simple {A} (l : Lot A) : SimpleLot A := mkSimpleLot (size l) (cost l).
Definition unflagged {A} (l : SimpleLot A) : Lot A :=
  mkLot (ssize l) (scost l) false.

(** A slice is a lot at the front of the queue and the amount taken of it. *)
Abbreviation Slice := (Lot Qc * Qc)%type.
Definition take (s : Slice) : Qc := s.2.
(** "proportionally reduce the lot's cost by take/lot.size" *)
Definition costPortion (s : Slice) : Qc := (cost s.1 * (s.2 / size s.1))%Qc.
Definition reduce (l : Lot Qc) (t : Qc) : Lot Qc :=
  mkLot (size l - t)%Qc (cost l - costPortion (l, t))%Qc (fromSub1Buy l).

(** Follows the specification's words (section 4.4): consume lots from the
    front; [take = min(lot.size, remainingToSell)]; a lot whose size reaches
    0 is dropped.  Returns the slices consumed and the queue left. *)
Fixpoint spec_consume (toSell : Qc) (lots : list (Lot Qc))
    : list Slice * list (Lot Qc) :=
  match lots with
  | [] => ([], [])
  | lot :: rest =>
      if bool_decide (0 < toSell)%Qc then
        let t := Qc_min (size lot) toSell in
        if bool_decide (size lot - t ≤ 0)%Qc then
          let r := spec_consume (toSell - t)%Qc rest in
          ((lot, t) :: r.1, r.2)
        else ([(lot, t)], reduce lot t :: rest)
      else ([], lots)
  end.

(** "proceeds += take * executionPrice", "costRemoved += costPortion". *)
Definition spec_proceeds (p : Qc) (sl : list Slice) : Qc :=
  sumQc ((λ s, take s * p)%Qc <$> sl).
Definition spec_costRemoved (sl : list Slice) : Qc :=
  sumQc (costPortion <$> sl).

(** The slices of lots that came from a sub-$1 BUY. *)
Definition flagged (sl : list Slice) : list Slice :=
  filter (λ s, fromSub1Buy s.1 = true) sl.

Definition total_size (lots : list (Lot Qc)) : Qc := sumQc (size <$> lots).
Definition total_cost (lots : list (Lot Qc)) : Qc := sumQc (cost <$> lots).

End WalletDeepDive.

(* ===================================================================== *)
(** * scripts/smart-money/crypto-copy-trade.ts                            *)
(* ===================================================================== *)

(** The callbacks the script hands to [startAutoCopyTrading], and the two
    variables they close over. *)

Module CryptoCopyTrade.

(** The fields of the source trade the script reads.  A missing or empty
    [tokenId] or [marketSlug] is falsy. *)
Record SmartMoneyTrade (A : Type) := mkSmartMoneyTrade {
  traderAddress : string; side : Side; size : A; price : A;
  tokenId : string; marketSlug : string
}.
Arguments mkSmartMoneyTrade {A}. Arguments traderAddress {A}.
Arguments side {A}. Arguments size {A}. Arguments price {A}.
Arguments tokenId {A}. Arguments marketSlug {A}.

(** The result the SDK hands to [onTrade]. *)
Record OrderResult (A : Type) := mkOrderResult {
  success : bool; orderId : option string; errorMsg : option string;
  copySizeUsed : option A; copyValueUsed : option A
}.
Arguments mkOrderResult {A}. Arguments success {A}. Arguments orderId {A}.
Arguments errorMsg {A}. Arguments copySizeUsed {A}.
Arguments copyValueUsed {A}.

(** A value of the [holdings] map. *)
Record Position (A : Type) := mkPosition {
  shares : A; costBasis : A; positionSlug : string
}.
Arguments mkPosition {A}. Arguments shares {A}. Arguments costBasis {A}.
Arguments positionSlug {A}.

(** An entry of [tradeLog]. *)
Record LogEntry (A : Type) := mkLogEntry {
  logSide : Side; logPrice : A; logCopySize : A; logCopyValue : A;
  logTokenId : string; logSuccess : bool
}.
Arguments mkLogEntry {A}. Arguments logSide {A}. Arguments logPrice {A}.
Arguments logCopySize {A}. Arguments logCopyValue {A}.
Arguments logTokenId {A}. Arguments logSuccess {A}.

(** The two variables [onTrade] closes over. *)
Record Script (A : Type) := mkScript {
  tradeLog : list (LogEntry A);
  holdings : gmap string (Position A)
}.
Arguments mkScript {A}. Arguments tradeLog {A}. Arguments holdings {A}.

Section Script.
Context {A : Type} `{JSNumber A}.
(** [SIZE_SCALE = 0.3] and [MAX_SLIPPAGE = 0.05] in the script. *)
Variables (SIZE_SCALE MAX_SLIPPAGE : A).
#[local] Open Scope js_scope.

(** Lines 148-150: [slippagePrice] of [onTrade]. *)
Definition slippagePrice (trade : SmartMoneyTrade A) : A :=
  match side trade with
  | BUY => price trade * (js_one + MAX_SLIPPAGE)
  | SELL => price trade * (js_one - MAX_SLIPPAGE)
  end.

(** Line 254: [slipPrice] of the shutdown report. *)
Definition slipPrice (t : LogEntry A) : A :=
  match logSide t with
  | BUY => logPrice t * (js_one + MAX_SLIPPAGE)
  | SELL => logPrice t * (js_one - MAX_SLIPPAGE)
  end.

(** Line 137: [getPositionSharesForToken]. *)
Definition getPositionSharesForToken (h : gmap string (Position A))
    (token : string) : A :=
  default js_zero (shares <$> h !! token).

(** Lines 144-147. *)
Definition copySize (trade : SmartMoneyTrade A) (result : OrderResult A) : A :=
  default (size trade * SIZE_SCALE) (copySizeUsed result).

Definition copyValue (trade : SmartMoneyTrade A) (result : OrderResult A) : A :=
  default (size trade * SIZE_SCALE * price trade) (copyValueUsed result).

(** Lines 179-198: the update of [holdings]. *)
Definition updateHoldings (h : gmap string (Position A))
    (trade : SmartMoneyTrade A) (result : OrderResult A)
    : gmap string (Position A) :=
  if success result && negb (bool_decide (tokenId trade = "")) then
    let key := tokenId trade in
    match side trade with
    | BUY =>
        match h !! key with
        | Some cur =>
            <[key := mkPosition (shares cur + copySize trade result)
                                (costBasis cur + copyValue trade result)
                                (positionSlug cur)]> h
        | None =>
            <[key := mkPosition (copySize trade result)
                                (copyValue trade result)
                                (if bool_decide (marketSlug trade = "")
                                 then "unknown" else marketSlug trade)]> h
        end
    | SELL =>
        match h !! key with
        | Some cur =>
            if shares cur >? js_zero then
              let ratio := js_min js_one (copySize trade result / shares cur) in
              let cur' := mkPosition (shares cur - copySize trade result)
                                     (costBasis cur - costBasis cur * ratio)
                                     (positionSlug cur) in
              if shares cur' <=? js_zero then delete key h
              else <[key := cur']> h
            else h
        | None => h
        end
    end
  else h.

(** Lines 139-199: [onTrade], without the console output. *)
Definition onTrade (st : Script A) (trade : SmartMoneyTrade A)
    (result : OrderResult A) : Script A :=
  mkScript
    (tradeLog st ++
       [mkLogEntry (side trade) (price trade) (copySize trade result)
                   (copyValue trade result) (tokenId trade) (success result)])
    (updateHoldings (holdings st) trade result).

End Script.
End CryptoCopyTrade.

(* ===================================================================== *)
(** * The Risk Gate (specification section 4.3)                           *)
(* ===================================================================== *)

Module RiskGate.

(** Modelled from the spec: [startAutoCopyTrading] of the SDK's
    SmartMoneyService, which sizes and gates the replica orders, is not among
    the sources; only its caller (crypto-copy-trade.ts) is.  The definitions
    of this module follow section 3 (data model) and section 4.3 (Risk Gate)
    of the specification. *)
Record SourceTrade := mkSourceTrade {
  traderAddress : string; txHash : string; side : Side; asset : string;
  size : Qc; price : Qc; timestamp : Z
}.

Inductive OrderKind := FOK | FAK.

Record ReplicaOrderSpec := mkReplicaOrderSpec {
  orderAsset : string; orderSide : Side; orderSize : Qc;
  worstAcceptablePrice : Qc; orderKind : OrderKind
}.

Record Options := mkOptions {
  sizeScale : Qc;
  maxSizePerTrade : option Qc;
  maxSlippage : Qc;
  minOrderValueUsd : option Qc;
  maxPricePerShare : option Qc;
  kind : OrderKind
}.

Record RunStats := mkRunStats {
  activityReceived : nat; activityMatched : nat; tradesDetected : nat;
  tradesExecuted : nat; tradesSkipped : nat; tradesFailed : nat
}.

Record CopyTradeResult := mkCopyTradeResult {
  attempted : bool; success : bool;
  copySizeUsed : option Qc; copyValueUsed : option Qc
}.

Inductive Verdict := Skip (reason : string) | Submit (o : ReplicaOrderSpec).

#[global] Instance OrderKind_eq_dec : EqDecision OrderKind.
Proof. solve_decision. Defined.
#[global] Instance ReplicaOrderSpec_eq_dec : EqDecision ReplicaOrderSpec.
Proof. solve_decision. Defined.
#[global] Instance Verdict_eq_dec : EqDecision Verdict.
Proof. solve_decision. Defined.

#[local] Open Scope Qc_scope.

(** Modelled from the spec: "copySize = sourceTrade.size * sizeScale, clamped
    by an optional maxSizePerTrade ceiling". *)
Definition scaledSize (opts : Options) (t : SourceTrade) : Qc :=
  let s := size t * sizeScale opts in
  match maxSizePerTrade opts with
  | Some m => Qc_min s m
  | None => s
  end.

(** An optional ceiling and an optional floor. *)
Definition exceeds (x : Qc) (ceiling : option Qc) : bool :=
  match ceiling with Some m => Qc_ltb m x | None => false end.

Definition below (x : Qc) (floor : option Qc) : bool :=
  match floor with Some m => Qc_ltb x m | None => false end.

(** Modelled from the spec: the Risk Gate.  A SELL is clamped to the shares
    held and skipped when none are held; it has no price ceiling and no
    minimum value.  A BUY is skipped above [maxPricePerShare] and below
    [minOrderValueUsd]. *)
Definition riskGate (opts : Options) (currentHeldShares : string → Qc)
    (t : SourceTrade) : Verdict :=
  match side t with
  | SELL =>
      let held := currentHeldShares (asset t) in
      if bool_decide (held = 0) then Skip "no shares held"
      else
        Submit (mkReplicaOrderSpec (asset t) SELL
                  (Qc_min (scaledSize opts t) held)
                  (price t * (1 - maxSlippage opts)) (kind opts))
  | BUY =>
      if exceeds (price t) (maxPricePerShare opts)
      then Skip "price above maxPricePerShare"
      else if below (scaledSize opts t * price t) (minOrderValueUsd opts)
      then Skip "order value below minOrderValueUsd"
      else
        Submit (mkReplicaOrderSpec (asset t) BUY (scaledSize opts t)
                  (price t * (1 + maxSlippage opts)) (kind opts))
  end.

(** The engine: the counters and the orders handed to [submitOrder]. *)
Record Engine := mkEngine {
  stats : RunStats;
  submitted : list ReplicaOrderSpec
}.

Definition skipped (s : RunStats) : RunStats :=
  mkRunStats (activityReceived s) (activityMatched s) (tradesDetected s)
             (tradesExecuted s) (S (tradesSkipped s)) (tradesFailed s).

Definition detected (s : RunStats) : RunStats :=
  mkRunStats (activityReceived s) (activityMatched s) (S (tradesDetected s))
             (tradesExecuted s) (tradesSkipped s) (tradesFailed s).

Definition settled (filled : bool) (s : RunStats) : RunStats :=
  mkRunStats (activityReceived s) (activityMatched s) (tradesDetected s)
             (if filled then S (tradesExecuted s) else tradesExecuted s)
             (tradesSkipped s)
             (if filled then tradesFailed s else S (tradesFailed s)).

(** Modelled from the spec: one source trade the Classifier accepted,
    through the gate and the execution.  The trade is a detected candidate
    when it reaches the gate, so [tradesDetected] goes up whether the gate
    skips it or passes it (section 4.2: a Risk Gate skip "is counted, since
    Risk Gate rejection happens after the trade is already a detected
    candidate"; section 6: the callback is fired "once per detected trade
    (after skip or after execution settles)"); "every rejection increments
    tradesSkipped", and "every passed trade increments tradesDetected and
    proceeds to execution" (section 4.3).  [execute o] is the fill the
    collaborator reports for [o], if any. *)
Definition replicate (opts : Options) (currentHeldShares : string → Qc)
    (execute : ReplicaOrderSpec → option Qc)
    (e : Engine) (t : SourceTrade) : Engine * CopyTradeResult :=
  match riskGate opts currentHeldShares t with
  | Skip _ =>
      (mkEngine (skipped (detected (stats e))) (submitted e),
       mkCopyTradeResult false false None None)
  | Submit o =>
      let e' := mkEngine (detected (stats e)) (submitted e ++ [o]) in
      match execute o with
      | Some filledSize =>
          (mkEngine (settled true (stats e')) (submitted e'),
           mkCopyTradeResult true true (Some filledSize)
                             (Some (filledSize * price t)))
      | None =>
          (mkEngine (settled false (stats e')) (submitted e'),
           mkCopyTradeResult true false None None)
      end
  end.

(** ** Scenarios (specification, section 8) *)

(** sizeScale 0.5, minOrderValueUsd 1, 5% slippage, no ceilings. *)
Definition scenario_opts : Options :=
  mkOptions (qc 1 2) None (qc 1 20) (Some (qc 1 1)) None FOK.

(** W1 buys 100 shares of X at $0.40, and later sells 100 at $0.45. *)
Definition scenario_buy : SourceTrade :=
  mkSourceTrade "W1" "0xa1" BUY "X" (qc 100 1) (qc 2 5) 0.

Definition scenario_sell : SourceTrade :=
  mkSourceTrade "W1" "0xa2" SELL "X" (qc 100 1) (qc 9 20) 1.

Definition engine0 : Engine := mkEngine (mkRunStats 0 0 0 0 0 0) [].

End RiskGate.

(* ===================================================================== *)
(** * scripts/e2e-builder-test.ts: order confirmation                     *)
(* ===================================================================== *)

Module E2E.

(** Modelled from the spec: the enum [OrderStatus] of src/core/types.ts is
    not among the sources; its members are the states of the order state
    machine of section 4.5 of the specification. *)
Inductive OrderStatus :=
  NEW | PARTIALLY_FILLED | FILLED | CANCELLED | EXPIRED | REJECTED.

#[global] Instance OrderStatus_eq_dec : EqDecision OrderStatus.
Proof. solve_decision. Defined.

(** What [tradingService.getOrder] resolves to, when it is not [null]. *)
Record Order := mkOrder {
  status : OrderStatus; filledSize : Qc; originalSize : Qc
}.

#[global] Instance Order_eq_dec : EqDecision Order.
Proof. solve_decision. Defined.

(** The collaborator and the timer: the [i]-th call of [getOrder] resolves
    to [reply] after [latency] milliseconds, and a [sleep] that follows it
    ends [lag] milliseconds late. *)
Record Reply := mkReply { reply : option Order; latency : Z; lag : Z }.

(** Answers and timers take no negative time. *)
Definition causal (env : nat → Reply) : Prop :=
  ∀ i, (0 ≤ latency (env i) ∧ 0 ≤ lag (env i))%Z.

(** What the script does to the outside world. *)
Inductive Event :=
  | GetOrder (at_ms : Z) (r : option Order)
  | Sleep (ms : Z)
  | CancelOrder (orderId : string).

#[global] Instance Event_eq_dec : EqDecision Event.
Proof. solve_decision. Defined.

(** [Date.now()], the number of [getOrder] calls made, and the events. *)
Record World := mkWorld { clock : Z; calls : nat; trace : list Event }.

Definition getOrder (env : nat → Reply) (w : World) : option Order * World :=
  let r := env (calls w) in
  (reply r,
   mkWorld (clock w + latency r) (S (calls w))
           (trace w ++ [GetOrder (clock w) (reply r)])).

Definition sleep (ms late : Z) (w : World) : World :=
  mkWorld (clock w + ms + late) (calls w) (trace w ++ [Sleep ms]).

Record FillResult := mkFillResult { filled : bool; order : option Order }.

(** [finalOrder?.status === OrderStatus.FILLED] *)
Definition is_filled (o : option Order) : bool :=
  match o with
  | Some o => bool_decide (status o = FILLED)
  | None => false
  end.

(** Lines 141-163: the [while] loop of [waitForFill] and the code after it,
    without the console output. *)
Fixpoint waitLoop (fuel : nat) (env : nat → Reply) (start timeoutMs : Z)
    (w : World) : option (FillResult * World) :=
  if (clock w - start <? timeoutMs)%Z then
    match fuel with
    | O => None
    | S n =>
        let late := lag (env (calls w)) in
        let '(o, w1) := getOrder env w in
        match o with
        | None => Some (mkFillResult false None, w1)
        | Some ord =>
            match status ord with
            | FILLED => Some (mkFillResult true (Some ord), w1)
            | CANCELLED | EXPIRED | REJECTED =>
                Some (mkFillResult false (Some ord), w1)
            | NEW | PARTIALLY_FILLED =>
                waitLoop n env start timeoutMs (sleep 2000 late w1)
            end
        end
    end
  else
    let '(finalOrder, w1) := getOrder env w in
    Some (mkFillResult (is_filled finalOrder) finalOrder, w1).

(** Lines 134-164: [waitForFill]; [timeoutMs] defaults to 15000. *)
Definition waitForFill (fuel : nat) (env : nat → Reply)
    (timeoutMs : option Z) (w : World) : option (FillResult * World) :=
  waitLoop fuel env (clock w) (default 15000%Z timeoutMs) w.

(** Iterations that fit in [timeoutMs] when each one sleeps 2000 ms. *)
Definition fuel_for (timeoutMs : Z) : nat := Z.to_nat ((timeoutMs + 1999) / 2000).

(** What [createLimitOrder] and [createMarketOrder] resolve to. *)
Record OrderResult := mkOrderResult {
  success : bool; orderId : option string; errorMsg : option string;
  transactionHashes : list string
}.

(** An entry of [results]; [detail] is kept structured. *)
Inductive Detail :=
  | Failed (msg : option string)
  | FilledAt (size : Qc)
  | NotFilled (s : option OrderStatus)
  | Accepted (s : option OrderStatus)
  | Matched (tx : string)
  | AcceptedNoId.

Record StepResult := mkStepResult { stepSuccess : bool; detail : Detail }.

(** The call [tradingService.cancelOrder(id)]. *)
Definition cancelOrder (id : string) (w : World) : World :=
  mkWorld (clock w) (calls w) (trace w ++ [CancelOrder id]).

(** Lines 523-542 (Step 6; Step 5, lines 465-495, has the same shape after
    its maker check): what follows [createLimitOrder].  [cancel] is what
    [cancelOrder] does if it is called. *)
Definition limitOrderStep (fuel : nat) (env : nat → Reply)
    (sellResult : OrderResult) (cancel : Outcome string unit) (w : World)
    : option (StepResult * World) :=
  if negb (success sellResult) then
    Some (mkStepResult false (Failed (errorMsg sellResult)), w)
  else
    '(fillResult, w1) ← waitForFill fuel env None w;
    if filled fillResult then
      Some (mkStepResult true
              (FilledAt (default 0%Qc (filledSize <$> order fillResult))), w1)
    else
      (* try { await tradingService.cancelOrder(id); } catch { /* ok */ } *)
      let w2 := cancelOrder (default "" (orderId sellResult)) w1 in
      let _ : unit := try_catch cancel (λ _ : string, ()) in
      Some (mkStepResult false (NotFilled (status <$> order fillResult)), w2).

(** Lines 562-585 (Step 7): what follows [createMarketOrder]. *)
Definition marketOrderStep (fuel : nat) (env : nat → Reply)
    (marketBuyResult : OrderResult) (w : World)
    : option (StepResult * World) :=
  if negb (success marketBuyResult) then
    Some (mkStepResult false (Failed (errorMsg marketBuyResult)), w)
  else
    (* [if (marketBuyResult.orderId)]: a missing id and the empty string
       are falsy. *)
    if bool_decide (default "" (orderId marketBuyResult) ≠ "") then
      '(fillResult, w1) ← waitForFill fuel env (Some 10000%Z) w;
      if filled fillResult then
        Some (mkStepResult true
                (FilledAt (default 0%Qc (filledSize <$> order fillResult))),
              w1)
      else
        Some (mkStepResult true (Accepted (status <$> order fillResult)), w1)
    else
      match transactionHashes marketBuyResult with
      | tx :: _ => Some (mkStepResult true (Matched tx), w)
      | [] => Some (mkStepResult true AcceptedNoId, w)
      end.

(** The [getOrder] calls of a trace, in order. *)
Definition polls (tr : list Event) : list (Z * option Order) :=
  omap (λ e, match e with GetOrder t r => Some (t, r) | _ => None end) tr.

(** [GetOrder], [Sleep 2000], [GetOrder], ..., [GetOrder]. *)
Fixpoint events_of (ps : list (Z * option Order)) : list Event :=
  match ps with
  | [] => []
  | p :: rest =>
      match rest with
      | [] => [GetOrder p.1 p.2]
      | _ :: _ => GetOrder p.1 p.2 :: Sleep 2000 :: events_of rest
      end
  end.

(** The first [n + 1] calls of [getOrder] of a loop that starts at time [t]
    with call number [k]: each call is answered by the collaborator, and the
    next one is made when a sleep of 2000 ms after the answer has ended. *)
Fixpoint poll_seq (env : nat → Reply) (t : Z) (k n : nat)
    : list (Z * option Order) :=
  (t, reply (env k)) ::
  match n with
  | O => []
  | S n' => poll_seq env (t + latency (env k) + 2000 + lag (env k)) (S k) n'
  end.

(** The statuses of section 4.5: terminal, and the two that keep an order
    open. *)
Definition terminal (s : OrderStatus) : Prop :=
  s = FILLED ∨ s = CANCELLED ∨ s = EXPIRED ∨ s = REJECTED.

Definition open (r : option Order) : Prop :=
  ∃ o, r = Some o ∧ (status o = NEW ∨ status o = PARTIALLY_FILLED).

Definition closed (r : option Order) : Prop :=
  r = None ∨ ∃ o, r = Some o ∧ terminal (status o).

(** The environments of the scenarios: every call resolves to [s] after
    [ms] milliseconds. *)
Definition always (s : OrderStatus) (ms : Z) : nat → Reply :=
  λ _, mkReply (Some (mkOrder s (qc 2 1) (qc 5 1))) ms 0.

Definition world0 : World := mkWorld 0 0 [].

(** An order that is filled at the third call, each call taking 300 ms. *)
Definition filled_at_third : nat → Reply :=
  λ i, mkReply (Some (mkOrder (if bool_decide (i = 2%nat) then FILLED
                               else PARTIALLY_FILLED) (qc 5 1) (qc 5 1))) 300 7.

End E2E.

(* ===================================================================== *)
(** * docs/smart-money-service-refactor.md: deduplication                 *)
(* ===================================================================== *)

Module Dedup.

(** [seenTxHashes : Set<string>].  A JavaScript [Set] iterates in insertion
    order, so it is a list without duplicates, oldest first. *)
Definition has (seen : list string) (h : string) : bool :=
  existsb (String.eqb h) seen.

Definition add (seen : list string) (h : string) : list string :=
  if has seen h then seen else seen ++ [h].

Definition delete (seen : list string) (h : string) : list string :=
  List.filter (λ x, negb (String.eqb x h)) seen.

(** Lines 170-173:
    [const toRemove = Array.from(seen).slice(0, 500);
     toRemove.forEach(hash => seen.delete(hash))]. *)
Definition evict (seen : list string) : list string :=
  let toRemove := take 500 seen in
  foldl delete seen toRemove.

(** The poller's state: the set, and the activities handed downstream so
    far (oldest first). *)
Record Poller := mkPoller { seenTxHashes : list string; handled : list string }.

(** Lines 164-173: the body of the loop over the activities of a tick, for
    an activity with transaction hash [h]. *)
Definition step (st : Poller) (h : string) : Poller :=
  if has (seenTxHashes st) h then st
  else
    let seen := add (seenTxHashes st) h in
    let seen := if 1000 <? length seen then evict seen else seen in
    mkPoller seen (handled st ++ [h]).

Definition run (hs : list string) : Poller := foldl step (mkPoller [] []) hs.

(** Any two handlings of one hash are more than [gap] handlings apart. *)
Definition spaced (gap : nat) (l : list string) : Prop :=
  ∀ i j x, i < j → l !! i = Some x → l !! j = Some x → gap < j - i.

(** The invariant of the poller: the set has no duplicates and at most 1000
    entries, it is the most recent part of what was handled (all of it
    until the first eviction, and never less than the last 501), and the
    handlings of a hash are spaced. *)
Definition poller_inv (st : Poller) : Prop :=
  NoDup (seenTxHashes st)
  ∧ length (seenTxHashes st) ≤ 1000
  ∧ (∃ old, handled st = old ++ seenTxHashes st)
  ∧ (length (handled st) ≤ 1000 → seenTxHashes st = handled st)
  ∧ length (handled st) `min` 501 ≤ length (seenTxHashes st)
  ∧ spaced 501 (handled st).

(** The hashes of the scenario: 0x0, 0x1, ... *)
Definition tx (i : nat) : string := "0x" +:+ pretty i.

(** 1001 distinct hashes, then the first of them again. *)
Definition scenario : list string := (tx <$> seq 0 1001) ++ [tx 0].

End Dedup.

(* ===================================================================== *)
(** * docs/copy-trading-implementation.md: the poll loop                  *)
(* ===================================================================== *)

(** The class [SmartMoneyService] of the document's "core code" (the file
    unnamed/part_001 of the sources; line numbers are those of that file). *)

Module Poller.

(** The fields of an [Activity] the snippet reads; [timestamp] is in Unix
    seconds. *)
Record Activity := mkActivity {
  proxyWallet : string; side : Side; asset : string;
  usdcSize : option Qc; price : Qc; timestamp : Z; transactionHash : string
}.

#[global] Instance Activity_eq_dec : EqDecision Activity.
Proof. solve_decision. Defined.

(** [Promise.all]: the results in order, or the rejection of a promise that
    rejects (the leftmost one here; at run time, the earliest one). *)
Fixpoint promise_all {E A : Type} (ps : list (Outcome E A))
    : Outcome E (list A) :=
  match ps with
  | [] => Returns []
  | Throws e :: _ => Throws e
  | Returns a :: rest =>
      match promise_all rest with
      | Returns l => Returns (a :: l)
      | Throws e => Throws e
      end
  end.

(** [Array.prototype.sort(cmp)], which is stable: [x] is put before the
    first element [y] with [cmp(x, y) <= 0]. *)
Fixpoint insert_sorted {A : Type} (cmp : A → A → Z) (x : A) (l : list A)
    : list A :=
  match l with
  | [] => [x]
  | y :: l' =>
      if (cmp x y <=? 0)%Z then x :: y :: l'
      else y :: insert_sorted cmp x l'
  end.

Definition sort {A : Type} (cmp : A → A → Z) (l : list A) : list A :=
  foldr (insert_sorted cmp) [] l.

(** [(a, b) => b.timestamp - a.timestamp] *)
Definition by_timestamp (a b : Activity) : Z := (timestamp b - timestamp a)%Z.

(** Lines 43-67: [pollTargetWallets].  [getActivity w start] is what the
    Data API answers for wallet [w]; [now] is [Math.floor(Date.now() / 1000)].
    Returns the outcome and the new [lastCheckTimestamp]. *)
Definition pollTargetWallets
    (getActivity : string → Z → Outcome string (list Activity))
    (now lastCheckTimestamp : Z) (targetWallets : list string)
    : Outcome string (list Activity) * Z :=
  let start := lastCheckTimestamp in
  match promise_all ((λ wallet, getActivity wallet start) <$> targetWallets) with
  | Throws e => (Throws e, lastCheckTimestamp)
  | Returns results => (Returns (sort by_timestamp (concat results)), now)
  end.

(** docs/copy-trading-data-sources.md, lines 244-265:
    [pollSmartMoneyTrades], which asks for the last five seconds. *)
Definition pollSmartMoneyTrades
    (getActivity : string → Z → Outcome string (list Activity))
    (now : Z) (targetWallets : list string) : Outcome string (list Activity) :=
  let lastCheck := (now - 5)%Z in
  match promise_all ((λ wallet, getActivity wallet lastCheck) <$> targetWallets)
  with
  | Throws e => Throws e
  | Returns results => Returns (sort by_timestamp (concat results))
  end.

(** Lines 74-78: the [for] loop of the timer callback; it ends at the first
    [executeCopyTrade] that throws.  Returns the activities handed to
    [executeCopyTrade] and the error thrown, if any. *)
Fixpoint copyAll (executeCopyTrade : Activity → Outcome string ())
    (newActivities : list Activity) : list Activity * option string :=
  match newActivities with
  | [] => ([], None)
  | activity :: rest =>
      match side activity with
      | BUY =>
          match executeCopyTrade activity with
          | Returns _ =>
              let r := copyAll executeCopyTrade rest in (activity :: r.1, r.2)
          | Throws e => ([activity], Some e)
          end
      | SELL => copyAll executeCopyTrade rest
      end
  end.

(** What one run of the timer callback did. *)
Record Tick := mkTick {
  delivered : list Activity;      (* handed to executeCopyTrade, in order *)
  pollError : option string;      (* console.error('Poll error:', error) *)
  lastCheck : Z                   (* this.lastCheckTimestamp afterwards *)
}.

(** Lines 70-82: the callback of [setInterval] in [startCopyTrading]: the
    whole body is inside [try ... catch]. *)
Definition tick (getActivity : string → Z → Outcome string (list Activity))
    (executeCopyTrade : Activity → Outcome string ())
    (now lastCheckTimestamp : Z) (targetWallets : list string) : Tick :=
  let p := pollTargetWallets getActivity now lastCheckTimestamp targetWallets in
  try_catch
    (match p.1 with
     | Returns newActivities =>
         let r := copyAll executeCopyTrade newActivities in
         match r.2 with
         | None => Returns (mkTick r.1 None p.2)
         | Some e => Throws (r.1, e)
         end
     | Throws e => Throws ([], e)
     end)
    (λ err, mkTick err.1 (Some err.2) p.2).

(** Newest first. *)
Definition newest_first (a b : Activity) : Prop :=
  (timestamp b ≤ timestamp a)%Z.

(** Oldest first, as the specification has it. *)
Definition oldest_first (a b : Activity) : Prop :=
  (timestamp a ≤ timestamp b)%Z.

(** ** Scenario: two wallets, one activity each *)

Definition act1 : Activity :=
  mkActivity "W1" BUY "X" (Some (qc 40 1)) (qc 2 5) 100 "0xa1".
Definition act2 : Activity :=
  mkActivity "W2" BUY "Y" (Some (qc 10 1)) (qc 1 2) 200 "0xb1".

(** Both wallets answer. *)
Definition both_answer (wallet : string) (start : Z)
    : Outcome string (list Activity) :=
  if bool_decide (wallet = "W1") then Returns [act1] else Returns [act2].

(** The query for W1 fails, the one for W2 answers. *)
Definition w1_fails (wallet : string) (start : Z)
    : Outcome string (list Activity) :=
  if bool_decide (wallet = "W1") then Throws "HTTP 503" else Returns [act2].

End Poller.

(* ===================================================================== *)
(** * src/services/relayer-service.ts                                     *)
(* ===================================================================== *)

Module RelayerService.

(** [enum RelayerState]. *)
Inductive RelayerState :=
  | STATE_NEW | STATE_EXECUTED | STATE_MINED | STATE_CONFIRMED
  | STATE_FAILED | STATE_INVALID.

#[global] Instance RelayerState_eq_dec : EqDecision RelayerState.
Proof. solve_decision. Defined.

(** The string value of a state, as it appears in an error message. *)
Definition state_string (s : RelayerState) : string :=
  match s with
  | STATE_NEW => "STATE_NEW" | STATE_EXECUTED => "STATE_EXECUTED"
  | STATE_MINED => "STATE_MINED" | STATE_CONFIRMED => "STATE_CONFIRMED"
  | STATE_FAILED => "STATE_FAILED" | STATE_INVALID => "STATE_INVALID"
  end.

(** A thrown value: an [Error] with its message, or anything else. *)
Inductive Thrown := ErrorObject (message : string) | OtherValue.

(** The transaction [response.wait()] resolves to.  A missing or empty
    [to] is falsy. *)
Record RelayerTransaction := mkRelayerTransaction {
  state : RelayerState; transactionHash : string; to : string
}.

(** The response of [relayClient.deploy()] and [relayClient.execute(txs)]:
    [wait()] resolves to a transaction or to nothing, or rejects. *)
Record Response := mkResponse {
  wait : Outcome Thrown (option RelayerTransaction)
}.

(** A transaction handed to [relayClient.execute]. *)
Record Call := mkCall { callTo : string; callValue : string; callData : string }.

(** The collaborator: the relay client. *)
Record RelayClient := mkRelayClient {
  deploy : Outcome Thrown Response;
  execute : list Call → Outcome Thrown Response
}.

(** [interface RelayerResult] and [interface SafeDeployResult]. *)
Record RelayerResult := mkRelayerResult {
  success : bool; txHash : option string; errorMessage : option string
}.

Record SafeDeployResult := mkSafeDeployResult {
  deploySuccess : bool; safeAddress : string;
  deployTxHash : option string; deployErrorMessage : option string
}.

(** [await p] inside a [try] block. *)
Definition await {E A B : Type} (p : Outcome E A) (k : A → Outcome E B)
    : Outcome E B :=
  match p with Returns a => k a | Throws e => Throws e end.

(** [error instanceof Error ? error.message : 'Unknown error'] *)
Definition message_of (error : Thrown) : string :=
  match error with
  | ErrorObject m => m
  | OtherValue => "Unknown error"
  end.

Section Service.
(** [USDC_CONTRACT] and [CTF_CONTRACT] of src/clients/ctf-client.ts. *)
Variables (USDC_CONTRACT CTF_CONTRACT : string).
Variable relayClient : RelayClient.

(** Lines 143-188: [deploySafe]. *)
Definition deploySafe : SafeDeployResult :=
  try_catch
    (await (deploy relayClient) (λ response,
     await (wait response) (λ tx,
       match tx with
       | None =>
           Returns (mkSafeDeployResult false "" None
                      (Some "Deployment failed: No transaction returned"))
       | Some tx =>
           if bool_decide (state tx = STATE_FAILED) then
             Returns (mkSafeDeployResult false "" None
                        (Some ("Safe deployment failed: "
                               +:+ state_string (state tx))))
           else if bool_decide (to tx = "") then
             Returns (mkSafeDeployResult false "" None
                        (Some "Safe address not found in transaction"))
           else
             Returns (mkSafeDeployResult true (to tx)
                        (Some (transactionHash tx)) None)
       end)))
    (λ error, mkSafeDeployResult false "" None (Some (message_of error))).

(** The [try ... catch] statement that [approveUsdc], [split], [merge],
    [redeem] and [executeBatch] share word for word, up to the text [what]
    of the error message. *)
Definition relay (what : string) (transactions : list Call) : RelayerResult :=
  try_catch
    (await (execute relayClient transactions) (λ response,
     await (wait response) (λ tx,
       match tx with
       | None =>
           Returns (mkRelayerResult false None
                      (Some (what +:+ " failed: No transaction")))
       | Some tx =>
           if bool_decide (state tx = STATE_FAILED) then
             Returns (mkRelayerResult false None
                        (Some (what +:+ " failed: "
                               +:+ state_string (state tx))))
           else
             Returns (mkRelayerResult true (Some (transactionHash tx)) None)
       end)))
    (λ error, mkRelayerResult false None (Some (message_of error))).

(** Lines 196-226, 243-281, 290-328, 337-374: the calldata is encoded
    before the [try] block ([encodeFunctionData], and [parseUnits] for
    [split] and [merge]); [encoded] is the outcome of that step, which throws
    on malformed arguments. *)
Definition approveUsdc (encoded : Outcome Thrown string)
    : Outcome Thrown RelayerResult :=
  await encoded (λ data,
    Returns (relay "USDC approval" [mkCall USDC_CONTRACT "0" data])).

Definition split (encoded : Outcome Thrown string)
    : Outcome Thrown RelayerResult :=
  await encoded (λ data, Returns (relay "Split" [mkCall CTF_CONTRACT "0" data])).

Definition merge (encoded : Outcome Thrown string)
    : Outcome Thrown RelayerResult :=
  await encoded (λ data, Returns (relay "Merge" [mkCall CTF_CONTRACT "0" data])).

Definition redeem (encoded : Outcome Thrown string)
    : Outcome Thrown RelayerResult :=
  await encoded (λ data, Returns (relay "Redeem" [mkCall CTF_CONTRACT "0" data])).

(** Lines 381-405: [executeBatch]. *)
Definition executeBatch (transactions : list Call) : RelayerResult :=
  relay "Batch execution" transactions.

End Service.

(** The transaction a relay call obtained, if it obtained one. *)
Definition obtained (r : Outcome Thrown Response) : option RelayerTransaction :=
  match r with
  | Returns response =>
      match wait response with
      | Returns (Some tx) => Some tx
      | _ => None
      end
  | Throws _ => None
  end.

(** What the specification asks of a result, given what the relay call did:
    success only with a transaction that was obtained and is not FAILED, and
    then with its hash; an error message whenever there is no success; and
    no success when the call threw, gave no transaction, or gave a FAILED
    one. *)
Definition result_ok (call : Outcome Thrown Response)
    (success : bool) (txHash errorMessage : option string) : Prop :=
  (success = true →
     ∃ tx, obtained call = Some tx ∧ state tx ≠ STATE_FAILED
           ∧ txHash = Some (transactionHash tx))
  ∧ (success = false → is_Some errorMessage ∧ txHash = None)
  ∧ ((∀ tx, obtained call = Some tx → state tx = STATE_FAILED) →
     success = false).

(** A relay client of the scenarios: every call is answered by [r]. *)
Definition answering (r : Outcome Thrown Response) : RelayClient :=
  mkRelayClient r (λ _, r).

End RelayerService.

(* ===================================================================== *)
(** * src/utils/calldata-decoder.ts                                       *)
(* ===================================================================== *)

Module CalldataDecoder.

Definition MATCH_ORDERS_SELECTOR : string := "0x2287e350".

(** What ethers decodes an [Order] tuple to: addresses as (checksummed)
    strings, [uint256] fields as big numbers, [uint8] fields as numbers. *)
Record RawOrder := mkRawOrder {
  rawSalt : N; rawMaker : string; rawSigner : string; rawTaker : string;
  rawTokenId : N; rawMakerAmount : N; rawTakerAmount : N;
  rawExpiration : N; rawNonce : N; rawFeeRateBps : N;
  rawSide : N; rawSignatureType : N; rawSignature : string
}.

(** The seven arguments of [matchOrders]. *)
Record RawMatchOrders := mkRawMatchOrders {
  rawTakerOrder : RawOrder; rawMakerOrders : list RawOrder;
  rawTakerFillAmount : N; rawMakerFillAmount : N;
  rawMakerFillAmounts : list N;
  rawTakerFeeAmount : N; rawMakerFeeAmounts : list N
}.

(** [interface DecodedOrder] and [interface DecodedMatchOrders]. *)
Record DecodedOrder := mkDecodedOrder {
  maker : string; signer : string; taker : string;
  tokenId : string; makerAmount : string; takerAmount : string;
  side : N
}.

Record DecodedMatchOrders := mkDecodedMatchOrders {
  takerOrder : DecodedOrder; makerOrders : list DecodedOrder;
  takerFillAmount : string; makerFillAmounts : list string
}.

(** [String.prototype.toLowerCase] on ASCII text (addresses are hexadecimal
    strings). *)
Definition is_upper (c : ascii) : bool :=
  (65 <=? nat_of_ascii c) && (nat_of_ascii c <=? 90).

Definition lower_char (c : ascii) : ascii :=
  if is_upper c then ascii_of_nat (nat_of_ascii c + 32) else c.

Fixpoint toLowerCase (s : string) : string :=
  match s with
  | EmptyString => EmptyString
  | String c s' => String (lower_char c) (toLowerCase s')
  end.

(** [BigNumber.prototype.toString]: the decimal digits. *)
Definition toString (n : N) : string := pretty n.

Definition is_digit (c : ascii) : bool :=
  (48 <=? nat_of_ascii c) && (nat_of_ascii c <=? 57).

Fixpoint string_forall (P : ascii → bool) (s : string) : bool :=
  match s with
  | EmptyString => true
  | String c s' => P c && string_forall P s'
  end.

(** A string without upper-case letters; a string of decimal digits. *)
Definition lowercase (s : string) : Prop :=
  string_forall (λ c, negb (is_upper c)) s = true.

Definition decimal (s : string) : Prop :=
  s ≠ "" ∧ string_forall is_digit s = true.

(** Lines 93-103: [decodeOrder]. *)
Definition decodeOrder (raw : RawOrder) : DecodedOrder :=
  mkDecodedOrder (toLowerCase (rawMaker raw)) (toLowerCase (rawSigner raw))
                 (toLowerCase (rawTaker raw)) (toString (rawTokenId raw))
                 (toString (rawMakerAmount raw))
                 (toString (rawTakerAmount raw)) (rawSide raw).

Section Decoder.
(** [MATCH_ORDERS_IFACE.decodeFunctionData('matchOrders', data)] of ethers:
    it returns the decoded arguments or throws. *)
Variable decodeFunctionData : string → Outcome string RawMatchOrders.

(** Lines 109-122: [decodeMatchOrdersCalldata]; the whole body is inside
    [try ... catch], and the handler returns [null]. *)
Definition decodeMatchOrdersCalldata (data : string)
    : option DecodedMatchOrders :=
  try_catch
    (if negb (String.prefix MATCH_ORDERS_SELECTOR data) then Returns None
     else
       match decodeFunctionData data with
       | Returns decoded =>
           Returns (Some (mkDecodedMatchOrders
                      (decodeOrder (rawTakerOrder decoded))
                      (decodeOrder <$> rawMakerOrders decoded)
                      (toString (rawTakerFillAmount decoded))
                      (toString <$> rawMakerFillAmounts decoded)))
       | Throws e => Throws e
       end)
    (λ _ : string, None).

End Decoder.

(** The strings of a decoded order that hold an address, and those that hold
    a number. *)
Definition order_addresses (o : DecodedOrder) : list string :=
  [maker o; signer o; taker o].

Definition order_numbers (o : DecodedOrder) : list string :=
  [tokenId o; makerAmount o; takerAmount o].

Definition addresses (d : DecodedMatchOrders) : list string :=
  order_addresses (takerOrder d) ++ (makerOrders d ≫= order_addresses).

Definition numbers (d : DecodedMatchOrders) : list string :=
  order_numbers (takerOrder d) ++ (makerOrders d ≫= order_numbers)
  ++ takerFillAmount d :: makerFillAmounts d.

(** ** Scenario *)

Definition raw_order : RawOrder :=
  mkRawOrder 7 "0xAbCdEF0123456789aBcDeF0123456789ABCDEF01"
             "0xAbCdEF0123456789aBcDeF0123456789ABCDEF01"
             "0x0000000000000000000000000000000000000000"
             1234567890123456789 50000000 100000000 0 0 0 0 2 "0x".

(** A decoder that accepts one calldata string. *)
Definition decode_one (data : string) : Outcome string RawMatchOrders :=
  if bool_decide (data = "0x2287e350aa") then
    Returns (mkRawMatchOrders raw_order [raw_order] 50000000 100000000
                              [100000000%N] 0 [0%N])
  else Throws "invalid calldata".

End CalldataDecoder.

(* ===================================================================== *)
(** * src/utils/calldata-decoder.ts: settlement transactions            *)
(* ===================================================================== *)

Module Settlement.
Import CalldataDecoder.

(** Lines 21-26: the two routers settlement transactions are sent to. *)
Definition CTF_ROUTER : string := "0xE3f18aCc55091e2c48d883fc8C8413319d4Ab7b0".
Definition NEG_RISK_ROUTER : string :=
  "0xB768891e3130F6dF18214Ac804d4DB76c2C37730".

(** Lines 29-32: [new Set([CTF_ROUTER.toLowerCase(),
    NEG_RISK_ROUTER.toLowerCase()])]. *)
Definition ROUTER_ADDRESSES : list string :=
  foldl Dedup.add [] [toLowerCase CTF_ROUTER; toLowerCase NEG_RISK_ROUTER].

(** Lines 127-129: [isSettlementTx]; [to] is a string, [null] or
    [undefined], and the empty string is falsy in [!!to]. *)
Definition isSettlementTx (to : option string) : bool :=
  match to with
  | None => false
  | Some to =>
      negb (bool_decide (to = ""))
      && Dedup.has ROUTER_ADDRESSES (toLowerCase to)
  end.

(** Lines 137-140 and 142-145: the two [add] calls for one order. *)
Definition addTraders (addresses : list string) (order : DecodedOrder)
    : list string :=
  let addresses := Dedup.add addresses (maker order) in
  if negb (String.eqb (signer order) (maker order))
  then Dedup.add addresses (signer order)
  else addresses.

(** Lines 135-148: [extractTraderAddresses]; [Array.from] lists the set in
    insertion order. *)
Definition extractTraderAddresses (decoded : DecodedMatchOrders)
    : list string :=
  foldl addTraders (addTraders [] (takerOrder decoded)) (makerOrders decoded).

(** The maker and the signer of every order, taker order first. *)
Definition traders (decoded : DecodedMatchOrders) : list string :=
  (takerOrder decoded :: makerOrders decoded) ≫= λ o, [maker o; signer o].

End Settlement.

(* ===================================================================== *)
(** * crypto-copy-trade.ts: the report of [shutdown]                    *)
(* ===================================================================== *)

Module CopyTradeReport.
Import CryptoCopyTrade.

Section Report.
Context {A : Type} `{JSNumber A}.
Variable SIZE_SCALE : A.
#[local] Open Scope js_scope.

(** The state of the script before the first trade (lines 107-123). *)
Definition script0 : Script A := mkScript [] ∅.

(** The calls of [onTrade] during a run, in order. *)
Definition run (st : Script A)
    (calls : list (SmartMoneyTrade A * OrderResult A)) : Script A :=
  foldl (λ st call, onTrade SIZE_SCALE st call.1 call.2) st calls.

(** Lines 223-225 of [shutdown]; [entries] is
    [Array.from(holdings.entries())]. *)
Definition openPositions (entries : list (string * Position A))
    : list (string * Position A) :=
  List.filter (λ e, shares e.2 >? js_zero) entries.

Definition unredeemedCount (entries : list (string * Position A)) : nat :=
  length (openPositions entries).

Definition valueAfterRedeemed (entries : list (string * Position A)) : A :=
  foldl (λ sum e, sum + shares e.2) js_zero (openPositions entries).

End Report.

(** Every position held has a positive number of shares. *)
Definition positive (h : gmap string (Position Qc)) : Prop :=
  map_Forall (λ _ p, (0 < shares p)%Qc) h.

(** Scenario: trades of wallet 0xw on the market btc-up, and the result of
    an order that was executed. *)
Definition tradeOf (s : Side) (sz p : Qc) (tok : string)
    : SmartMoneyTrade Qc :=
  mkSmartMoneyTrade "0xw" s sz p tok "btc-up".

Definition filled_order : OrderResult Qc :=
  mkOrderResult true (Some "id") None None None.

(** A BUY of 10 shares at $0.50 and a SELL of 4 shares at $0.60 of token T,
    both copied at 30% and executed, around a BUY that failed. *)
Definition scenario_calls : list (SmartMoneyTrade Qc * OrderResult Qc) :=
  [ (tradeOf BUY (qc 10 1) (qc 1 2) "T", filled_order);
    (tradeOf BUY (qc 50 1) (qc 1 2) "T",
     mkOrderResult false None (Some "rejected") None None);
    (tradeOf SELL (qc 4 1) (qc 3 5) "T", filled_order) ].

End CopyTradeReport.

(* ===================================================================== *)
(** * wallet-deepdive.ts: the report                                    *)
(* ===================================================================== *)

Module DeepDiveReport.
Import WalletDeepDive.

(** A trade as the Data API returns it: the fields the loops read, and its
    timestamp; a missing timestamp is falsy in [t.timestamp || 0], as is 0. *)
Record Fetched (A : Type) := mkFetched { timestamp : option Z; trade : Trade A }.
Arguments mkFetched {A}. Arguments timestamp {A}. Arguments trade {A}.

(** The fields of a [Position] of the Data API the script reads. *)
Record Position (A : Type) := mkPosition {
  posAsset : string; posSize : option A;
  curPrice : option A; currentValue : option A
}.
Arguments mkPosition {A}. Arguments posAsset {A}. Arguments posSize {A}.
Arguments curPrice {A}. Arguments currentValue {A}.

(** An entry of [openSub1ByAsset]. *)
Record OpenSub1 (A : Type) := mkOpenSub1 {
  openAsset : string; openSize : A; openCost : A;
  openCurPrice : option A; openCurrentValue : option A
}.
Arguments mkOpenSub1 {A}. Arguments openAsset {A}. Arguments openSize {A}.
Arguments openCost {A}. Arguments openCurPrice {A}.
Arguments openCurrentValue {A}.

(** The variables of the loop of lines 354-379. *)
Record Redemption (A : Type) := mkRedemption {
  redemptionValue : A; openSub1Cost : A; openSub1ByAsset : list (OpenSub1 A)
}.
Arguments mkRedemption {A}. Arguments redemptionValue {A}.
Arguments openSub1Cost {A}. Arguments openSub1ByAsset {A}.

(** The numbers the script prints. *)
Record Report (A : Type) := mkReport {
  totalCost : A; realizedProceeds : A; realizedCost : A;
  redemption : A; openCost1 : A; totalReturn : A; roiPct : A;
  totalCostOfAll : A; realizedProceedsOfAll : A; redemptionAll : A;
  totalReturnAll : A; roiAllPct : A
}.
Arguments mkReport {A}. Arguments totalCost {A}. Arguments realizedProceeds {A}.
Arguments realizedCost {A}. Arguments redemption {A}. Arguments openCost1 {A}.
Arguments totalReturn {A}. Arguments roiPct {A}. Arguments totalCostOfAll {A}.
Arguments realizedProceedsOfAll {A}. Arguments redemptionAll {A}.
Arguments totalReturnAll {A}. Arguments roiAllPct {A}.

Section Report.
Context {A : Type} `{JSNumber A}.
(** The literal [100]. *)
Variable hundred : A.
#[local] Open Scope js_scope.



(** Line 303: [(a, b) => (a.timestamp || 0) - (b.timestamp || 0)]. *)
Definition chronological (a b : Fetched A) : Z :=
  (default 0 (timestamp a) - default 0 (timestamp b))%Z.

Definition sorted (trades : list (Fetched A)) : list (Fetched A) :=
  Poller.sort chronological trades.

(** The keys of [lotsByAsset] and of [lotsAllByAsset] in insertion order:
    every trade with an asset sets its key if it is not there. *)
Definition assets (ts : list (Trade A)) : list string :=
  foldl Dedup.add []
        (List.filter (λ k, negb (bool_decide (k = ""))) (asset_key <$> ts)).

(** [for (const [asset, lots] of map)]: the entries in insertion order. *)
Definition entries {L : Type} (keys : list string) (m : gmap string (list L))
    : list (string * list L) :=
  (λ k, (k, default [] (m !! k))) <$> keys.

(** Lines 345-348: [positionByAsset]. *)
Definition positionByAsset (positions : list (Position A))
    : gmap string (Position A) :=
  foldl (λ m p, <[posAsset p := p]> m) ∅ positions.

(** Lines 355-362: the open size and cost of the lots of one asset that
    come from a sub-$1 BUY. *)
Definition sub1Lots (lots : list (Lot A)) : A * A :=
  foldl (λ acc lot,
           if fromSub1Buy lot && (size lot >? js_zero)
           then (acc.1 + size lot, acc.2 + cost lot) else acc)
        (js_zero, js_zero) lots.

(** Lines 368-370 and 466-468: the redemption value of [openSize] shares of
    the asset of position [pos]. *)
Definition redeemVal (pos : option (Position A)) (openSize : A) : A :=
  let byPrice :=
    match pos ≫= curPrice with
    | Some curPrice => openSize * curPrice
    | None => js_zero
    end in
  match pos ≫= currentValue, pos ≫= posSize with
  | Some currentValue, Some size =>
      if size >? js_zero then (openSize / size) * currentValue else byPrice
  | _, _ => byPrice
  end.

(** Lines 354-379: the body of the loop over [lotsByAsset]. *)
Definition sub1_asset (byAsset : gmap string (Position A))
    (acc : Redemption A) (entry : string * list (Lot A)) : Redemption A :=
  let sub1 := sub1Lots entry.2 in
  if sub1.1 <=? js_zero then acc
  else
    let pos := byAsset !! entry.1 in
    mkRedemption
      (redemptionValue acc + redeemVal pos sub1.1)
      (openSub1Cost acc + sub1.2)
      (openSub1ByAsset acc
       ++ [mkOpenSub1 entry.1 sub1.1 sub1.2 (pos ≫= curPrice)
                      (pos ≫= currentValue)]).

Definition sub1_open (byAsset : gmap string (Position A))
    (es : list (string * list (Lot A))) : Redemption A :=
  foldl (sub1_asset byAsset) (mkRedemption js_zero js_zero []) es.

(** Lines 383 and 473: the return on [totalCost], in per cent. *)
Definition roi (totalCost totalReturn : A) : A :=
  if totalCost >? js_zero
  then ((totalReturn - totalCost) / totalCost) * hundred
  else js_zero.

(** Lines 456-463: the open size and cost of the lots of one asset. *)
Definition openLots (lots : list (SimpleLot A)) : A * A :=
  foldl (λ acc lot,
           if ssize lot >? js_zero
           then (acc.1 + ssize lot, acc.2 + scost lot) else acc)
        (js_zero, js_zero) lots.

(** Lines 454-470: [redemptionAll]. *)
Definition all_open (byAsset : gmap string (Position A))
    (es : list (string * list (SimpleLot A))) : A :=
  foldl (λ redemptionAll entry,
           let open := openLots entry.2 in
           if open.1 <=? js_zero then redemptionAll
           else redemptionAll + redeemVal (byAsset !! entry.1) open.1)
        js_zero es.

(** Lines 296-473 of [main]: the numbers of the report, from the trades and
    the positions the Data API returned. *)
Definition deepDive (trades : list (Fetched A)) (positions : list (Position A))
    : option (Report A) :=
  let ts := trade <$> sorted trades in
  let byAsset := positionByAsset positions in
  st1 ← sub1_loop sub1_init ts;
  let open1 := sub1_open byAsset (entries (assets ts) (lotsByAsset st1)) in
  let totalReturn := realizedSub1Proceeds st1 + redemptionValue open1 in
  st2 ← total_loop total_init ts;
  let redemptionAll :=
    all_open byAsset (entries (assets ts) (lotsAllByAsset st2)) in
  let totalReturnAll := realizedProceedsAll st2 + redemptionAll in
  Some (mkReport (totalSub1Cost st1) (realizedSub1Proceeds st1)
                 (realizedSub1Cost st1) (redemptionValue open1)
                 (openSub1Cost open1) totalReturn
                 (roi (totalSub1Cost st1) totalReturn)
                 (totalCostAll st2) (realizedProceedsAll st2) redemptionAll
                 totalReturnAll (roi (totalCostAll st2) totalReturnAll)).

End Report.






(** A trade worth less than $1. *)
Definition sub1 (t : Trade Qc) : bool := Qc_ltb (tsize t * price t)%Qc 1%Qc.

#[global] Instance Report_eq_dec : EqDecision (Report Qc).
Proof. solve_decision. Defined.

(** Asset X: a BUY of 1 share at $0.50 (below $1), then a BUY of 10 shares
    at $0.60, then a SELL of 3 shares at $0.90; the API returns the second
    BUY first.  The position in X is worth $0.80 a share. *)
Definition scenario_trades : list (Fetched Qc) :=
  [ mkFetched (Some 200%Z) (mkTrade "X" "" BUY (qc 10 1) (qc 3 5));
    mkFetched (Some 100%Z) (mkTrade "X" "" BUY (qc 1 1) (qc 1 2));
    mkFetched (Some 300%Z) (mkTrade "X" "" SELL (qc 3 1) (qc 9 10)) ].

Definition scenario_positions : list (Position Qc) :=
  [ mkPosition "X" (Some (qc 8 1)) (Some (qc 4 5)) (Some (qc 32 5)) ].

End DeepDiveReport.

(* ===================================================================== *)
(** * scripts/e2e-builder-test.ts: order book and order sizes           *)
(* ===================================================================== *)

Module OrderBook.

(** A level of the order book, after [parseFloat]; prices and sizes are
    exact rationals here. *)
Record Level := mkLevel { levelPrice : Qc; levelSize : Qc }.

#[global] Instance Level_eq_dec : EqDecision Level.
Proof. solve_decision. Defined.

(** The body of the answer of [GET /book]; [bids] and [asks] may be
    missing. *)
Record BookData := mkBookData {
  bids : option (list Level); asks : option (list Level)
}.

Record BookPrices := mkBookPrices {
  bestBid : Qc; bestAsk : Qc; bidSize : Qc; askSize : Qc
}.

#[global] Instance BookPrices_eq_dec : EqDecision BookPrices.
Proof. solve_decision. Defined.

(** The sign of a number: [sort] reads the result of its comparator through
    its sign. *)
Definition sgn (x : Qc) : Z := Z.sgn (Qnum x).

(** Lines 118-130 of [getBookPrices]: what it makes of the parsed answer. *)
Definition getBookPrices (data : BookData) : BookPrices :=
  let bids :=
    Poller.sort (λ a b, sgn (levelPrice b - levelPrice a)%Qc)
                (default [] (bids data)) in
  let asks :=
    Poller.sort (λ a b, sgn (levelPrice a - levelPrice b)%Qc)
                (default [] (asks data)) in
  mkBookPrices (default 0%Qc (levelPrice <$> head bids))
               (default 0%Qc (levelPrice <$> head asks))
               (default 0%Qc (levelSize <$> head bids))
               (default 0%Qc (levelSize <$> head asks)).

(** [MIN_CLOB_ORDER_SIZE = 5], as [findActiveMarket] compares it with the
    size of the best ask. *)
Definition MIN_CLOB_ORDER_SIZE : Qc := qc 5 1.

End OrderBook.

(* ===================================================================== *)
(** * scripts/e2e-builder-test.ts: the sizes of the limit orders        *)
(* ===================================================================== *)

(** [getBookPrices] only compares prices, which exact rationals decide as
    binary64 does.  The sizes of Steps 5 and 6 divide, round up and compare
    a product, and there the rounding of binary64 decides the outcome: the
    definitions below are over the kernel's binary64 numbers. *)

Module OrderSizing.
#[local] Open Scope float_scope.

(** Lines 76-77. *)
Definition MIN_CLOB_ORDER_SIZE : float := 5.
Definition MIN_ORDER_VALUE : float := 1.05.

(** [Math.ceil] on binary64.  A number of magnitude [2^52] or more is whole,
    and NaN and the infinities are returned as they are; below [2^52],
    adding and subtracting [2^52] rounds to the nearest whole number [r], and
    the result is [r] or [r + 1].  The sign of a zero result is the sign of
    the argument. *)
Definition two52 : float := 4503599627370496.

Definition ceil (x : float) : float :=
  if abs x <? two52 then
    if x =? 0 then x
    else
      let r := if x <? 0 then (x - two52) + two52 else (x + two52) - two52 in
      let c := if r <? x then r + 1 else r in
      if (c =? 0) && (x <? 0) then neg_zero else c
  else x.

(** [Math.max] on binary64: NaN if an argument is NaN, and +0 above -0. *)
Definition float_max (a b : float) : float :=
  if is_nan a || is_nan b then nan
  else if a <? b then b
  else if b <? a then a
  else if get_sign a then b else a.

(** Lines 448 and 506:
    [Math.max(MIN_CLOB_ORDER_SIZE, Math.ceil(MIN_ORDER_VALUE / price))]. *)
Definition orderSize (price : float) : float :=
  float_max MIN_CLOB_ORDER_SIZE (ceil (MIN_ORDER_VALUE / price)).

(** What Step 5 and Step 6 do before they wait for a fill. *)
Inductive Decision := Skipped | Placed (price size : float).

(** Lines 448-463: the budget check of Step 5,
    [if (buyCost > initialBalance * 0.9)]. *)
Definition limitBuy (bestAsk initialBalance : float) : Decision :=
  let buySize := orderSize bestAsk in
  let buyCost := bestAsk * buySize in
  if initialBalance * 0.9 <? buyCost then Skipped
  else Placed bestAsk buySize.

(** Lines 505-521: the value check of Step 6, [if (sellValue < 1.0)]. *)
Definition limitSell (bestBid : float) : Decision :=
  let sellSize := orderSize bestBid in
  let sellValue := bestBid * sellSize in
  if sellValue <? 1 then Skipped else Placed bestBid sellSize.

(** Lines 438-440: Step 4 gives up on an empty side of the book. *)
Definition checkLiquidity (bestBid bestAsk : float) : Outcome string unit :=
  if (bestBid =? 0) || (bestAsk =? 0)
  then Throws "No bid/ask available — market has no liquidity"
  else Returns ().

(** The price [k / 10000] as [parseFloat] reads it from the decimal string
    of the order book: the binary64 number nearest to it, which is what the
    correctly rounded division of [k] by [10000] gives. *)
Definition tick (k : Z) : float := of_uint63 (Uint63.of_Z k) / 10000.

(** The whole number a binary64 number is, if it is one. *)
Definition whole (x : float) : option Z :=
  match Prim2SF x with
  | S754_zero _ => Some 0%Z
  | S754_finite s m e =>
      if (0 <=? e)%Z then
        Some (if s then (- (Z.pos m * 2 ^ e))%Z else (Z.pos m * 2 ^ e)%Z)
      else if (Z.pos m mod 2 ^ (- e) =? 0)%Z then
        Some (if s then (- (Z.pos m / 2 ^ (- e)))%Z
              else (Z.pos m / 2 ^ (- e))%Z)
      else None
  | _ => None
  end.

(** The least whole number of shares, not below 5, that is worth $1.05 at
    the price [k / 10000]. *)
Definition least (k : Z) : Z := Z.max 5 ((10500 + k - 1) / k).

(** The prices of the grid at which binary64 rounds [1.05 / price] up past
    a whole number, so that [Math.ceil] gives one share more than [least]:
    $0.0003, $0.0006, ..., $0.15, $0.175. *)
Definition oneMore : list Z :=
  [3; 6; 12; 21; 42; 84; 375; 750; 875; 1500; 1750]%Z.

(** What is checked of the order size at the price [k / 10000]. *)
Definition tick_ok (k : Z) : bool :=
  match whole (orderSize (tick k)) with
  | Some n =>
      (if bool_decide (k ∈ oneMore) then (n =? least k + 1)%Z
       else (n =? least k)%Z)
      && (MIN_ORDER_VALUE <=? tick k * orderSize (tick k))
      && negb (tick k * orderSize (tick k) <? 1)
      && negb (tick k =? 0)
  | None => false
  end.

(** What is checked of [Math.ceil] at the price [k / 10000]: the result is
    a whole number, not below the quotient and less than 1 above it, and the
    size is the greater of 5 and that number. *)
Definition ceil_ok (k : Z) : bool :=
  let quotient := MIN_ORDER_VALUE / tick k in
  match whole (ceil quotient), whole (orderSize (tick k)) with
  | Some c, Some n =>
      (quotient <=? ceil quotient) && (ceil quotient - 1 <? quotient)
      && (n =? Z.max 5 c)%Z
  | _, _ => false
  end.

(** The prices [0.0001], [0.0002], ..., [0.9999]. *)
Definition ticks : list Z := seqZ 1 9999.

End OrderSizing.

(* ===================================================================== *)
(** * scripts/e2e-builder-test.ts: [findActiveMarket]                   *)
(* ===================================================================== *)

Module FindMarket.
Import OrderBook.

(** ['BTC' | 'ETH' | 'SOL']. *)
Inductive Coin := BTC | ETH | SOL.

(** [m.endDate]: missing, a number of milliseconds, or a date string. *)
Inductive EndDate := NoEndDate | EndNumber (ms : Z) | EndString (s : string).

(** The fields of a scanned market the script reads; an empty [question] is
    falsy. *)
Record Market := mkMarket {
  conditionId : string; question : string; endDate : EndDate
}.

Record Token := mkToken { tokenId : string; outcome : string }.

(** What [getClobMarket] resolves to, when it is not [null]; [tokens] may be
    missing. *)
Record ClobMarket := mkClobMarket { tokens : option (list Token) }.

Inductive YesNo := YES | NO.

(** What [findActiveMarket] resolves to. *)
Record ActiveMarket := mkActiveMarket {
  activeConditionId : string;
  primaryTokenId : string; secondaryTokenId : string;
  activeQuestion : string;
  tradeTokenId : string; tradeSide : YesNo
}.

(** An element of [sides]. *)
Record SideBook := mkSideBook {
  name : YesNo; token : string; prices : BookPrices
}.

(** What [findActiveMarket] throws: one of its two errors, or what a
    collaborator threw. *)
Inductive FindError :=
  | NoActiveMarkets (checked : nat)
  | NoBalancedMarket
  | Rejected (e : string).

#[global] Instance YesNo_eq_dec : EqDecision YesNo.
Proof. solve_decision. Defined.
#[global] Instance ActiveMarket_eq_dec : EqDecision ActiveMarket.
Proof. solve_decision. Defined.
#[global] Instance FindError_eq_dec : EqDecision FindError.
Proof. solve_decision. Defined.

Section FindActiveMarket.
(** The collaborators: the market service, the order book of the CLOB, the
    date parser ([None] is an invalid date) and the clock. *)
Variable scanCryptoShortTermMarkets : Coin → Outcome string (list Market).
Variable getClobMarket : string → Outcome string (option ClobMarket).
Variable getBookPrices : string → Outcome string BookPrices.
Variable getTime : string → option Z.
Variable now : Z.

(** Lines 182-196: each scan is inside its own [try ... catch]. *)
Definition allMarkets : list Market :=
  foldl (λ allMarkets coin,
           try_catch
             (match scanCryptoShortTermMarkets coin with
              | Returns markets => Returns (allMarkets ++ markets)
              | Throws e => Throws e
              end)
             (λ _ : string, allMarkets))
        [] [BTC; ETH; SOL].

(** Lines 200-204: the filter of [activeMarkets].  The number 0 and the
    empty string are falsy in [!m.endDate]; an invalid date has the time
    [NaN], and [NaN > now] is false. *)
Definition active (m : Market) : bool :=
  match endDate m with
  | NoEndDate => true
  | EndNumber ms => (ms =? 0)%Z || (now <? ms)%Z
  | EndString s =>
      bool_decide (s = "")
      || match getTime s with
         | Some endTime => (now <? endTime)%Z
         | None => false
         end
  end.

(** Line 233: a side within budget and with liquidity. *)
Definition eligible (s : SideBook) : bool :=
  Qc_ltb 0 (bestAsk (prices s))
  && Qc_leb (bestAsk (prices s)) (qc 4 5)
  && Qc_leb MIN_CLOB_ORDER_SIZE (askSize (prices s)).

(** Line 234: [(a, b) => a.prices.bestAsk - b.prices.bestAsk]. *)
Definition cheapest (a b : SideBook) : Z :=
  sgn (bestAsk (prices a) - bestAsk (prices b))%Qc.

(** Lines 230-234: [sides]. *)
Definition sides (primary secondary : Token) (yesPrices noPrices : BookPrices)
    : list SideBook :=
  Poller.sort cheapest
    (List.filter eligible
       [mkSideBook YES (tokenId primary) yesPrices;
        mkSideBook NO (tokenId secondary) noPrices]).

(** Lines 220-221: [tokens.find(...) || tokens[0]], and [|| tokens[1]]. *)
Definition primaryOf (tokens : list Token) : option Token :=
  match List.find (λ t, String.eqb (outcome t) "Yes") tokens with
  | Some t => Some t
  | None => tokens !! 0
  end.

Definition secondaryOf (tokens : list Token) : option Token :=
  match List.find (λ t, String.eqb (outcome t) "No") tokens with
  | Some t => Some t
  | None => tokens !! 1
  end.

(** Lines 216-252: the loop over [activeMarkets] and the error after it.
    The two lookups are not inside a [try]: what they throw ends the
    search. *)
Fixpoint search (candidates : list Market) : Outcome FindError ActiveMarket :=
  match candidates with
  | [] => Throws NoBalancedMarket
  | candidate :: rest =>
      match getClobMarket (conditionId candidate) with
      | Throws e => Throws (Rejected e)
      | Returns marketInfo =>
          match marketInfo ≫= tokens with
          | None => search rest
          | Some tokens =>
              if length tokens <? 2 then search rest
              else
                match primaryOf tokens, secondaryOf tokens with
                | Some primary, Some secondary =>
                    match Poller.promise_all
                            [getBookPrices (tokenId primary);
                             getBookPrices (tokenId secondary)] with
                    | Throws e => Throws (Rejected e)
                    | Returns [yesPrices; noPrices] =>
                        match sides primary secondary yesPrices noPrices with
                        | best :: _ =>
                            Returns (mkActiveMarket
                                       (conditionId candidate)
                                       (tokenId primary) (tokenId secondary)
                                       (if bool_decide (question candidate = "")
                                        then "Unknown" else question candidate)
                                       (token best) (name best))
                        | [] => search rest
                        end
                    | Returns _ => search rest
                    end
                | _, _ => search rest
                end
          end
      end
  end.

(** Lines 170-253: [findActiveMarket]. *)
Definition findActiveMarket : Outcome FindError ActiveMarket :=
  let activeMarkets := List.filter active allMarkets in
  if bool_decide (activeMarkets = []) then
    Throws (NoActiveMarkets (length allMarkets))
  else search activeMarkets.

End FindActiveMarket.

(** An order book within budget and with liquidity (line 233). *)
Definition within (p : BookPrices) : Prop :=
  (0 < bestAsk p)%Qc ∧ (bestAsk p ≤ qc 4 5)%Qc
  ∧ (MIN_CLOB_ORDER_SIZE ≤ askSize p)%Qc.

(** A candidate the search passes over: its market has fewer than two
    tokens, or neither of its two order books is within budget. *)
Definition passed (getClobMarket : string → Outcome string (option ClobMarket))
    (getBookPrices : string → Outcome string BookPrices)
    (candidate : Market) : Prop :=
  ∃ marketInfo, getClobMarket (conditionId candidate) = Returns marketInfo
    ∧ match marketInfo ≫= tokens with
      | None => True
      | Some toks =>
          (length toks < 2)%nat
          ∨ ∃ primary secondary yesPrices noPrices,
              primaryOf toks = Some primary
              ∧ secondaryOf toks = Some secondary
              ∧ getBookPrices (tokenId primary) = Returns yesPrices
              ∧ getBookPrices (tokenId secondary) = Returns noPrices
              ∧ ¬ within yesPrices ∧ ¬ within noPrices
      end.

(** Scenario: the BTC scan returns an expired market and an open one, the
    ETH scan fails; in the open market YES is too dear and NO is within
    budget. *)
Definition scenario_scan (coin : Coin) : Outcome string (list Market) :=
  match coin with
  | BTC => Returns [mkMarket "0xc1" "BTC up at 10:00?" (EndNumber 1000);
                    mkMarket "0xc2" "" (EndString "2026-03-01T10:15:00Z")]
  | ETH => Throws "timeout"
  | SOL => Returns []
  end.

Definition scenario_clob (conditionId : string)
    : Outcome string (option ClobMarket) :=
  if bool_decide (conditionId = "0xc2")
  then Returns (Some (mkClobMarket (Some [mkToken "t-no" "No";
                                          mkToken "t-yes" "Yes"])))
  else Returns None.

Definition scenario_book (tokenId : string) : Outcome string BookPrices :=
  if bool_decide (tokenId = "t-yes")
  then Returns (mkBookPrices (qc 9 10) (qc 19 20) (qc 40 1) (qc 40 1))
  else Returns (mkBookPrices (qc 1 20) (qc 1 10) (qc 50 1) (qc 50 1)).

Definition scenario_getTime (s : string) : option Z :=
  if bool_decide (s = "2026-03-01T10:15:00Z") then Some 5000%Z else None.

End FindMarket.

(* ===================================================================== *)
(** * docs/copy-trading-implementation.md: further snippets             *)
(* ===================================================================== *)

Module CopyTradingNotes.
Import Poller.

(** What a loop over activities did: the set afterwards, the activities
    handed to [executeCopyTrade] (in order), and the error that ended the
    loop, if one did. *)
Record Deduped := mkDeduped {
  seenAfter : list string; executed : list Activity; thrown : option string
}.

(** docs/copy-trading-implementation.md, lines 245-254 ("去重"): the loop
    that skips the transaction hashes it has seen.  The set is never
    pruned; [await executeCopyTrade(activity)] is not inside a [try]. *)
Fixpoint dedupLoop (executeCopyTrade : Activity → Outcome string ())
    (seenTxHashes : list string) (activities : list Activity) : Deduped :=
  match activities with
  | [] => mkDeduped seenTxHashes [] None
  | activity :: rest =>
      if Dedup.has seenTxHashes (transactionHash activity)
      then dedupLoop executeCopyTrade seenTxHashes rest
      else
        let seenTxHashes := Dedup.add seenTxHashes (transactionHash activity) in
        match executeCopyTrade activity with
        | Returns _ =>
            let r := dedupLoop executeCopyTrade seenTxHashes rest in
            mkDeduped (seenAfter r) (activity :: executed r) (thrown r)
        | Throws e => mkDeduped seenTxHashes [activity] (Some e)
        end
  end.

(** What the batched loop did: the batches queried (in order), the pauses
    made (in milliseconds), and the error that ended it, if one did. *)
Record Batched := mkBatched {
  batches : list (list string); pauses : list Z; failure : option string
}.

Definition batchSize : nat := 30.

(** docs/copy-trading-implementation.md, lines 188-198 ("限流控制"): the
    wallets are queried in batches of [batchSize], with a pause of one second
    after each batch; [query batch] is the outcome of the [Promise.all] of
    the batch. *)
Fixpoint batchLoop (fuel : nat) (query : list string → Outcome string ())
    (i : nat) (wallets : list string) : option Batched :=
  if i <? length wallets then
    match fuel with
    | O => None
    | S n =>
        let batch := take batchSize (drop i wallets) in
        match query batch with
        | Returns _ =>
            r ← batchLoop n query (i + batchSize) wallets;
            Some (mkBatched (batch :: batches r) (1000%Z :: pauses r)
                            (failure r))
        | Throws e => Some (mkBatched [batch] [] (Some e))
        end
    end
  else Some (mkBatched [] [] None).

(** Scenario: an executor that rejects the activity of wallet W1. *)
Definition rejects_act1 (activity : Activity) : Outcome string () :=
  if bool_decide (activity = act1) then Throws "order rejected" else Returns ().

End CopyTradingNotes.

(* ===================================================================== *)
(** * scripts/e2e-builder-test.ts: the duration of [waitForFill]        *)
(* ===================================================================== *)

Module FillTiming.
Import E2E.

(** Every answer takes at most [L] milliseconds and every timer is at most
    [G] milliseconds late. *)
Definition bounded (env : nat → Reply) (L G : Z) : Prop :=
  ∀ i, (0 ≤ latency (env i) ≤ L ∧ 0 ≤ lag (env i) ≤ G)%Z.

End FillTiming.

(* ===================================================================== *)
(** * Configuration from the environment                                  *)
(* ===================================================================== *)

(** scripts/smart-money/crypto-copy-trade.ts (lines 59-71) reads the target
    wallets from [COPY_ADDRESSES]; scripts/e2e-builder-test.ts (lines 33-44)
    loads the [.env] file of the project into [process.env]. *)

Module Config.

(** A JavaScript string is a sequence of UTF-16 code units. *)
Abbreviation JSString := (list N).

(** The code units of a text of the Latin-1 range. *)
Definition units (s : string) : JSString :=
  N_of_ascii <$> list_ascii_of_string s.

(** The white space and line terminators [String.prototype.trim] removes:
    TAB, LF, VT, FF, CR, SP, NBSP, U+1680, U+2000 to U+200A, U+2028, U+2029,
    U+202F, U+205F, U+3000 and U+FEFF. *)
Definition isWhiteSpace (c : N) : bool :=
  bool_decide (c ∈ [9; 10; 11; 12; 13; 32; 160; 5760; 8232; 8233; 8239; 8287;
                    12288; 65279]%N)
  || ((8192 <=? c)%N && (c <=? 8202)%N).

(** [s.split(sep)] for a separator of one code unit: the pieces between the
    separators, so one more than there are separators. *)
Fixpoint split (sep : N) (s : JSString) : list JSString :=
  match s with
  | [] => [[]]
  | c :: s' =>
      if (c =? sep)%N then [] :: split sep s'
      else match split sep s' with
           | p :: ps => (c :: p) :: ps
           | [] => [[c]]
           end
  end.

(** [parts.join(sep)]. *)
Fixpoint join (sep : N) (parts : list JSString) : JSString :=
  match parts with
  | [] => []
  | p :: ps => match ps with
               | [] => p
               | _ :: _ => p ++ sep :: join sep ps
               end
  end.

Fixpoint trimStart (s : JSString) : JSString :=
  match s with
  | [] => []
  | c :: s' => if isWhiteSpace c then trimStart s' else s
  end.

Definition trimEnd (s : JSString) : JSString :=
  reverse (trimStart (reverse s)).

(** [s.trim()]. *)
Definition trim (s : JSString) : JSString := trimEnd (trimStart s).

(** A string is truthy when it is not empty. *)
Definition truthy (s : JSString) : bool := negb (length s =? 0).

(** [[...new Set(l)]]: the elements of [l] in the order of their first
    occurrence. *)
Definition setOf (l : list JSString) : list JSString :=
  foldl (λ seen a, if bool_decide (a ∈ seen) then seen else seen ++ [a]) [] l.

Definition comma : N := 44%N.

(** crypto-copy-trade.ts, line 34: the list is empty in the repository. *)
Definition TARGET_ADDRESSES : list JSString := [].

(** Lines 59-62:
    [(process.env.COPY_ADDRESSES || '').split(',').map(a => a.trim())
       .filter(a => a.length > 0)]. *)
Definition envAddresses (COPY_ADDRESSES : option JSString) : list JSString :=
  List.filter (λ a, 0 <? length a)
    (trim <$> split comma (default [] COPY_ADDRESSES)).

(** Line 64. *)
Definition allAddresses (COPY_ADDRESSES : option JSString) : list JSString :=
  setOf (TARGET_ADDRESSES ++ envAddresses COPY_ADDRESSES).

(** Lines 66-71: the script exits with code 1 when there is no address. *)
Definition exitsUnconfigured (COPY_ADDRESSES : option JSString) : bool :=
  length (allAddresses COPY_ADDRESSES) =? 0.

(** A string [trim] leaves alone: it neither starts nor ends with white
    space. *)
Definition trimmed (s : JSString) : Prop :=
  from_option isWhiteSpace false (head s) = false
  ∧ from_option isWhiteSpace false (last s) = false.

(** ** e2e-builder-test.ts: the [.env] file *)

Definition newline : N := 10%N.
Definition equals : N := 61%N.
Definition hash : N := 35%N.

(** [key.startsWith('#')]. *)
Definition startsWith (c : N) (s : JSString) : bool :=
  match s with
  | c' :: _ => (c' =? c)%N
  | [] => false
  end.

Definition isQuote (c : N) : bool := (c =? 34)%N || (c =? 39)%N.

(** [value.replace(/^["']|["']$/g, '')]: a quote at the start is removed,
    and then a quote at the end of what is left. *)
Definition stripQuotes (v : JSString) : JSString :=
  let v1 := match v with
            | c :: v' => if isQuote c then v' else v
            | [] => []
            end in
  match reverse v1 with
  | c :: r => if isQuote c then reverse r else v1
  | [] => v1
  end.

(** [process.env]: the variables of the environment, a map from names to
    values. *)
Abbreviation Env := (gmap JSString JSString).

(** [process.env] is an object: for a name that is not a variable,
    [process.env[name]] is what [Object.prototype] has under that name, which
    is a function or an object, and so truthy, for these names. *)
Definition inherited : list JSString :=
  units <$> ["constructor"; "__defineGetter__"; "__defineSetter__";
             "hasOwnProperty"; "__lookupGetter__"; "__lookupSetter__";
             "isPrototypeOf"; "propertyIsEnumerable"; "toString"; "valueOf";
             "__proto__"; "toLocaleString"].

(** Whether [process.env[name]] is truthy: a variable that is not empty, or,
    when there is no such variable, an inherited property. *)
Definition envTruthy (env : Env) (name : JSString) : bool :=
  match env !! name with
  | Some value => truthy value
  | None => bool_decide (name ∈ inherited)
  end.

(** [process.env[name] = value]; Node sets no variable with an empty
    name. *)
Definition setEnv (name value : JSString) (env : Env) : Env :=
  if bool_decide (name = []) then env else <[name := value]> env.

(** Lines 36-42, the body of the loop for one line. *)
Definition envLine (env : Env) (line : JSString) : Env :=
  match split equals line with
  | [] => env
  | key :: valueParts =>
      if truthy key && negb (startsWith hash key) then
        let value := trim (join equals valueParts) in
        if truthy value && negb (envTruthy env (trim key)) then
          setEnv (trim key) (stripQuotes value) env
        else env
      else env
  end.

(** Lines 33-44; [envContent] is [None] when the file does not exist. *)
Definition loadEnv (envContent : option JSString) (env : Env) : Env :=
  match envContent with
  | Some content => foldl envLine env (split newline content)
  | None => env
  end.

(** The line that defines [k] as [v], and the file of a list of
    definitions. *)
Definition lineOf (kv : JSString * JSString) : JSString :=
  kv.1 ++ equals :: kv.2.

Definition fileOf (bindings : list (JSString * JSString)) : JSString :=
  join newline (lineOf <$> bindings).

(** A name and a value a line can carry as they are. *)
Definition plainKey (k : JSString) : Prop :=
  k ≠ [] ∧ trimmed k ∧ (equals ∉ k) ∧ (newline ∉ k)
  ∧ startsWith hash k = false ∧ (k ∉ inherited).

Definition plainValue (v : JSString) : Prop :=
  v ≠ [] ∧ trimmed v ∧ (newline ∉ v)
  ∧ from_option isQuote false (head v) = false
  ∧ from_option isQuote false (last v) = false.

(** Scenarios. *)
Definition scenario_addresses : JSString := units " 0xabc , 0xdef,,0xabc ".

Definition scenario_env : Env := {[ units "PRIVATE_KEY" := units "0x01" ]}.

Definition scenario_file : JSString :=
  join newline [units "# keys"; units "PRIVATE_KEY=0x02";
                units "POLY_BUILDER_API_KEY = 'a=b' "; units ""].

End Config.

(* ===================================================================== *)
(** * Theorems                                                            *)
(* ===================================================================== *)

(** ** Exact arithmetic *)

Section QcFacts.
#[local] Open Scope Qc_scope.

Lemma Qc_ltb_true (a b : Qc) : Qc_ltb a b = true ↔ a < b.
Proof. unfold Qc_ltb. apply bool_decide_eq_true. Qed.

Lemma Qc_leb_true (a b : Qc) : Qc_leb a b = true ↔ a ≤ b.
Proof. unfold Qc_leb. apply bool_decide_eq_true. Qed.

Lemma Qc_min_l (a b : Qc) : a ≤ b → Qc_min a b = a.
Proof. intros Hab. unfold Qc_min, Qc_leb. by rewrite bool_decide_eq_true_2. Qed.

Lemma Qc_min_r (a b : Qc) : ¬ a ≤ b → Qc_min a b = b.
Proof. intros Hab. unfold Qc_min, Qc_leb. by rewrite bool_decide_eq_false_2. Qed.

Lemma Qc_min_le_l (a b : Qc) : Qc_min a b ≤ a.
Proof.
  destruct (decide (a ≤ b)) as [Hab|Hab].
  - rewrite Qc_min_l by done. apply Qcle_refl.
  - rewrite Qc_min_r by done. apply Qclt_le_weak. by apply Qcnot_le_lt.
Qed.

Lemma Qc_min_le_r (a b : Qc) : Qc_min a b ≤ b.
Proof.
  destruct (decide (a ≤ b)) as [Hab|Hab].
  - by rewrite Qc_min_l.
  - rewrite Qc_min_r by done. apply Qcle_refl.
Qed.

Lemma Qc_sub_diag (a : Qc) : a - a = 0.
Proof. ring. Qed.

(** When the lot is not used up, everything that was to be sold was taken. *)
Lemma Qc_min_not_depleted (a b : Qc) : ¬ a - Qc_min a b ≤ 0 → Qc_min a b = b.
Proof.
  intros Hn. destruct (decide (a ≤ b)) as [Hab|Hab].
  - rewrite Qc_min_l in Hn by done. rewrite Qc_sub_diag in Hn.
    destruct Hn. apply Qcle_refl.
  - by apply Qc_min_r.
Qed.

(** A lot that is used up had exactly [take] shares. *)
Lemma Qc_min_depleted (a b : Qc) : a - Qc_min a b ≤ 0 → Qc_min a b = a.
Proof.
  intros Hd. apply Qcle_antisym; [apply Qc_min_le_l|].
  apply (Qcplus_le_mono_r _ _ (- Qc_min a b)).
  replace (Qc_min a b + - Qc_min a b) with 0 by ring. exact Hd.
Qed.

Lemma Qc_le_add_r (a b : Qc) : 0 ≤ b → a ≤ a + b.
Proof.
  intros Hb. apply (Qcplus_le_mono_l 0 b a) in Hb.
  by rewrite Qcplus_0_r in Hb.
Qed.

Lemma Qc_sub_le_l (a b : Qc) : 0 ≤ b → a - b ≤ a.
Proof.
  intros Hb. apply (Qcplus_le_mono_l 0 b (a - b)) in Hb.
  rewrite Qcplus_0_r in Hb. by replace (a - b + b) with a in Hb by ring.
Qed.

Lemma sumQc_nil : sumQc [] = 0.
Proof. reflexivity. Qed.

Lemma sumQc_cons (x : Qc) (l : list Qc) : sumQc (x :: l) = x + sumQc l.
Proof. reflexivity. Qed.

Lemma sumQc_app (l k : list Qc) : sumQc (l ++ k) = sumQc l + sumQc k.
Proof.
  induction l as [|x l IH]; simpl.
  - by rewrite Qcplus_0_l.
  - rewrite IH. ring.
Qed.

End QcFacts.

Lemma while_done {S : Type} (fuel : nat) (cond : S → bool) (body : S → S) (s : S) :
  cond s = false → while fuel cond body s = Some s.
Proof. intros Hc. destruct fuel; simpl; by rewrite Hc. Qed.

Lemma while_step {S : Type} (fuel : nat) (cond : S → bool) (body : S → S) (s : S) :
  cond s = true → while (Datatypes.S fuel) cond body s = while fuel cond body (body s).
Proof. intros Hc. simpl. by rewrite Hc. Qed.

(** More fuel never changes the result of a loop that ended. *)
Lemma while_more_fuel {S : Type} (cond : S → bool) (body : S → S) (n m : nat) (s r : S) :
  n ≤ m → while n cond body s = Some r → while m cond body s = Some r.
Proof.
  revert m s. induction n as [|n IH]; intros m s Hle Hw.
  - simpl in Hw. destruct (cond s) eqn:Hc; [done|].
    by rewrite while_done.
  - destruct m as [|m]; [lia|]. simpl in *.
    destruct (cond s); [|done]. apply IH; [lia|done].
Qed.

(** The guard is false in the state a loop ends in. *)
Lemma while_exit {S : Type} (cond : S → bool) (body : S → S) (n : nat) (s r : S) :
  while n cond body s = Some r → cond r = false.
Proof.
  revert s. induction n as [|n IH]; intros s Hw; simpl in Hw.
  - destruct (cond s) eqn:Hc; [done|]. by inversion Hw; subst.
  - destruct (cond s) eqn:Hc; [by eapply IH|]. by inversion Hw; subst.
Qed.

(** ** Binary64: comparisons, and a number minus itself *)

Section Binary64Facts.
#[local] Open Scope float_scope.

Lemma SFcompare_antisym (x y : spec_float) :
  SFcompare y x = CompOpp <$> SFcompare x y.
Proof.
  destruct x as [sx|sx| |sx mx ex], y as [sy|sy| |sy my ey];
    repeat match goal with s : bool |- _ => destruct s end; try done;
    cbn [SFcompare fmap option_fmap option_map]; f_equal;
    rewrite (Z.compare_antisym ey ex);
    destruct (ey ?= ex)%Z; cbn [CompOpp]; try done;
    change (Pos.compare_cont Eq ?a ?b) with (Pos.compare a b);
    rewrite (Pos.compare_antisym my mx); by destruct (my ?= mx)%positive.
Qed.

Lemma SFcompare_lt_le_trans (x y z : spec_float) :
  SFcompare x y = Some Lt →
  SFcompare y z = Some Lt ∨ SFcompare y z = Some Eq →
  SFcompare x z = Some Lt.
Proof.
  destruct x as [sx|sx| |sx mx ex], y as [sy|sy| |sy my ey],
           z as [sz|sz| |sz mz ez];
    repeat match goal with s : bool |- _ => destruct s end;
    cbn [SFcompare]; try (intros ? [?|?]; congruence);
    change (Pos.compare_cont Eq ?a ?b) with (Pos.compare a b);
    destruct (Z.compare_spec ex ey), (Z.compare_spec ey ez),
             (Z.compare_spec ex ez);
    destruct (Pos.compare_spec mx my), (Pos.compare_spec my mz),
             (Pos.compare_spec mx mz);
    cbn [CompOpp]; try (intros ? [?|?]; congruence); lia.
Qed.

Lemma is_nan_SF (x : float) : is_nan x = false → Prim2SF x ≠ S754_nan.
Proof.
  unfold is_nan. rewrite FloatAxioms.eqb_spec. intros Hx Hnan. by rewrite Hnan in Hx.
Qed.

Lemma SFcompare_numbers (x y : spec_float) :
  x ≠ S754_nan → y ≠ S754_nan → is_Some (SFcompare x y).
Proof. destruct x, y; done. Qed.

(** On numbers, "not less" is "greater or equal". *)
Lemma float_not_lt (a b : float) :
  is_nan a = false → is_nan b = false → (a <? b) = false → (b <=? a) = true.
Proof.
  intros Ha%is_nan_SF Hb%is_nan_SF.
  rewrite FloatAxioms.ltb_spec, FloatAxioms.leb_spec.
  unfold SFltb, SFleb. rewrite (SFcompare_antisym (Prim2SF a) (Prim2SF b)).
  destruct (SFcompare_numbers _ _ Ha Hb) as [c ->]. by destruct c.
Qed.

Lemma float_lt_le_trans (a b c : float) :
  (a <? b) = true → (b <=? c) = true → (a <? c) = true.
Proof.
  rewrite !FloatAxioms.ltb_spec, FloatAxioms.leb_spec. unfold SFltb, SFleb. intros Hab Hbc.
  rewrite (SFcompare_lt_le_trans (Prim2SF a) (Prim2SF b) (Prim2SF c)); [done| |].
  - by destruct (SFcompare (Prim2SF a) (Prim2SF b)) as [[]|].
  - destruct (SFcompare (Prim2SF b) (Prim2SF c)) as [[]|]; auto; done.
Qed.

Lemma float_le_not_nan (a b : float) : (a <=? b) = true → is_nan b = false.
Proof.
  rewrite FloatAxioms.leb_spec. unfold is_nan. rewrite FloatAxioms.eqb_spec. unfold SFleb, SFeqb.
  destruct (Prim2SF a) as [sa|sa| |sa ma ea], (Prim2SF b) as [sb|sb| |sb mb eb];
    try done; cbn [SFcompare negb]; intros _;
    repeat match goal with s : bool |- _ => destruct s end; try done;
    rewrite Z.compare_refl; change (Pos.compare_cont Eq ?a ?b) with (Pos.compare a b);
    by rewrite Pos.compare_refl.
Qed.

Lemma is_finite_SF (x : float) :
  is_finite x = true →
  (∃ s, Prim2SF x = S754_zero s) ∨ (∃ s m e, Prim2SF x = S754_finite s m e).
Proof.
  unfold is_finite, is_nan, is_infinity.
  rewrite !FloatAxioms.eqb_spec, abs_spec.
  change (Prim2SF infinity) with (S754_infinity false).
  destruct (Prim2SF x) as [s|s| |s m e]; [eauto| | |eauto].
  - cbn. by rewrite orb_true_r.
  - done.
Qed.

Lemma float_sub_diag (x : float) :
  is_finite x = true → Prim2SF (x - x) = S754_zero false.
Proof.
  intros [[s Hx]|(s & m & e & Hx)]%is_finite_SF; rewrite sub_spec, Hx.
  - by destruct s.
  - unfold SF64sub, SFsub. rewrite Z.min_id. unfold shl_align.
    by rewrite !Z.sub_diag.
Qed.

Lemma float_sub_diag_le (x : float) :
  is_finite x = true → (x - x <=? 0) = true.
Proof.
  intros Hx. rewrite FloatAxioms.leb_spec, (float_sub_diag x Hx). done.
Qed.

Lemma float_sub_diag_gt (x : float) : (0 <? x - x) = false.
Proof.
  rewrite FloatAxioms.ltb_spec, sub_spec.
  change (Prim2SF 0) with (S754_zero false).
  destruct (Prim2SF x) as [s|s| |s m e].
  - by destruct s.
  - by destruct s.
  - done.
  - unfold SF64sub, SFsub. rewrite Z.min_id. unfold shl_align.
    by rewrite !Z.sub_diag.
Qed.

Lemma float_lt_not_nan (a b : float) : (a <? b) = true → is_nan b = false.
Proof.
  rewrite FloatAxioms.ltb_spec. unfold is_nan.
  rewrite FloatAxioms.eqb_spec. unfold SFltb, SFeqb.
  destruct (Prim2SF a) as [sa|sa| |sa ma ea], (Prim2SF b) as [sb|sb| |sb mb eb];
    try done; cbn [SFcompare negb]; intros _;
    repeat match goal with s : bool |- _ => destruct s end; try done;
    rewrite Z.compare_refl;
    change (Pos.compare_cont Eq ?a ?b) with (Pos.compare a b);
    by rewrite Pos.compare_refl.
Qed.

Lemma is_finite_not_nan (x : float) : is_finite x = true → is_nan x = false.
Proof.
  unfold is_finite. intros Hx%negb_true_iff. by apply orb_false_iff in Hx as [? _].
Qed.

Lemma float_min_cases (a b : float) :
  is_finite a = true → (0 <? b) = true →
  float_min a b = a ∨ float_min a b = b.
Proof.
  intros Ha%is_finite_not_nan Hb%float_lt_not_nan. unfold float_min.
  rewrite Ha, Hb. cbn [orb].
  destruct (a <? b); [auto|]. destruct (b <? a); [auto|].
  destruct (get_sign a); auto.
Qed.

End Binary64Facts.

(** ** wallet-deepdive.ts: the loops against the FIFO rule *)

Section FifoFacts.
Import WalletDeepDive.
#[local] Open Scope Qc_scope.

Lemma sell2_body_Qc (p : Qc) (lot : Lot Qc) (rest : list (SimpleLot Qc)) (q r : Qc) :
  sell2_body p (mkSell2 (simple lot :: rest) q r) =
  let t := Qc_min (size lot) q in
  mkSell2 (if bool_decide (size lot - t ≤ 0) then rest
           else simple (reduce lot t) :: rest)
          (q - t) (r + t * p).
Proof. reflexivity. Qed.

Lemma sell1_body_Qc (p : Qc) (lot : Lot Qc) (rest : list (Lot Qc)) (q c r : Qc) :
  sell1_body p (mkSell1 (lot :: rest) q c r) =
  let t := Qc_min (size lot) q in
  mkSell1 (if bool_decide (size lot - t ≤ 0) then rest
           else reduce lot t :: rest)
          (q - t)
          (if fromSub1Buy lot then c + costPortion (lot, t) else c)
          (if fromSub1Buy lot then r + t * p else r).
Proof. reflexivity. Qed.

Lemma sell2_cond_Qc (lots : list (SimpleLot Qc)) (q r : Qc) :
  sell2_cond (mkSell2 lots q r) =
  bool_decide (0 < q) && negb (bool_decide (lots = [])).
Proof. reflexivity. Qed.

Lemma sell1_cond_Qc (lots : list (Lot Qc)) (q c r : Qc) :
  sell1_cond (mkSell1 lots q c r) =
  bool_decide (0 < q) && negb (bool_decide (lots = [])).
Proof. reflexivity. Qed.

(** After a lot that was not used up nothing is left to sell. *)
Lemma nothing_left (a q : Qc) :
  bool_decide (a - Qc_min a q ≤ 0) = false →
  bool_decide (0 < q - Qc_min a q) = false.
Proof.
  intros Hd. apply bool_decide_eq_false in Hd.
  rewrite (Qc_min_not_depleted _ _ Hd), Qc_sub_diag.
  apply bool_decide_eq_false. intros Hlt. by apply Qclt_not_eq in Hlt.
Qed.

#[local] Ltac fifo_simp :=
  unfold spec_proceeds, spec_costRemoved, flagged;
  cbn [fst snd];
  rewrite ?filter_cons, ?filter_nil; cbn [fst snd];
  rewrite ?decide_True by congruence; rewrite ?decide_False by congruence;
  rewrite ?fmap_cons, ?fmap_nil, ?sumQc_cons, ?sumQc_nil;
  unfold take; cbn [fst snd].

(** The second loop's [while] ends within [lots.length] iterations, in the
    state the FIFO rule describes. *)
Lemma sell2_refines (p : Qc) (lots : list (Lot Qc)) : ∀ q r : Qc,
  while (length lots) sell2_cond (sell2_body p) (mkSell2 (simple <$> lots) q r) =
  Some (mkSell2 (simple <$> (spec_consume q lots).2)
                (q - sumQc (take <$> (spec_consume q lots).1))
                (r + spec_proceeds p (spec_consume q lots).1)).
Proof.
  induction lots as [|lot rest IH]; intros q r.
  - rewrite while_done by (rewrite sell2_cond_Qc; apply andb_false_r).
    cbn [spec_consume]. fifo_simp. do 2 f_equal; ring.
  - cbn [length spec_consume]. rewrite fmap_cons.
    destruct (bool_decide (0 < q)) eqn:HS.
    + rewrite while_step by (rewrite sell2_cond_Qc, HS; reflexivity).
      rewrite sell2_body_Qc. cbv zeta.
      destruct (bool_decide (size lot - Qc_min (size lot) q ≤ 0)) eqn:Hd.
      * rewrite IH. fifo_simp. do 2 f_equal; ring.
      * rewrite while_done
          by (rewrite sell2_cond_Qc, (nothing_left _ _ Hd); reflexivity).
        fifo_simp. do 2 f_equal; ring.
    + rewrite while_done by (rewrite sell2_cond_Qc, HS; reflexivity).
      fifo_simp. do 2 f_equal; ring.
Qed.

(** The first loop's [while]: the same queue, and the accumulators grow by
    the slices taken from flagged lots. *)
Lemma sell1_refines (p : Qc) (lots : list (Lot Qc)) : ∀ q c r : Qc,
  while (length lots) sell1_cond (sell1_body p) (mkSell1 lots q c r) =
  Some (mkSell1 (spec_consume q lots).2
                (q - sumQc (take <$> (spec_consume q lots).1))
                (c + spec_costRemoved (flagged (spec_consume q lots).1))
                (r + spec_proceeds p (flagged (spec_consume q lots).1))).
Proof.
  induction lots as [|lot rest IH]; intros q c r.
  - rewrite while_done by (rewrite sell1_cond_Qc; apply andb_false_r).
    cbn [spec_consume]. fifo_simp. do 2 f_equal; ring.
  - cbn [length spec_consume].
    destruct (bool_decide (0 < q)) eqn:HS.
    + rewrite while_step by (rewrite sell1_cond_Qc, HS; reflexivity).
      rewrite sell1_body_Qc. cbv zeta.
      destruct (bool_decide (size lot - Qc_min (size lot) q ≤ 0)) eqn:Hd.
      * rewrite IH. destruct (fromSub1Buy lot) eqn:Hf;
          fifo_simp; do 2 f_equal; ring.
      * rewrite while_done
          by (rewrite sell1_cond_Qc, (nothing_left _ _ Hd); reflexivity).
        destruct (fromSub1Buy lot) eqn:Hf; fifo_simp; do 2 f_equal; ring.
    + rewrite while_done by (rewrite sell1_cond_Qc, HS; reflexivity).
      fifo_simp. do 2 f_equal; ring.
Qed.

Lemma simple_unflagged (lots : list (SimpleLot Qc)) :
  simple <$> (unflagged <$> lots) = lots.
Proof.
  induction lots as [|[sz c] lots IH]; [done|].
  rewrite !fmap_cons, IH. done.
Qed.

(** A SELL in the body of the second [for] loop: only the queue of the
    trade's asset changes, as the FIFO rule says, and the loop has the fuel
    it needs. *)
Lemma total_trade_sell (st : Total Qc) (t : Trade Qc) :
  side t = SELL → asset_key t ≠ "" →
  let lots := unflagged <$> default [] (lotsAllByAsset st !! asset_key t) in
  total_trade st t =
  Some (mkTotal
          (<[asset_key t := simple <$> (spec_consume (tsize t) lots).2]>
             (lotsAllByAsset st))
          (totalCostAll st)
          (realizedProceedsAll st
           + spec_proceeds (price t) (spec_consume (tsize t) lots).1)).
Proof.
  intros Hside Hkey lots. unfold total_trade. cbv zeta.
  rewrite bool_decide_eq_false_2 by done. rewrite Hside.
  pose proof (sell2_refines (price t) lots (tsize t) (realizedProceedsAll st))
    as Hrun.
  subst lots. rewrite simple_unflagged, length_fmap in Hrun.
  by rewrite Hrun.
Qed.

(** A SELL in the body of the first [for] loop. *)
Lemma sub1_trade_sell (st : Sub1 Qc) (t : Trade Qc) :
  side t = SELL → asset_key t ≠ "" →
  let lots := default [] (lotsByAsset st !! asset_key t) in
  let slices := flagged (spec_consume (tsize t) lots).1 in
  sub1_trade st t =
  Some (mkSub1
          (<[asset_key t := (spec_consume (tsize t) lots).2]> (lotsByAsset st))
          (totalSub1Cost st)
          (realizedSub1Cost st + spec_costRemoved slices)
          (realizedSub1Proceeds st + spec_proceeds (price t) slices)).
Proof.
  intros Hside Hkey lots slices. unfold sub1_trade. cbv zeta.
  rewrite bool_decide_eq_false_2 by done. rewrite Hside.
  fold lots. by rewrite sell1_refines.
Qed.

(** A lot that is used up had exactly [take] shares, so the sizes add up. *)
Lemma spec_consume_size (lots : list (Lot Qc)) : ∀ q : Qc,
  total_size lots - total_size (spec_consume q lots).2 =
  sumQc (take <$> (spec_consume q lots).1).
Proof.
  unfold total_size.
  induction lots as [|lot rest IH]; intros q; cbn [spec_consume].
  - fifo_simp. ring.
  - destruct (bool_decide (0 < q)) eqn:HS; [|fifo_simp; ring].
    destruct (bool_decide (size lot - Qc_min (size lot) q ≤ 0)) eqn:Hd.
    + apply bool_decide_eq_true in Hd. apply Qc_min_depleted in Hd.
      fifo_simp. rewrite <- IH. rewrite Hd. ring.
    + fifo_simp. unfold reduce; cbn [size]. ring.
Qed.

(** The cost that leaves the queue is the sum of the cost portions, as long
    as no lot in the queue is empty. *)
Lemma spec_consume_cost (lots : list (Lot Qc)) : ∀ q : Qc,
  Forall (λ l, size l ≠ 0) lots →
  total_cost lots - total_cost (spec_consume q lots).2 =
  spec_costRemoved (spec_consume q lots).1.
Proof.
  unfold total_cost.
  induction lots as [|lot rest IH]; intros q Hpos; cbn [spec_consume].
  - fifo_simp. ring.
  - destruct (bool_decide (0 < q)) eqn:HS; [|fifo_simp; ring].
    inversion Hpos as [|? ? Hlot Hrest]; subst.
    destruct (bool_decide (size lot - Qc_min (size lot) q ≤ 0)) eqn:Hd.
    + apply bool_decide_eq_true in Hd. apply Qc_min_depleted in Hd.
      fifo_simp. fold (spec_costRemoved (spec_consume (q - Qc_min (size lot) q) rest).1).
      rewrite <- (IH _ Hrest). unfold costPortion; cbn [fst snd]. rewrite Hd.
      field. exact Hlot.
    + fifo_simp. unfold reduce; cbn [cost]. ring.
Qed.

End FifoFacts.

(** ** wallet-deepdive.ts: the loops in the arithmetic of the script *)

(** What the loops need of the numbers: the minimum of an ordinary number
    and a positive one is one of the two, an ordinary number minus itself is
    not positive, and no number minus itself is greater than 0. *)
Section FifoLoops.
Import WalletDeepDive.
Context {A : Type} `{JSNumber A}.
Variable ordinary : A → Prop.
Hypothesis min_cases : ∀ a b : A,
  ordinary a → js_ltb js_zero b = true → js_min a b = a ∨ js_min a b = b.
Hypothesis sub_diag_le : ∀ a : A,
  ordinary a → js_leb (js_sub a a) js_zero = true.
Hypothesis sub_diag_gt : ∀ a : A, js_ltb js_zero (js_sub a a) = false.

(** After a lot that was not used up nothing is left to sell. *)
Lemma js_nothing_left (a q : A) :
  ordinary a → js_ltb js_zero q = true →
  js_leb (js_sub a (js_min a q)) js_zero = false →
  js_ltb js_zero (js_sub q (js_min a q)) = false.
Proof.
  intros Ha Hq Hd. destruct (min_cases a q Ha Hq) as [Hm|Hm]; rewrite Hm in *.
  - by rewrite sub_diag_le in Hd.
  - apply sub_diag_gt.
Qed.

Lemma sell1_fifo (p : A) (lots : list (Lot A)) :
  Forall (λ l, ordinary (size l)) lots →
  ∀ q c r : A,
    while (length lots) sell1_cond (sell1_body p) (mkSell1 lots q c r)
    = Some (fifo1 p lots q c r).
Proof.
  induction lots as [|lot rest IH]; intros Hord q c r.
  - rewrite while_done; [done|]. unfold sell1_cond. apply andb_false_r.
  - apply Forall_cons in Hord as [Hlot Hrest].
    cbn [length fifo1]. destruct (js_ltb js_zero q) eqn:HS.
    + rewrite while_step by (unfold sell1_cond; cbn; by rewrite HS).
      unfold sell1_body. cbn [lots1 toSell1 cost1 proceeds1 size]. cbv zeta.
      destruct (js_leb (js_sub (size lot) (js_min (size lot) q)) js_zero)
        eqn:Hd.
      * by apply IH.
      * rewrite while_done; [done|]. unfold sell1_cond. cbn [toSell1].
        by rewrite (js_nothing_left _ _ Hlot HS Hd).
    + rewrite while_done; [done|]. unfold sell1_cond. cbn. by rewrite HS.
Qed.

Lemma sell2_fifo (p : A) (lots : list (SimpleLot A)) :
  Forall (λ l, ordinary (ssize l)) lots →
  ∀ q r : A,
    while (length lots) sell2_cond (sell2_body p) (mkSell2 lots q r)
    = Some (fifo2 p lots q r).
Proof.
  induction lots as [|lot rest IH]; intros Hord q r.
  - rewrite while_done; [done|]. unfold sell2_cond. apply andb_false_r.
  - apply Forall_cons in Hord as [Hlot Hrest].
    cbn [length fifo2]. destruct (js_ltb js_zero q) eqn:HS.
    + rewrite while_step by (unfold sell2_cond; cbn; by rewrite HS).
      unfold sell2_body. cbn [lots2 toSell2 proceeds2]. cbv zeta.
      destruct (js_leb (js_sub (ssize lot) (js_min (ssize lot) q)) js_zero)
        eqn:Hd.
      * by apply IH.
      * rewrite while_done; [done|]. unfold sell2_cond. cbn [toSell2].
        by rewrite (js_nothing_left _ _ Hlot HS Hd).
    + rewrite while_done; [done|]. unfold sell2_cond. cbn. by rewrite HS.
Qed.

End FifoLoops.

Section FifoFloat.
Import WalletDeepDive.

(** In binary64 the loops end within [lots.length] iterations, in the state
    of the FIFO rule, for a queue of finite sizes. *)
Lemma sell1_fifo_float (p : float) (lots : list (Lot float)) :
  Forall (λ l, is_finite (size l) = true) lots →
  ∀ q c r : float,
    while (length lots) sell1_cond (sell1_body p) (mkSell1 lots q c r)
    = Some (fifo1 p lots q c r).
Proof.
  apply (sell1_fifo (λ x, is_finite x = true)).
  - apply float_min_cases.
  - apply float_sub_diag_le.
  - apply float_sub_diag_gt.
Qed.

Lemma sell2_fifo_float (p : float) (lots : list (SimpleLot float)) :
  Forall (λ l, is_finite (ssize l) = true) lots →
  ∀ q r : float,
    while (length lots) sell2_cond (sell2_body p) (mkSell2 lots q r)
    = Some (fifo2 p lots q r).
Proof.
  apply (sell2_fifo (λ x, is_finite x = true)).
  - apply float_min_cases.
  - apply float_sub_diag_le.
  - apply float_sub_diag_gt.
Qed.

(** A SELL in the bodies of the two [for] loops, in binary64. *)
Lemma sub1_trade_sell_float (st : Sub1 float) (t : Trade float) :
  side t = SELL → asset_key t ≠ "" →
  let lots := default [] (lotsByAsset st !! asset_key t) in
  let s := fifo1 (price t) lots (tsize t) (realizedSub1Cost st)
                 (realizedSub1Proceeds st) in
  Forall (λ l, is_finite (size l) = true) lots →
  sub1_trade st t =
  Some (mkSub1 (<[asset_key t := lots1 s]> (lotsByAsset st))
               (totalSub1Cost st) (cost1 s) (proceeds1 s)).
Proof.
  intros Hside Hkey lots s Hfin. unfold sub1_trade. cbv zeta.
  rewrite bool_decide_eq_false_2 by done. rewrite Hside.
  fold lots. by rewrite sell1_fifo_float.
Qed.

Lemma total_trade_sell_float (st : Total float) (t : Trade float) :
  side t = SELL → asset_key t ≠ "" →
  let lots := default [] (lotsAllByAsset st !! asset_key t) in
  let s := fifo2 (price t) lots (tsize t) (realizedProceedsAll st) in
  Forall (λ l, is_finite (ssize l) = true) lots →
  total_trade st t =
  Some (mkTotal (<[asset_key t := lots2 s]> (lotsAllByAsset st))
                (totalCostAll st) (proceeds2 s)).
Proof.
  intros Hside Hkey lots s Hfin. unfold total_trade. cbv zeta.
  rewrite bool_decide_eq_false_2 by done. rewrite Hside.
  fold lots. by rewrite sell2_fifo_float.
Qed.

(** An infinite size is not covered: on the one lot of size [-Infinity] a
    SELL of 1 runs the first loop's [while] twice, the lot's size being NaN
    after the first iteration. *)
Lemma sell1_infinite_size :
  while 1 sell1_cond (sell1_body 1%float)
        (mkSell1 [mkLot neg_infinity 1%float true] 1%float 0%float 0%float)
  = None
  ∧ while 2 sell1_cond (sell1_body 1%float)
          (mkSell1 [mkLot neg_infinity 1%float true] 1%float 0%float 0%float)
    = Some (mkSell1 [mkLot nan nan true] nan nan nan).
Proof. split; vm_compute; reflexivity. Qed.

End FifoFloat.

(** ** C1 *)

Section FifoClaim.
Import WalletDeepDive.
#[local] Open Scope Qc_scope.

(** C1, counterexample.  The claim as the specification states it fails for
    the loop that keeps a cost-removed total: the first loop adds the
    proceeds and the cost portion of a slice to its accumulators only when
    the lot came from a BUY worth less than $1.  On the lots of the
    specification's scenario ((10, $5) and (10, $6), which are not such
    lots) a SELL of 15 @ $0.70 leaves the accumulators as they were, where
    the claim has proceeds of $10.50 and a cost removed of $8; on the
    scenario's three trades the script ends with all three sub-$1
    accumulators at 0, in exact arithmetic and in binary64.  (The second
    loop keeps no cost-removed total at all.) *)
Lemma fifo_scenario_not_realized :
  ¬ (∀ (p q c r : Qc) (lots : list (Lot Qc)),
       Forall (λ l, size l ≠ 0) lots →
       while (length lots) sell1_cond (sell1_body p) (mkSell1 lots q c r) =
       Some (mkSell1 (spec_consume q lots).2
                     (q - sumQc (take <$> (spec_consume q lots).1))
                     (c + spec_costRemoved (spec_consume q lots).1)
                     (r + spec_proceeds p (spec_consume q lots).1)))
  ∧ while 2 sell1_cond (sell1_body (qc 7 10))
          (mkSell1 (scenario_lots false) (qc 15 1) 0 0)
    = Some (mkSell1 [mkLot (qc 5 1) (qc 3 1) false] 0 0 0)
  ∧ sub1_loop sub1_init scenario_Qc
    = Some (mkSub1 {[ "X" := [mkLot (qc 5 1) (qc 3 1) false] ]} 0 0 0)
  ∧ sub1_loop sub1_init scenario_float
    = Some (mkSub1 {[ "X" := [mkLot 5%float 3%float false] ]}
                   0%float 0%float 0%float).
Proof.
  assert (while 2 sell1_cond (sell1_body (qc 7 10))
                (mkSell1 (scenario_lots false) (qc 15 1) 0 0)
          = Some (mkSell1 [mkLot (qc 5 1) (qc 3 1) false] 0 0 0)) as Hrun
    by compute_done.
  split_and!.
  - intros Hclaim.
    assert (Forall (λ l : Lot Qc, size l ≠ 0) (scenario_lots false)) as Hnz
      by (repeat constructor; compute_done).
    specialize (Hclaim (qc 7 10) (qc 15 1) 0 0 (scenario_lots false) Hnz).
    change (length (scenario_lots false)) with 2%nat in Hclaim.
    rewrite Hrun in Hclaim.
    pose proof (f_equal (from_option proceeds1 0) Hclaim) as Hproceeds.
    revert Hproceeds. compute_done.
  - exact Hrun.
  - compute_done.
  - vm_compute. reflexivity.
Qed.

(** C1, amended (FIFO lot accounting).  For every price, amount to sell and
    queue of lots, the [while] loops of wallet-deepdive.ts end within
    [lots.length] iterations in the state the specification's FIFO rule
    gives for the queue: lots are consumed from the front,
    [take = min(lot.size, toSell)], the lot's cost goes down by
    [cost * (take / lot.size)], used-up lots are dropped.  The second loop
    (total ROI) adds [take * price] to its proceeds for every slice and keeps
    no cost-removed total.  The first loop (sub-$1 BUYs) adds the proceeds
    and the cost portion of a slice to its two accumulators only for the
    lots flagged [fromSub1Buy].  Neither loop computes a realized P&L per
    SELL.  In the scripts' [for] loops a SELL changes the queue of its own
    asset only, in this way.
    This holds in exact arithmetic, with the sums of the specification, for
    queues without a lot of size 0 (on which the script computes [0 / 0]);
    for such queues the cost that leaves the queue is the sum of the cost
    portions.  It holds in binary64, for queues of finite sizes, with every
    operation rounded as the script rounds it ([fifo1], [fifo2]): there a
    lot is used up when the rounded remainder is not positive.
    Scenarios, on the script's [for] loops, in exact arithmetic and in
    binary64: after BUY 10 @ $0.50, BUY 10 @ $0.60, SELL 15 @ $0.70 the
    second loop has proceeds of $10.50, a total cost of $11 and one lot
    (5, $3) left, so $8 of cost have left the queue; after BUY 10 @ $0.05,
    BUY 10 @ $0.06, SELL 15 @ $0.70 the first loop has realized proceeds of
    $10.50 and a realized cost of $0.80, of a total cost of $1.10, and one
    lot (5, $0.30) left.  After BUY 0.1 @ $0.50, BUY 0.2 @ $0.50,
    SELL 0.3 @ $0.50 no lot is left in exact arithmetic, and a lot of
    2.8e-17 shares is left in binary64, where [0.3 - 0.1] is less than
    [0.2]. *)
Theorem fifo_sell_accounting :
  (∀ (p q c r : Qc) (lots : list (Lot Qc)),
     let slices := (spec_consume q lots).1 in
     let left := (spec_consume q lots).2 in
     while (length lots) sell2_cond (sell2_body p)
           (mkSell2 (simple <$> lots) q r) =
       Some (mkSell2 (simple <$> left) (q - sumQc (take <$> slices))
                     (r + spec_proceeds p slices))
     ∧ (Forall (λ l, size l ≠ 0) lots →
        while (length lots) sell1_cond (sell1_body p) (mkSell1 lots q c r) =
          Some (mkSell1 left (q - sumQc (take <$> slices))
                        (c + spec_costRemoved (flagged slices))
                        (r + spec_proceeds p (flagged slices)))
        ∧ total_cost lots - total_cost left = spec_costRemoved slices))
  ∧ (∀ (st : Total Qc) (st1 : Sub1 Qc) (t : Trade Qc),
       side t = SELL → asset_key t ≠ "" →
       let lots := unflagged <$> default [] (lotsAllByAsset st !! asset_key t) in
       let lots1 := default [] (lotsByAsset st1 !! asset_key t) in
       total_trade st t =
         Some (mkTotal
                 (<[asset_key t := simple <$> (spec_consume (tsize t) lots).2]>
                    (lotsAllByAsset st))
                 (totalCostAll st)
                 (realizedProceedsAll st
                  + spec_proceeds (price t) (spec_consume (tsize t) lots).1))
       ∧ (Forall (λ l, size l ≠ 0) lots1 →
          sub1_trade st1 t =
          Some (mkSub1
                  (<[asset_key t := (spec_consume (tsize t) lots1).2]>
                     (lotsByAsset st1))
                  (totalSub1Cost st1)
                  (realizedSub1Cost st1
                   + spec_costRemoved
                       (flagged (spec_consume (tsize t) lots1).1))
                  (realizedSub1Proceeds st1
                   + spec_proceeds (price t)
                       (flagged (spec_consume (tsize t) lots1).1)))))
  ∧ (∀ (p q c r : float) (lots : list (Lot float)),
       Forall (λ l, is_finite (size l) = true) lots →
       while (length lots) sell1_cond (sell1_body p) (mkSell1 lots q c r)
       = Some (fifo1 p lots q c r)
       ∧ while (length lots) sell2_cond (sell2_body p)
               (mkSell2 (simple <$> lots) q r)
         = Some (fifo2 p (simple <$> lots) q r))
  ∧ (∀ (st : Total float) (st1 : Sub1 float) (t : Trade float),
       side t = SELL → asset_key t ≠ "" →
       let queue := default [] (lotsAllByAsset st !! asset_key t) in
       let queue1 := default [] (lotsByAsset st1 !! asset_key t) in
       let s := fifo2 (price t) queue (tsize t) (realizedProceedsAll st) in
       let s1 := fifo1 (price t) queue1 (tsize t) (realizedSub1Cost st1)
                       (realizedSub1Proceeds st1) in
       (Forall (λ l, is_finite (ssize l) = true) queue →
        total_trade st t =
        Some (mkTotal (<[asset_key t := lots2 s]> (lotsAllByAsset st))
                      (totalCostAll st) (proceeds2 s)))
       ∧ (Forall (λ l, is_finite (size l) = true) queue1 →
          sub1_trade st1 t =
          Some (mkSub1 (<[asset_key t := lots1 s1]> (lotsByAsset st1))
                       (totalSub1Cost st1) (cost1 s1) (proceeds1 s1))))
  ∧ total_loop total_init scenario_Qc =
      Some (mkTotal {[ "X" := [mkSimpleLot (qc 5 1) (qc 3 1)] ]}
                    (qc 11 1) (qc 21 2))
  ∧ total_loop total_init scenario_float =
      Some (mkTotal {[ "X" := [mkSimpleLot 5%float 3%float] ]}
                    11%float 10.5%float)
  ∧ sub1_loop sub1_init sub1_scenario_Qc =
      Some (mkSub1 {[ "X" := [mkLot (qc 5 1) (qc 3 10) true] ]}
                   (qc 11 10) (qc 4 5) (qc 21 2))
  ∧ sub1_loop sub1_init sub1_scenario_float =
      Some (mkSub1 {[ "X" := [mkLot 5%float 0.3%float true] ]}
                   1.1%float 0.8%float 10.5%float)
  ∧ sub1_loop sub1_init rounding_scenario_Qc =
      Some (mkSub1 {[ "X" := [] ]} (qc 3 20) (qc 3 20) (qc 3 20))
  ∧ sub1_loop sub1_init rounding_scenario_float =
      Some (mkSub1 {[ "X" := [mkLot 0x1p-55%float 0x1p-56%float true] ]}
                   0.15000000000000002%float 0.15%float 0.15%float)
  ∧ (0.3 - 0.1 <? 0.2)%float = true.
Proof.
  split_and!.
  - intros p q c r lots slices left. subst slices left.
    split; [apply sell2_refines|]. intros Hnz.
    split; [apply sell1_refines|by apply spec_consume_cost].
  - intros st st1 t Hside Hkey. cbv zeta.
    split; [by apply total_trade_sell|]. intros _. by apply sub1_trade_sell.
  - intros p q c r lots Hfin.
    split; [by apply sell1_fifo_float|].
    rewrite <- (length_fmap simple lots). apply sell2_fifo_float.
    by apply Forall_fmap.
  - intros st st1 t Hside Hkey. cbv zeta.
    split; intros Hfin.
    + by apply total_trade_sell_float.
    + by apply sub1_trade_sell_float.
  - compute_done.
  - vm_compute. reflexivity.
  - compute_done.
  - vm_compute. reflexivity.
  - compute_done.
  - vm_compute. reflexivity.
  - vm_compute. reflexivity.
Qed.

(** The general part at the lots of the second scenario: the first loop,
    started on the two lots of the sub-$1 BUYs, ends with $0.80 of cost and
    $10.50 of proceeds realized and the lot (5, $0.30) left; $0.80 is the
    cost that left the queue. *)
Lemma fifo_sell_accounting_witness :
  Forall (λ l : Lot Qc, size l ≠ 0) sub1_scenario_lots
  ∧ while 2 sell1_cond (sell1_body (qc 7 10))
          (mkSell1 sub1_scenario_lots (qc 15 1) 0 0) =
    Some (mkSell1 [mkLot (qc 5 1) (qc 3 10) true] 0 (qc 4 5) (qc 21 2))
  ∧ total_cost sub1_scenario_lots
    - total_cost [mkLot (qc 5 1) (qc 3 10) true] = qc 4 5.
Proof.
  assert (Hnz : Forall (λ l : Lot Qc, size l ≠ 0) sub1_scenario_lots)
    by (repeat constructor; compute_done).
  destruct (proj2 (proj1 fifo_sell_accounting (qc 7 10) (qc 15 1) 0 0
                     sub1_scenario_lots) Hnz) as (H1 & Hc).
  split; [exact Hnz|]. split.
  - etrans; [exact H1|]. compute_done.
  - etrans; [|etrans; [exact Hc|]]; compute_done.
Defined.

End FifoClaim.

(** ** e2e-builder-test.ts: [waitForFill] *)

Section WaitForFillFacts.
Import E2E.
#[local] Open Scope Z_scope.

Lemma is_filled_true (r : option Order) :
  is_filled r = true ↔ ∃ o, r = Some o ∧ status o = FILLED.
Proof.
  destruct r as [o|]; simpl.
  - rewrite bool_decide_eq_true. split; [eauto|].
    by intros (o' & [= <-] & Hs).
  - split; [done|]. by intros (o' & [=] & _).
Qed.

Lemma events_of_cons (p q : Z * option Order) (ps : list (Z * option Order)) :
  events_of (p :: q :: ps) = GetOrder p.1 p.2 :: Sleep 2000 :: events_of (q :: ps).
Proof. reflexivity. Qed.

Lemma poll_seq_S (env : nat → Reply) (t : Z) (k n : nat) :
  poll_seq env t k (S n) =
  (t, reply (env k))
  :: poll_seq env (t + latency (env k) + 2000 + lag (env k)) (S k) n.
Proof. reflexivity. Qed.

Lemma poll_seq_length (env : nat → Reply) (n : nat) : ∀ (t : Z) (k : nat),
  length (poll_seq env t k n) = S n.
Proof. induction n as [|n IH]; intros t k; simpl; [done|]. by rewrite IH. Qed.

Lemma waitLoop_timeout (fuel : nat) (env : nat → Reply) (start T : Z) (w : World) :
  (clock w - start <? T) = false →
  waitLoop fuel env start T w =
  Some (mkFillResult (is_filled (getOrder env w).1) (getOrder env w).1,
        (getOrder env w).2).
Proof. intros Hg. destruct fuel; simpl; by rewrite Hg. Qed.

Lemma waitLoop_poll (fuel : nat) (env : nat → Reply) (start T : Z) (w : World) :
  (clock w - start <? T) = true →
  waitLoop (S fuel) env start T w =
  match (getOrder env w).1 with
  | None => Some (mkFillResult false None, (getOrder env w).2)
  | Some ord =>
      match status ord with
      | FILLED => Some (mkFillResult true (Some ord), (getOrder env w).2)
      | CANCELLED | EXPIRED | REJECTED =>
          Some (mkFillResult false (Some ord), (getOrder env w).2)
      | NEW | PARTIALLY_FILLED =>
          waitLoop fuel env start T
            (sleep 2000 (lag (env (calls w))) (getOrder env w).2)
      end
  end.
Proof. intros Hg. simpl. by rewrite Hg. Qed.

(** What one run of the loop does, for any clock and any trace so far. *)
Lemma waitLoop_run (env : nat → Reply) (start T : Z) :
  causal env →
  ∀ (fuel : nat) (t : Z) (k : nat) (tr : list Event),
    T - (t - start) ≤ 2000 * Z.of_nat fuel →
    ∃ (n : nat) (res : FillResult) (w' : World),
      waitLoop fuel env start T (mkWorld t k tr) = Some (res, w')
      ∧ (n ≤ fuel)%nat
      ∧ trace w' = tr ++ events_of (poll_seq env t k n)
      ∧ (∀ i p, (i < n)%nat → poll_seq env t k n !! i = Some p →
           p.1 - start < T ∧ open p.2)
      ∧ (∀ p, poll_seq env t k n !! n = Some p →
           order res = p.2
           ∧ (p.1 - start < T → closed p.2)
           ∧ (filled res = true ↔ ∃ o, p.2 = Some o ∧ status o = FILLED)).
Proof.
  intros Hlat fuel.
  induction fuel as [|fuel IH]; intros t k tr Hfuel.
  all: destruct (t - start <? T) eqn:Hg;
    [pose proof (proj1 (Z.ltb_lt _ _) Hg) as Hin
    |pose proof (proj1 (Z.ltb_ge _ _) Hg) as Hout].
  1: lia.
  1, 3: (* timeout: the final check *)
    exists 0%nat; rewrite waitLoop_timeout by exact Hg;
    eexists _, _; (split; [reflexivity|]); (split; [lia|]);
    (split; [done|]); (split; [intros; lia|]);
    intros p [= <-]; simpl; (split; [done|]); (split; [lia|]);
    apply is_filled_true.
  rewrite waitLoop_poll by exact Hg.
  unfold getOrder; cbn [fst snd calls clock trace].
  destruct (reply (env k)) as [ord|] eqn:Hr.
  - destruct (status ord) eqn:Hs.
    1, 2: (* NEW, PARTIALLY_FILLED: sleep and go on *)
      destruct (IH (t + latency (env k) + 2000 + lag (env k)) (S k)
                   ((tr ++ [GetOrder t (Some ord)]) ++ [Sleep 2000]))
        as (n & res & w' & Hrun & Hn & Htr & Hopen & Hlast);
        [destruct (Hlat k); lia|];
      exists (S n), res, w'; unfold sleep; cbn [calls clock trace];
      (split; [exact Hrun|]); (split; [lia|]);
      (split; [rewrite Htr, poll_seq_S, Hr;
               destruct (poll_seq env (t + latency (env k) + 2000 + lag (env k))
                           (S k) n)
                 eqn:Hps; [by destruct n|];
               rewrite events_of_cons; cbn [fst snd];
               by rewrite <- !app_assoc|]);
      (split; [intros [|i] p Hi; rewrite poll_seq_S, Hr; simpl;
               [intros [= <-]; simpl; split; [done|]; exists ord; eauto
               |intros Hp; apply (Hopen i p); [lia|done]]|]);
      intros p; rewrite poll_seq_S; simpl; apply Hlast.
    all: (* FILLED, CANCELLED, EXPIRED, REJECTED: stop *)
      exists 0%nat; eexists _, _; (split; [reflexivity|]);
      (split; [lia|]); (split; [simpl; by rewrite Hr|]);
      (split; [intros; lia|]);
      intros p; simpl; rewrite Hr; intros [= <-]; simpl;
      (split; [done|]);
      (split; [intros _; right; exists ord; unfold terminal; eauto|]);
      (split; [try done; eexists; eauto|]);
      try (intros (o & [= <-] & Hf); congruence).
  - (* null *)
    exists 0%nat. eexists _, _. split; [reflexivity|].
    split; [lia|]. split; [simpl; by rewrite Hr|].
    split; [intros; lia|].
    intros p; simpl; rewrite Hr; intros [= <-]; simpl.
    split; [done|]. split; [intros _; by left|].
    split; [done|]. by intros (o & [=] & _).
Qed.

Lemma fuel_for_enough (T : Z) : T ≤ 2000 * Z.of_nat (fuel_for T).
Proof.
  unfold fuel_for.
  pose proof (Z.div_mod (T + 1999) 2000 ltac:(lia)) as Hdm.
  pose proof (Z.mod_pos_bound (T + 1999) 2000 ltac:(lia)) as Hmod.
  lia.
Qed.

(** [waitForFill] with the fuel its timeout allows. *)
Lemma waitForFill_run (env : nat → Reply) (timeoutMs : option Z) (w : World) :
  causal env →
  let T := default 15000 timeoutMs in
  ∃ (n : nat) (res : FillResult) (w' : World),
    waitForFill (fuel_for T) env timeoutMs w = Some (res, w')
    ∧ (n ≤ fuel_for T)%nat
    ∧ trace w' = trace w ++ events_of (poll_seq env (clock w) (calls w) n)
    ∧ (∀ i p, (i < n)%nat →
         poll_seq env (clock w) (calls w) n !! i = Some p →
         p.1 - clock w < T ∧ open p.2)
    ∧ (∀ p, poll_seq env (clock w) (calls w) n !! n = Some p →
         order res = p.2
         ∧ (p.1 - clock w < T → closed p.2)
         ∧ (filled res = true ↔ ∃ o, p.2 = Some o ∧ status o = FILLED)).
Proof.
  destruct w as [t k tr]. intros Hlat T.
  unfold waitForFill; cbn [clock calls trace].
  apply (waitLoop_run env t T Hlat).
  pose proof (fuel_for_enough T). lia.
Qed.

End WaitForFillFacts.

(** ** C6 *)

Section WaitForFillClaim.
Import E2E.
#[local] Open Scope Z_scope.

(** C6 (confirmation polling).  Whatever the collaborator answers, as long
    as answers and timers take no negative time, [waitForFill] returns after
    at most
    [ceil(timeout / 2000) + 1] calls of [getOrder]; the timeout is 15000 ms
    unless the caller gives one (the market step gives 10000).  Its calls are
    separated by exactly one [sleep(2000)]; every call but the last was made
    before the timeout and found the order open (NEW or PARTIALLY_FILLED, so
    a partial fill keeps the loop polling); the last call is either the
    final check after the timeout, or found no order or a terminal status
    (FILLED, CANCELLED, EXPIRED, REJECTED); the order returned is the answer
    to the last call, and [filled] is true exactly when its status is FILLED.
    On an order that stays PARTIALLY_FILLED the limit step polls at 0, 2, ...,
    14 s and once more at 16 s; the market step at 0, 2, ..., 8 s and once
    more at 10 s. *)
Theorem waitForFill_polling :
  (∀ (env : nat → Reply) (timeoutMs : option Z) (w : World),
     causal env →
     let T := default 15000 timeoutMs in
     ∃ (n : nat) (res : FillResult) (w' : World),
       waitForFill (fuel_for T) env timeoutMs w = Some (res, w')
       ∧ (n ≤ fuel_for T)%nat
       ∧ trace w' = trace w ++ events_of (poll_seq env (clock w) (calls w) n)
       ∧ (∀ i p, (i < n)%nat →
            poll_seq env (clock w) (calls w) n !! i = Some p →
            p.1 - clock w < T ∧ open p.2)
       ∧ (∀ p, poll_seq env (clock w) (calls w) n !! n = Some p →
            order res = p.2
            ∧ (p.1 - clock w < T → closed p.2)
            ∧ (filled res = true ↔ ∃ o, p.2 = Some o ∧ status o = FILLED)))
  ∧ (∃ r w',
       limitOrderStep (fuel_for 15000) (always PARTIALLY_FILLED 0)
         (mkOrderResult true (Some "id") None []) (Returns ()) world0
       = Some (r, w')
       ∧ (polls (trace w')).*1 =
         [0; 2000; 4000; 6000; 8000; 10000; 12000; 14000; 16000])
  ∧ (∃ r w',
       marketOrderStep (fuel_for 10000) (always PARTIALLY_FILLED 0)
         (mkOrderResult true (Some "id") None []) world0
       = Some (r, w')
       ∧ (polls (trace w')).*1 = [0; 2000; 4000; 6000; 8000; 10000]).
Proof.
  split; [|split].
  - exact waitForFill_run.
  - eexists _, _. split; [vm_compute; reflexivity|]. vm_compute. reflexivity.
  - eexists _, _. split; [vm_compute; reflexivity|]. vm_compute. reflexivity.
Qed.

(** The general part on an order that is filled at the third call. *)
Lemma waitForFill_polling_witness :
  causal filled_at_third
  ∧ ∃ (n : nat) (res : FillResult) (w' : World),
      waitForFill (fuel_for 15000) filled_at_third None world0 = Some (res, w')
      ∧ (n ≤ fuel_for 15000)%nat
      ∧ trace w' = events_of (poll_seq filled_at_third 0 0 n).
Proof.
  assert (Hlat : causal filled_at_third) by (intros i; simpl; lia).
  split; [exact Hlat|].
  destruct (proj1 waitForFill_polling filled_at_third None world0 Hlat)
    as (n & res & w' & Hrun & Hn & Htr & _).
  exists n, res, w'. split; [exact Hrun|]. split; [exact Hn|]. exact Htr.
Defined.

End WaitForFillClaim.

(** ** C8 *)

Section SlippageClaim.
Import CryptoCopyTrade.
Context {A : Type} `{JSNumber A}.
#[local] Open Scope js_scope.

(** C8 (worst-acceptable price).  For every observed price [p] and
    configured slippage [s], the slippage-adjusted price the script computes
    is [p * (1 + s)] for a BUY and [p * (1 - s)] for a SELL, both where the
    copy is reported ([slippagePrice] in [onTrade]) and in the shutdown
    report ([slipPrice]), which recomputes it from the log entry [onTrade]
    wrote.  This holds for any arithmetic, binary64 included. *)
Theorem slippage_price_formula (s p sz scale : A) (addr tok slug : string)
    (st : Script A) (trade : SmartMoneyTrade A) (result : OrderResult A) :
  slippagePrice s (mkSmartMoneyTrade addr BUY sz p tok slug) = p * (js_one + s)
  ∧ slippagePrice s (mkSmartMoneyTrade addr SELL sz p tok slug)
    = p * (js_one - s)
  ∧ slipPrice s <$> last (tradeLog (onTrade scale st trade result))
    = Some (slippagePrice s trade).
Proof.
  split; [reflexivity|]. split; [reflexivity|].
  unfold onTrade; cbn [tradeLog]. rewrite last_snoc. reflexivity.
Qed.

End SlippageClaim.

Section SlippageFacts.
Import CryptoCopyTrade.
#[local] Open Scope Qc_scope.

(** In exact arithmetic the adjusted price bounds adverse execution: with
    [0 ≤ s] and [0 ≤ p], a BUY may pay up to [p * (1 + s) ≥ p] and a SELL may
    receive down to [p * (1 - s) ≤ p]. *)
Lemma slippage_price_bounds (s : Qc) (trade : SmartMoneyTrade Qc) :
  0 ≤ s → 0 ≤ price trade →
  match side trade with
  | BUY => price trade ≤ slippagePrice s trade
  | SELL => slippagePrice s trade ≤ price trade
  end.
Proof.
  intros Hs Hp. unfold slippagePrice.
  pose proof (Qcmult_le_compat_r 0 s (price trade) Hs Hp) as Hm.
  rewrite Qcmult_0_l in Hm.
  destruct (side trade); cbn [js_mul js_add js_sub js_one Qc_JSNumber].
  - replace (price trade * (1 + s)) with (price trade + s * price trade) by ring.
    apply (Qc_le_add_r _ _ Hm).
  - replace (price trade * (1 - s)) with (price trade - s * price trade) by ring.
    apply (Qc_sub_le_l _ _ Hm).
Qed.

End SlippageFacts.

(** ** C2 *)

Section RiskGateClaim.
Import RiskGate.
#[local] Open Scope Qc_scope.

(** C2 (no overselling).  For a SELL source trade, an order that passes the
    Risk Gate has size [min(copySize, currentHeldShares(asset))], which is at
    most the shares held; when the shares held are 0 the gate skips the
    trade: [tradesSkipped] goes up by one, and so does [tradesDetected] (a
    Risk Gate skip is a detected trade, section 4.2); [tradesFailed],
    [tradesExecuted] and the list of submitted orders are unchanged, and the
    result is not an attempt.  With the script's [getPositionSharesForToken],
    an asset that is not in [holdings] counts as 0 shares. *)
Theorem sell_clamped_to_held (opts : Options) (held : string → Qc)
    (execute : ReplicaOrderSpec → option Qc) (e : Engine) (t : SourceTrade) :
  side t = SELL →
  (∀ o, riskGate opts held t = Submit o →
     orderSize o = Qc_min (scaledSize opts t) (held (asset t))
     ∧ orderSize o ≤ held (asset t))
  ∧ (held (asset t) = 0 →
     (∃ reason, riskGate opts held t = Skip reason)
     ∧ let e' := (replicate opts held execute e t).1 in
       let r := (replicate opts held execute e t).2 in
       tradesSkipped (stats e') = S (tradesSkipped (stats e))
       ∧ tradesFailed (stats e') = tradesFailed (stats e)
       ∧ tradesExecuted (stats e') = tradesExecuted (stats e)
       ∧ tradesDetected (stats e') = S (tradesDetected (stats e))
       ∧ submitted e' = submitted e
       ∧ attempted r = false ∧ success r = false)
  ∧ (∀ h : gmap string (CryptoCopyTrade.Position Qc),
       h !! asset t = None →
       ∃ reason,
         riskGate opts (CryptoCopyTrade.getPositionSharesForToken h) t
         = Skip reason).
Proof.
  intros Hside.
  assert (Hzero : ∀ f : string → Qc, f (asset t) = 0 →
            riskGate opts f t = Skip "no shares held").
  { intros f Hf. unfold riskGate. rewrite Hside. cbv zeta.
    by rewrite bool_decide_eq_true_2. }
  split; [|split].
  - intros o. unfold riskGate. rewrite Hside. cbv zeta.
    case_bool_decide; [done|]. intros [= <-]; cbn [orderSize].
    split; [done|]. apply Qc_min_le_r.
  - intros Hheld. split; [eauto|].
    unfold replicate. by rewrite (Hzero held Hheld).
  - intros h Hh. eexists. apply Hzero.
    unfold CryptoCopyTrade.getPositionSharesForToken. by rewrite Hh.
Qed.

End RiskGateClaim.

Section RiskGateScenarios.
Import RiskGate.
#[local] Open Scope Qc_scope.

(** The SELL of the scenario with nothing held, and with 30 shares held. *)
Lemma sell_clamped_to_held_witness :
  side scenario_sell = SELL
  ∧ tradesSkipped
      (stats (replicate scenario_opts (λ _, 0) (λ _, None) engine0
                scenario_sell).1) = 1%nat
  ∧ submitted (replicate scenario_opts (λ _, 0) (λ _, None) engine0
                 scenario_sell).1 = []
  ∧ (∀ o, riskGate scenario_opts (λ _, qc 30 1) scenario_sell = Submit o →
       orderSize o ≤ qc 30 1).
Proof.
  split; [reflexivity|].
  destruct (sell_clamped_to_held scenario_opts (λ _, 0) (λ _, None) engine0
              scenario_sell eq_refl) as (_ & Hzero & _).
  destruct (Hzero eq_refl) as (_ & Hskip & _ & _ & _ & Hsub & _).
  split; [exact Hskip|]. split; [exact Hsub|].
  intros o Ho.
  exact (proj2 (proj1 (sell_clamped_to_held scenario_opts (λ _, qc 30 1)
                         (λ _, None) engine0 scenario_sell eq_refl) o Ho)).
Defined.

(** The end-to-end scenario of section 8: the BUY of 100 @ $0.40 is copied
    with size 50 (value $20, above the minimum) at no more than $0.42. *)
Lemma scenario_buy_accepted :
  riskGate scenario_opts (λ _, 0) scenario_buy =
  Submit (mkReplicaOrderSpec "X" BUY (qc 50 1) (qc 21 50) FOK).
Proof. compute_done. Qed.

End RiskGateScenarios.

(** ** C7 *)

Section LedgerClaim.
Import E2E.
#[local] Open Scope Z_scope.

Lemma limitOrderStep_failed (fuel : nat) (env : nat → Reply)
    (sellResult : OrderResult) (cancel : Outcome string unit) (w : World) :
  success sellResult = false →
  limitOrderStep fuel env sellResult cancel w =
  Some (mkStepResult false (Failed (errorMsg sellResult)), w).
Proof. intros Hs. unfold limitOrderStep. by rewrite Hs. Qed.

Lemma limitOrderStep_submitted (fuel : nat) (env : nat → Reply)
    (sellResult : OrderResult) (cancel : Outcome string unit) (w w1 : World)
    (fill : FillResult) :
  success sellResult = true →
  waitForFill fuel env None w = Some (fill, w1) →
  limitOrderStep fuel env sellResult cancel w =
  if filled fill then
    Some (mkStepResult true
            (FilledAt (default 0%Qc (filledSize <$> order fill))), w1)
  else
    Some (mkStepResult false (NotFilled (status <$> order fill)),
          cancelOrder (default "" (orderId sellResult)) w1).
Proof.
  intros Hs Hw. unfold limitOrderStep. rewrite Hs, Hw. simpl.
  by destruct (filled fill).
Qed.

(** C7, counterexample.  The claim as the specification states it fails:
    when the submission itself fails there is no order, and no cancel is
    attempted. *)
Lemma no_cancel_after_failed_submission :
  ¬ (∀ (env : nat → Reply) (sellResult : OrderResult)
       (cancel : Outcome string unit) (w : World) (r : StepResult) (w' : World),
       limitOrderStep (fuel_for 15000) env sellResult cancel w = Some (r, w') →
       stepSuccess r = false →
       ∃ id, CancelOrder id ∈ trace w').
Proof.
  intros Hclaim.
  destruct (Hclaim (always NEW 0) (mkOrderResult false None (Some "rejected") [])
              (Returns ()) world0
              (mkStepResult false (Failed (Some "rejected"))) world0
              eq_refl eq_refl) as (id & Hid).
  by apply not_elem_of_nil in Hid.
Qed.

(** C7, amended (ledger atomicity on failure).  In the limit-order steps of
    the end-to-end script, a submission that fails gives a result with
    success = false and touches nothing (no order exists, so no cancel is
    attempted); an order that was submitted and is not reported filled by
    [waitForFill] is cancelled once, after the last poll, and the step's
    result has success = false, whether [cancelOrder] returns or throws; a
    filled order is not cancelled.  In the copy-trading script the holdings
    are changed only by a result with success = true: any result with
    success = false leaves the map as it was.  Scenario: three polls inside
    the timeout and the final check all report PARTIALLY_FILLED; the order is
    cancelled and the result has success = false. *)
Theorem ledger_unchanged_on_failure :
  (∀ (env : nat → Reply) (sellResult : OrderResult)
     (cancel : Outcome string unit) (w : World),
     causal env →
     ∃ (r : StepResult) (w' : World),
       limitOrderStep (fuel_for 15000) env sellResult cancel w = Some (r, w')
       ∧ (success sellResult = false → stepSuccess r = false ∧ w' = w)
       ∧ (success sellResult = true →
          ∃ (fill : FillResult) (w1 : World),
            waitForFill (fuel_for 15000) env None w = Some (fill, w1)
            ∧ stepSuccess r = filled fill
            ∧ (filled fill = true → w' = w1)
            ∧ (filled fill = false →
               trace w' =
               trace w1 ++ [CancelOrder (default "" (orderId sellResult))])))
  ∧ (∀ (fuel : nat) (env : nat → Reply) (sellResult : OrderResult)
       (e : string) (w : World),
       limitOrderStep fuel env sellResult (Throws e) w =
       limitOrderStep fuel env sellResult (Returns ()) w)
  ∧ (∀ (A : Type) (N : JSNumber A) (scale : A) (st : CryptoCopyTrade.Script A)
       (trade : CryptoCopyTrade.SmartMoneyTrade A)
       (result : CryptoCopyTrade.OrderResult A),
       (CryptoCopyTrade.success result = false →
        CryptoCopyTrade.holdings (CryptoCopyTrade.onTrade scale st trade result)
        = CryptoCopyTrade.holdings st)
       ∧ (CryptoCopyTrade.holdings
            (CryptoCopyTrade.onTrade scale st trade result)
          ≠ CryptoCopyTrade.holdings st →
          CryptoCopyTrade.success result = true))
  ∧ limitOrderStep (fuel_for 15000) (always PARTIALLY_FILLED 5000)
      (mkOrderResult true (Some "id") None []) (Throws "cancel failed") world0
    = Some (mkStepResult false (NotFilled (Some PARTIALLY_FILLED)),
            mkWorld 26000 4
              (events_of (poll_seq (always PARTIALLY_FILLED 5000) 0 0 3)
               ++ [CancelOrder "id"])).
Proof.
  split; [|split; [|split]].
  - intros env sellResult cancel w Hlat.
    destruct (success sellResult) eqn:Hs.
    + destruct (waitForFill_run env None w Hlat)
        as (n & fill & w1 & Hrun & _).
      change (default 15000 None) with 15000 in Hrun.
      rewrite (limitOrderStep_submitted _ _ _ cancel _ _ _ Hs Hrun).
      destruct (filled fill) eqn:Hf; eexists _, _; (split; [reflexivity|]);
        (split; [done|]); intros _; exists fill, w1; rewrite ?Hf;
        (split; [exact Hrun|]); (split; [done|]); (split; [done|]); done.
    + rewrite limitOrderStep_failed by done.
      eexists _, _. split; [reflexivity|]. split; [done|]. done.
  - intros fuel env sellResult e w. reflexivity.
  - intros A N scale st trade result.
    assert (Hkeep : CryptoCopyTrade.success result = false →
              CryptoCopyTrade.holdings
                (CryptoCopyTrade.onTrade scale st trade result)
              = CryptoCopyTrade.holdings st).
    { intros Hs. unfold CryptoCopyTrade.onTrade, CryptoCopyTrade.updateHoldings.
      cbn [CryptoCopyTrade.holdings]. by rewrite Hs. }
    split; [exact Hkeep|]. intros Hne.
    destruct (CryptoCopyTrade.success result) eqn:Hs; [done|].
    destruct Hne. by apply Hkeep.
  - vm_compute. reflexivity.
Qed.

(** The limit step on an order that stays PARTIALLY_FILLED, each answer
    taking 5 s: not filled, and the trace ends with the cancel. *)
Lemma ledger_unchanged_on_failure_witness :
  causal (always PARTIALLY_FILLED 5000)
  ∧ ∃ (r : StepResult) (w' : World),
      limitOrderStep (fuel_for 15000) (always PARTIALLY_FILLED 5000)
        (mkOrderResult true (Some "id") None []) (Returns ()) world0
      = Some (r, w')
      ∧ stepSuccess r = false
      ∧ last (trace w') = Some (CancelOrder "id").
Proof.
  assert (Hlat : causal (always PARTIALLY_FILLED 5000))
    by (intros i; simpl; lia).
  split; [exact Hlat|].
  destruct (proj1 ledger_unchanged_on_failure (always PARTIALLY_FILLED 5000)
              (mkOrderResult true (Some "id") None []) (Returns ()) world0 Hlat)
    as (r & w' & Hstep & _ & Hsub).
  exists r, w'. split; [exact Hstep|].
  destruct (Hsub eq_refl) as (fill & w1 & Hfill & Hr & _ & Hcancel).
  assert (Hnot : filled fill = false).
  { vm_compute in Hfill. by inversion Hfill. }
  split; [by rewrite Hr|].
  rewrite (Hcancel Hnot). apply last_snoc.
Defined.

(** The market step (Step 7) is different by design: its order is
    fill-and-kill, so an order that is not reported filled is recorded as
    accepted, with success = true, and is not cancelled. *)
Lemma market_step_accepts_unfilled :
  ∃ w',
    marketOrderStep (fuel_for 10000) (always PARTIALLY_FILLED 0)
      (mkOrderResult true (Some "id") None []) world0
    = Some (mkStepResult true (Accepted (Some PARTIALLY_FILLED)), w')
    ∧ CancelOrder "id" ∉ trace w'.
Proof.
  eexists. split; [vm_compute; reflexivity|]. compute_done.
Qed.

End LedgerClaim.

(** ** docs/smart-money-service-refactor.md: deduplication *)

Section DedupFacts.
Import Dedup.

Lemma delete_notin (l : list string) (h : string) : h ∉ l → delete l h = l.
Proof.
  intros Hh. unfold delete. induction l as [|x l IH]; [done|].
  apply not_elem_of_cons in Hh as [Hx Hl]. simpl.
  rewrite (proj2 (String.eqb_neq x h)) by congruence. simpl.
  by rewrite IH.
Qed.

Lemma delete_head (l : list string) (h : string) : h ∉ l → delete (h :: l) h = l.
Proof.
  intros Hh. unfold delete. simpl. rewrite String.eqb_refl. simpl.
  by apply (delete_notin l h).
Qed.

(** Deleting a duplicate-free prefix, element by element, leaves the rest. *)
Lemma foldl_delete_prefix (l1 l2 : list string) :
  NoDup (l1 ++ l2) → foldl delete (l1 ++ l2) l1 = l2.
Proof.
  induction l1 as [|a l1 IH]; intros Hnd; [done|].
  rewrite <- app_comm_cons in *. cbn [foldl].
  apply NoDup_cons in Hnd as [Ha Hnd].
  rewrite (delete_head _ _ Ha). by apply IH.
Qed.

(** Eviction drops the 500 oldest hashes and keeps the others in order. *)
Lemma evict_drop (seen : list string) : NoDup seen → evict seen = drop 500 seen.
Proof.
  intros Hnd. unfold evict. cbv zeta.
  rewrite <- (take_drop 500 seen) at 1.
  apply foldl_delete_prefix. by rewrite take_drop.
Qed.

Lemma has_true (seen : list string) (h : string) : has seen h = true ↔ h ∈ seen.
Proof.
  unfold has. rewrite existsb_exists. split.
  - intros (x & Hx & Heq). apply String.eqb_eq in Heq as ->.
    by apply list_elem_of_In.
  - intros Hin. exists h. split; [by apply list_elem_of_In|].
    apply String.eqb_refl.
Qed.

Lemma has_false (seen : list string) (h : string) : has seen h = false ↔ h ∉ seen.
Proof.
  rewrite <- has_true. destruct (has seen h); split; congruence.
Qed.

(** What [step] does on a hash that is not in the set. *)
Lemma step_new (st : Poller) (h : string) :
  h ∉ seenTxHashes st → NoDup (seenTxHashes st) →
  step st h =
  mkPoller (if 1000 <? length (seenTxHashes st ++ [h])
            then drop 500 (seenTxHashes st ++ [h])
            else seenTxHashes st ++ [h])
           (handled st ++ [h]).
Proof.
  intros Hh Hnd. unfold step, add.
  rewrite (proj2 (has_false _ _) Hh). cbv zeta.
  destruct (1000 <? length (seenTxHashes st ++ [h])); [|done].
  rewrite evict_drop; [done|].
  apply NoDup_app. split; [done|]. split; [|apply NoDup_singleton].
  intros x Hx Hx'. apply list_elem_of_singleton in Hx'. by subst.
Qed.

Lemma step_seen (st : Poller) (h : string) :
  h ∈ seenTxHashes st → step st h = st.
Proof. intros Hh. unfold step. by rewrite (proj2 (has_true _ _) Hh). Qed.

Lemma poller_inv_init : poller_inv (mkPoller [] []).
Proof.
  unfold poller_inv; simpl. split; [apply NoDup_nil_2|]. split; [lia|].
  split; [by exists []|]. split; [done|]. split; [lia|].
  intros i j x _ Hi. by rewrite lookup_nil in Hi.
Qed.

Lemma spaced_snoc (old seen : list string) (h : string) :
  spaced 501 (old ++ seen) → h ∉ seen →
  length (old ++ seen) `min` 501 ≤ length seen →
  spaced 501 ((old ++ seen) ++ [h]).
Proof.
  intros Hsp Hh Hlen i j x Hij Hi Hj.
  assert (Hjlt : j < length ((old ++ seen) ++ [h])) by (by eapply lookup_lt_Some).
  rewrite length_app in Hjlt; simpl in Hjlt.
  destruct (decide (j < length (old ++ seen))) as [Hjin|Hjout].
  - rewrite lookup_app_l in Hi by lia. rewrite lookup_app_l in Hj by lia.
    by eapply Hsp.
  - assert (j = length (old ++ seen)) as -> by lia.
    rewrite lookup_app_r in Hj by lia. rewrite Nat.sub_diag in Hj.
    injection Hj as <-.
    rewrite lookup_app_l in Hi by lia.
    destruct (decide (i < length old)) as [Hold|Hnew].
    + rewrite length_app in *. lia.
    + rewrite lookup_app_r in Hi by lia.
      destruct Hh. by eapply list_elem_of_lookup_2.
Qed.

Lemma poller_inv_step (st : Poller) (h : string) :
  poller_inv st → poller_inv (step st h).
Proof.
  intros (Hnd & Hlen & (old & Hold) & Hfull & Hmin & Hsp).
  destruct (decide (h ∈ seenTxHashes st)) as [Hin|Hnew].
  { rewrite step_seen by done. unfold poller_inv. eauto 10. }
  rewrite step_new by done.
  assert (Hnd' : NoDup (seenTxHashes st ++ [h])).
  { apply NoDup_app. split; [done|]. split; [|apply NoDup_singleton].
    intros x Hx Hx'. apply list_elem_of_singleton in Hx'. by subst. }
  assert (Hsp' : spaced 501 (handled st ++ [h])).
  { rewrite Hold. apply spaced_snoc; [by rewrite <- Hold|done|by rewrite <- Hold]. }
  unfold poller_inv; cbn [seenTxHashes handled].
  rewrite !length_app in *; simpl.
  destruct (1000 <? length (seenTxHashes st) + 1) eqn:Hcap.
  - apply Nat.ltb_lt in Hcap.
    split; [exact (sublist_NoDup _ _ Hnd' (sublist_drop _ _))|].
    rewrite length_drop, length_app; simpl.
    split; [lia|]. split.
    { exists (old ++ take 500 (seenTxHashes st ++ [h])).
      rewrite <- app_assoc, take_drop, Hold. by rewrite <- app_assoc. }
    rewrite Hold, length_app.
    split; [lia|]. split; [lia|]. by rewrite <- Hold.
  - apply Nat.ltb_ge in Hcap.
    split; [done|]. rewrite length_app; simpl.
    split; [lia|]. split.
    { exists old. rewrite Hold. by rewrite <- app_assoc. }
    split; [intros Hle; rewrite Hfull by lia; done|].
    split; [lia|]. done.
Qed.

Lemma poller_inv_foldl (hs : list string) (st : Poller) :
  poller_inv st → poller_inv (foldl step st hs).
Proof.
  revert st. induction hs as [|h hs IH]; intros st Hinv; [done|].
  simpl. apply IH. by apply poller_inv_step.
Qed.

Lemma poller_inv_run (hs : list string) : poller_inv (run hs).
Proof. apply poller_inv_foldl, poller_inv_init. Qed.

End DedupFacts.

(** ** C3 *)

Section DedupClaim.
Import Dedup.

(** C3, counterexample.  The claim as the specification states it fails:
    after 1001 distinct hashes the first one has been evicted, and handing it
    to the poller again handles it a second time. *)
Lemma handled_twice_after_eviction :
  ¬ (∀ hs : list string, NoDup (handled (run hs))).
Proof.
  intros Hclaim. specialize (Hclaim scenario).
  assert (Hfirst : handled (run scenario) !! 0 = Some (tx 0))
    by (vm_compute; reflexivity).
  assert (Hagain : handled (run scenario) !! 1001 = Some (tx 0))
    by (vm_compute; reflexivity).
  by pose proof (NoDup_lookup _ _ _ _ Hclaim Hfirst Hagain).
Qed.

(** C3, amended (deduplication).  In every run the seen-hash set has no
    duplicates and, after each activity, at most 1000 entries; a hash that is
    still in the set is not handled again, so two handlings of one hash are
    always more than 501 handlings apart, and no hash is handled twice while
    at most 1000 activities have been handled.  When adding a hash makes the
    set larger than 1000, exactly the 500 earliest-inserted hashes are
    removed: the 501 that stay were all inserted after every hash that was
    removed, and they keep their order.  Below the cap nothing is removed. *)
Theorem dedup_bounded_fifo :
  (∀ hs : list string,
     NoDup (seenTxHashes (run hs))
     ∧ length (seenTxHashes (run hs)) ≤ 1000
     ∧ spaced 501 (handled (run hs))
     ∧ (length (handled (run hs)) ≤ 1000 → NoDup (handled (run hs))))
  ∧ (∀ (st : Poller) (h : string), h ∈ seenTxHashes st → step st h = st)
  ∧ (∀ (st : Poller) (h : string),
       NoDup (seenTxHashes st) → h ∉ seenTxHashes st →
       length (seenTxHashes st) = 1000 →
       seenTxHashes (step st h) = drop 500 (seenTxHashes st ++ [h])
       ∧ length (seenTxHashes (step st h)) = 501
       ∧ seenTxHashes st ++ [h] =
         take 500 (seenTxHashes st) ++ seenTxHashes (step st h))
  ∧ (∀ (st : Poller) (h : string),
       NoDup (seenTxHashes st) → h ∉ seenTxHashes st →
       length (seenTxHashes st) < 1000 →
       seenTxHashes (step st h) = seenTxHashes st ++ [h]).
Proof.
  split; [|split; [|split]].
  - intros hs.
    destruct (poller_inv_run hs) as (Hnd & Hlen & _ & Hfull & _ & Hsp).
    split; [done|]. split; [done|]. split; [done|].
    intros Hle. by rewrite <- (Hfull Hle).
  - exact step_seen.
  - intros st h Hnd Hnew Hlen. rewrite step_new by done.
    cbn [seenTxHashes]. rewrite length_app, Hlen. simpl.
    split; [done|]. split.
    + rewrite length_drop, length_app, Hlen. simpl. lia.
    + rewrite <- (take_drop 500 (seenTxHashes st ++ [h])) at 1.
      f_equal. rewrite take_app_le by lia. done.
  - intros st h Hnd Hnew Hlen. rewrite step_new by done.
    cbn [seenTxHashes]. rewrite length_app. simpl.
    destruct (1000 <? length (seenTxHashes st) + 1) eqn:Hcap; [|done].
    apply Nat.ltb_lt in Hcap. lia.
Qed.

(** A hash repeated within a short run is handled once. *)
Lemma dedup_bounded_fifo_witness :
  length (handled (run ["0xa"; "0xb"; "0xa"])) ≤ 1000
  ∧ NoDup (handled (run ["0xa"; "0xb"; "0xa"]))
  ∧ handled (run ["0xa"; "0xb"; "0xa"]) = ["0xa"; "0xb"].
Proof.
  assert (Hlen : length (handled (run ["0xa"; "0xb"; "0xa"])) ≤ 1000)
    by (vm_compute; lia).
  split; [exact Hlen|]. split; [|reflexivity].
  exact (proj2 (proj2 (proj2 (proj1 dedup_bounded_fifo
                                    ["0xa"; "0xb"; "0xa"]))) Hlen).
Defined.

End DedupClaim.

(** ** docs/copy-trading-implementation.md: sorting *)

Section SortFacts.
Import Poller.
#[local] Open Scope Z_scope.

Lemma insert_sorted_perm {A : Type} (cmp : A → A → Z) (x : A) (l : list A) :
  insert_sorted cmp x l ≡ₚ x :: l.
Proof.
  induction l as [|y l IH]; simpl; [done|].
  destruct (cmp x y <=? 0); [done|].
  rewrite IH. apply Permutation_swap.
Qed.

Lemma sort_perm {A : Type} (cmp : A → A → Z) (l : list A) : sort cmp l ≡ₚ l.
Proof.
  unfold sort. induction l as [|x l IH]; simpl; [done|].
  rewrite insert_sorted_perm. by rewrite IH.
Qed.

Lemma insert_sorted_newest_first (x : Activity) (l : list Activity) :
  StronglySorted newest_first l →
  StronglySorted newest_first (insert_sorted by_timestamp x l).
Proof.
  induction 1 as [|y l Hl IH Hy]; simpl.
  - repeat constructor.
  - unfold by_timestamp at 1.
    destruct (timestamp y - timestamp x <=? 0) eqn:Hc.
    + apply Z.leb_le in Hc. constructor; [by constructor|].
      constructor; [unfold newest_first; lia|].
      eapply Forall_impl; [exact Hy|]. unfold newest_first. simpl. lia.
    + apply Z.leb_gt in Hc. constructor; [exact IH|].
      rewrite insert_sorted_perm. constructor; [unfold newest_first; lia|done].
Qed.

Lemma sort_newest_first (l : list Activity) :
  StronglySorted newest_first (sort by_timestamp l).
Proof.
  unfold sort. induction l as [|x l IH]; simpl; [constructor|].
  by apply insert_sorted_newest_first.
Qed.

(** The sort is stable: activities with the same timestamp keep their
    order. *)
Lemma insert_sorted_stable (t : Z) (x : Activity) (l : list Activity) :
  filter (λ a, timestamp a = t) (insert_sorted by_timestamp x l) =
  filter (λ a, timestamp a = t) (x :: l).
Proof.
  induction l as [|y l IH]; simpl; [done|].
  unfold by_timestamp at 1.
  destruct (timestamp y - timestamp x <=? 0) eqn:Hc; [done|].
  apply Z.leb_gt in Hc.
  rewrite (filter_cons _ y), IH, !filter_cons.
  destruct (decide (timestamp y = t)), (decide (timestamp x = t)); try done.
  lia.
Qed.

Lemma sort_stable (t : Z) (l : list Activity) :
  filter (λ a, timestamp a = t) (sort by_timestamp l) =
  filter (λ a, timestamp a = t) l.
Proof.
  unfold sort. induction l as [|x l IH]; simpl; [done|].
  rewrite insert_sorted_stable, !filter_cons, IH. done.
Qed.

Lemma NoDup_fmap_inj_on {A B : Type} (f : A → B) (l : list A) (x y : A) :
  NoDup (f <$> l) → x ∈ l → y ∈ l → f x = f y → x = y.
Proof.
  induction l as [|a l IH]; intros Hnd Hx Hy Hf; [by apply elem_of_nil in Hx|].
  rewrite fmap_cons in Hnd. apply NoDup_cons in Hnd as [Ha Hnd].
  apply elem_of_cons in Hx as [->|Hx]; apply elem_of_cons in Hy as [->|Hy].
  - done.
  - destruct Ha. rewrite Hf. by apply list_elem_of_fmap_2.
  - destruct Ha. rewrite <- Hf. by apply list_elem_of_fmap_2.
  - by apply IH.
Qed.

(** When no two activities share a timestamp, the order after the sort does
    not depend on the order in which the wallets' answers were put
    together. *)
Lemma sort_order_independent (l1 l2 : list Activity) :
  l1 ≡ₚ l2 → NoDup (timestamp <$> l1) →
  sort by_timestamp l1 = sort by_timestamp l2.
Proof.
  intros Hperm Hnd.
  apply (StronglySorted_unique_strong newest_first);
    [|apply sort_newest_first|apply sort_newest_first
     |by rewrite !sort_perm].
  intros x1 x2 Hx1 Hx2. unfold newest_first. intros H12 H21.
  rewrite sort_perm in Hx1. rewrite sort_perm, <- Hperm in Hx2.
  apply (NoDup_fmap_inj_on timestamp l1); [done..|lia].
Qed.

End SortFacts.

(** ** C4 *)

Section PollOrderClaim.
Import Poller.
#[local] Open Scope Z_scope.

(** C4, counterexample.  The claim as the specification states it fails:
    the comparator is [b.timestamp - a.timestamp], so the older activity of
    W1 comes after the newer one of W2. *)
Lemma poll_result_not_oldest_first :
  ¬ (∀ (getActivity : string → Z → Outcome string (list Activity))
       (now lastCheckTimestamp : Z) (targetWallets : list string)
       (acts : list Activity),
       (pollTargetWallets getActivity now lastCheckTimestamp targetWallets).1
       = Returns acts →
       StronglySorted oldest_first acts).
Proof.
  intros Hclaim.
  specialize (Hclaim both_answer 300 0 ["W1"; "W2"] [act2; act1] eq_refl).
  apply StronglySorted_inv in Hclaim as [_ Hhd].
  apply Forall_cons in Hhd as [Hhd _].
  unfold oldest_first in Hhd. simpl in Hhd. lia.
Qed.

(** C4, amended (order of a tick's activities).  When every wallet's query
    answers, [pollTargetWallets] (and [pollSmartMoneyTrades]) returns the
    answers flattened into one list and sorted by timestamp, newest first;
    the sort is stable and only reorders (the result is a permutation of the
    flattened answers), and the timer callback hands the BUY activities to
    [executeCopyTrade] in that order.  So two runs that observe the same
    activities, no two of them with the same timestamp, process them in the
    same order, however the answers were put together. *)
Theorem poll_result_newest_first :
  (∀ (getActivity : string → Z → Outcome string (list Activity))
     (now lastCheckTimestamp : Z) (targetWallets : list string)
     (results : list (list Activity)),
     promise_all ((λ w, getActivity w lastCheckTimestamp) <$> targetWallets)
     = Returns results →
     ∃ acts,
       pollTargetWallets getActivity now lastCheckTimestamp targetWallets
       = (Returns acts, now)
       ∧ pollSmartMoneyTrades getActivity (lastCheckTimestamp + 5) targetWallets
         = Returns acts
       ∧ acts ≡ₚ concat results
       ∧ StronglySorted newest_first acts
       ∧ (∀ t, filter (λ a, timestamp a = t) acts
               = filter (λ a, timestamp a = t) (concat results))
       ∧ (∀ executeCopyTrade,
            (∀ a, ∃ u, executeCopyTrade a = Returns u) →
            delivered (tick getActivity executeCopyTrade now
                         lastCheckTimestamp targetWallets)
            = filter (λ a, side a = BUY) acts))
  ∧ (∀ l1 l2 : list Activity,
       l1 ≡ₚ l2 → NoDup (timestamp <$> l1) →
       sort by_timestamp l1 = sort by_timestamp l2).
Proof.
  split; [|exact sort_order_independent].
  intros getActivity now lc wallets results Hall.
  exists (sort by_timestamp (concat results)).
  assert (Hpoll : pollTargetWallets getActivity now lc wallets
                  = (Returns (sort by_timestamp (concat results)), now)).
  { unfold pollTargetWallets. cbv zeta. by rewrite Hall. }
  split; [exact Hpoll|]. split.
  { unfold pollSmartMoneyTrades. cbv zeta.
    replace (lc + 5 - 5) with lc by lia. by rewrite Hall. }
  split; [apply sort_perm|].
  split; [apply sort_newest_first|]. split; [intros t; apply sort_stable|].
  intros exec Hexec. unfold tick. rewrite Hpoll. cbn [fst snd].
  assert (Hcopy : ∀ l, copyAll exec l = (filter (λ a, side a = BUY) l, None)).
  { induction l as [|a l IH]; [done|]. cbn [copyAll]. rewrite filter_cons.
    destruct (decide (side a = BUY)) as [Hside|Hside].
    - rewrite Hside. destruct (Hexec a) as [u ->]. by rewrite IH.
    - destruct (side a); [done|]. by rewrite IH. }
  by rewrite Hcopy.
Qed.

(** The scenario: both wallets answer; the result is a reordering of the
    two activities with the newer one first. *)
Lemma poll_result_newest_first_witness :
  promise_all ((λ w, both_answer w 0) <$> ["W1"; "W2"]) = Returns [[act1]; [act2]]
  ∧ ∃ acts,
      pollTargetWallets both_answer 300 0 ["W1"; "W2"] = (Returns acts, 300)
      ∧ acts ≡ₚ [act1; act2]
      ∧ StronglySorted newest_first acts.
Proof.
  split; [reflexivity|].
  destruct (proj1 poll_result_newest_first both_answer 300 0 ["W1"; "W2"]
              [[act1]; [act2]] eq_refl)
    as (acts & Hpoll & _ & Hperm & Hsorted & _).
  exists acts. split; [exact Hpoll|]. split; [exact Hperm|]. exact Hsorted.
Defined.

End PollOrderClaim.

(** ** C5 *)

Section PollFailureClaim.
Import Poller.

Lemma promise_all_throws {E A : Type} (ps : list (Outcome E A)) (e : E) :
  Throws e ∈ ps → ∃ e', promise_all ps = Throws e'.
Proof.
  induction ps as [|p ps IH]; intros Hin; [by apply elem_of_nil in Hin|].
  apply elem_of_cons in Hin as [<-|Hin]; [by eexists|].
  destruct p as [a|e0]; [|by eexists]. simpl.
  destruct (IH Hin) as [e' ->]. by eexists.
Qed.

(** C5 (per-wallet failure isolation), as the code has it.  When one
    wallet's query fails, [Promise.all] rejects, nothing is handed to [executeCopyTrade] in that tick (the answers
    of the other wallets are dropped), the error is logged and not
    propagated, and [lastCheckTimestamp] stays where it was.  On the
    scenario: W1 fails, W2's activity is not delivered. *)
Theorem tick_drops_all_on_one_failure :
  (∀ (getActivity : string → Z → Outcome string (list Activity))
     (executeCopyTrade : Activity → Outcome string ())
     (now lastCheckTimestamp : Z) (targetWallets : list string)
     (wallet e : string),
     wallet ∈ targetWallets →
     getActivity wallet lastCheckTimestamp = Throws e →
     ∃ e',
       tick getActivity executeCopyTrade now lastCheckTimestamp targetWallets
       = mkTick [] (Some e') lastCheckTimestamp)
  ∧ tick w1_fails (λ _, Returns ()) 300 0 ["W1"; "W2"]
    = mkTick [] (Some "HTTP 503") 0
  ∧ tick both_answer (λ _, Returns ()) 300 0 ["W1"; "W2"]
    = mkTick [act2; act1] None 300.
Proof.
  split; [|split; reflexivity].
  intros getActivity exec now lc wallets wallet e Hin Hfail.
  destruct (promise_all_throws
              ((λ w, getActivity w lc) <$> wallets) e) as [e' He'].
  { rewrite <- Hfail. by apply (list_elem_of_fmap_2 (λ w, getActivity w lc)). }
  exists e'. unfold tick, pollTargetWallets. cbv zeta. by rewrite He'.
Qed.

End PollFailureClaim.


(** ** C9 *)

Section RelayerClaim.
Import RelayerService.

Lemma relay_ok (client : RelayClient) (what : string) (txs : list Call) :
  let r := relay client what txs in
  result_ok (execute client txs) (success r) (txHash r) (errorMessage r).
Proof.
  unfold relay, result_ok, obtained.
  destruct (execute client txs) as [[[[tx|]|e]]|e]; simpl.
  2-4: (split; [done|]); (split; [eauto|]); done.
  destruct (bool_decide (state tx = STATE_FAILED)) eqn:Hf; simpl.
  - apply bool_decide_eq_true in Hf.
    split; [done|]. split; [eauto|]. done.
  - apply bool_decide_eq_false in Hf.
    split; [eauto|]. split; [done|]. intros Hall. destruct Hf. by apply Hall.
Qed.

Lemma deploySafe_ok (client : RelayClient) :
  let r := deploySafe client in
  result_ok (deploy client) (deploySuccess r) (deployTxHash r)
            (deployErrorMessage r)
  ∧ (deploySuccess r = true →
     ∃ tx, obtained (deploy client) = Some tx ∧ safeAddress r = to tx
           ∧ to tx ≠ "")
  ∧ (deploySuccess r = false → safeAddress r = "").
Proof.
  unfold deploySafe, result_ok, obtained.
  destruct (deploy client) as [[[[tx|]|e]]|e]; simpl.
  2-4: (split; [(split; [done|]); (split; [eauto|]); done|]); done.
  destruct (bool_decide (state tx = STATE_FAILED)) eqn:Hf; simpl.
  - apply bool_decide_eq_true in Hf.
    split; [|done]. split; [done|]. split; [eauto|]. done.
  - apply bool_decide_eq_false in Hf.
    destruct (bool_decide (to tx = "")) eqn:Hto; simpl.
    + split; [|done]. split; [done|]. split; [eauto|]. done.
    + apply bool_decide_eq_false in Hto.
      split; [|split; [eauto|done]].
      split; [eauto|]. split; [done|]. intros Hall. destruct Hf. by apply Hall.
Qed.

(** C9 (the relayer operations return, they never throw on the relay
    client's account).  Whatever the relay client does (the call throws,
    [wait()] throws, there is no transaction, or the transaction is FAILED or
    in any other state), each of [deploySafe], [approveUsdc], [split],
    [merge], [redeem] and [executeBatch] returns a result; success = true
    only if a transaction was obtained whose state is not FAILED, and then
    the result carries its [transactionHash] (and, for [deploySafe], its
    non-empty [to] as the Safe address); a thrown value, a missing
    transaction and a FAILED transaction all give success = false with an
    error message.  For the four operations that encode calldata, [data] is
    the calldata that was encoded. *)
Theorem relayer_operations_total (USDC_CONTRACT CTF_CONTRACT : string)
    (client : RelayClient) (data : string) (transactions : list Call) :
  (let r := deploySafe client in
   result_ok (deploy client) (deploySuccess r) (deployTxHash r)
             (deployErrorMessage r)
   ∧ (deploySuccess r = true →
      ∃ tx, obtained (deploy client) = Some tx ∧ safeAddress r = to tx
            ∧ to tx ≠ "")
   ∧ (deploySuccess r = false → safeAddress r = ""))
  ∧ (∃ r, approveUsdc USDC_CONTRACT client (Returns data) = Returns r
          ∧ result_ok (execute client [mkCall USDC_CONTRACT "0" data])
                      (success r) (txHash r) (errorMessage r))
  ∧ (∃ r, split CTF_CONTRACT client (Returns data) = Returns r
          ∧ result_ok (execute client [mkCall CTF_CONTRACT "0" data])
                      (success r) (txHash r) (errorMessage r))
  ∧ (∃ r, merge CTF_CONTRACT client (Returns data) = Returns r
          ∧ result_ok (execute client [mkCall CTF_CONTRACT "0" data])
                      (success r) (txHash r) (errorMessage r))
  ∧ (∃ r, redeem CTF_CONTRACT client (Returns data) = Returns r
          ∧ result_ok (execute client [mkCall CTF_CONTRACT "0" data])
                      (success r) (txHash r) (errorMessage r))
  ∧ (let r := executeBatch client transactions in
     result_ok (execute client transactions)
               (success r) (txHash r) (errorMessage r)).
Proof.
  split; [apply deploySafe_ok|].
  repeat split_and; try (eexists; split; [reflexivity|]); apply relay_ok.
Qed.

(** The calldata is encoded before the [try] block: an argument that ethers
    cannot encode makes the operation throw. *)
Lemma encoding_error_propagates (USDC_CONTRACT CTF_CONTRACT : string)
    (client : RelayClient) (e : Thrown) :
  approveUsdc USDC_CONTRACT client (Throws e) = Throws e
  ∧ split CTF_CONTRACT client (Throws e) = Throws e
  ∧ merge CTF_CONTRACT client (Throws e) = Throws e
  ∧ redeem CTF_CONTRACT client (Throws e) = Throws e.
Proof. done. Qed.

(** Scenarios: a rejected call, a FAILED transaction, a mined one. *)
Lemma relayer_scenarios :
  executeBatch (answering (Throws (ErrorObject "rate limited"))) []
  = mkRelayerResult false None (Some "rate limited")
  ∧ executeBatch
      (answering (Returns (mkResponse (Returns (Some
         (mkRelayerTransaction STATE_FAILED "0xdead" "0x5afe")))))) []
    = mkRelayerResult false None (Some "Batch execution failed: STATE_FAILED")
  ∧ executeBatch (answering (Returns (mkResponse (Returns None)))) []
    = mkRelayerResult false None (Some "Batch execution failed: No transaction")
  ∧ deploySafe
      (answering (Returns (mkResponse (Returns (Some
         (mkRelayerTransaction STATE_MINED "0xbeef" "0x5afe"))))))
    = mkSafeDeployResult true "0x5afe" (Some "0xbeef") None.
Proof. done. Qed.

End RelayerClaim.

Section RelayerScenario.
Import RelayerService.

(** A mined transaction: [executeBatch] succeeds and carries its hash. *)
Lemma relayer_operations_total_witness :
  success
    (executeBatch
       (answering (Returns (mkResponse (Returns (Some
          (mkRelayerTransaction STATE_MINED "0xbeef" "0x5afe")))))) []) = true
  ∧ ∃ tx,
      obtained (Returns (mkResponse (Returns (Some
        (mkRelayerTransaction STATE_MINED "0xbeef" "0x5afe"))))) = Some tx
      ∧ state tx ≠ STATE_FAILED
      ∧ txHash
          (executeBatch
             (answering (Returns (mkResponse (Returns (Some
                (mkRelayerTransaction STATE_MINED "0xbeef" "0x5afe")))))) [])
        = Some (transactionHash tx).
Proof.
  split; [reflexivity|].
  exact (proj1 (proj2 (proj2 (proj2 (proj2 (proj2
           (relayer_operations_total "0xusdc" "0xctf"
              (answering (Returns (mkResponse (Returns (Some
                 (mkRelayerTransaction STATE_MINED "0xbeef" "0x5afe"))))))
              "0x" []))))))
         eq_refl).
Defined.

End RelayerScenario.

(** ** C10 *)

Section DecoderFacts.
Import CalldataDecoder.

Lemma lower_char_not_upper (c : ascii) : is_upper (lower_char c) = false.
Proof.
  unfold lower_char. destruct (is_upper c) eqn:Hu; [|done].
  unfold is_upper in *. apply andb_true_iff in Hu as [Hlo Hhi].
  apply Nat.leb_le in Hlo, Hhi.
  rewrite nat_ascii_embedding by lia.
  apply andb_false_iff. right. apply Nat.leb_gt. lia.
Qed.

Lemma toLowerCase_lowercase (s : string) : lowercase (toLowerCase s).
Proof.
  unfold lowercase. induction s as [|c s IH]; [done|]. simpl.
  by rewrite lower_char_not_upper, IH.
Qed.

Lemma pretty_N_char_digit (x : N) : is_digit (pretty_N_char x) = true.
Proof. unfold pretty_N_char. by repeat case_match. Qed.

Lemma pretty_N_go_digits (x : N) : ∀ s,
  string_forall is_digit s = true →
  string_forall is_digit (pretty_N_go x s) = true.
Proof.
  induction (N.lt_wf_0 x) as [x _ IH]; intros s Hs.
  destruct (decide (x = 0%N)) as [->|Hx]; [by rewrite pretty_N_go_0|].
  rewrite pretty_N_go_step by lia.
  apply IH; [apply N.div_lt; lia|].
  simpl. by rewrite pretty_N_char_digit, Hs.
Qed.

Lemma pretty_N_go_nonempty (x : N) : ∀ s, s ≠ "" → pretty_N_go x s ≠ "".
Proof.
  induction (N.lt_wf_0 x) as [x _ IH]; intros s Hs.
  destruct (decide (x = 0%N)) as [->|Hx]; [by rewrite pretty_N_go_0|].
  rewrite pretty_N_go_step by lia.
  apply IH; [apply N.div_lt; lia|done].
Qed.

Lemma toString_decimal (n : N) : decimal (toString n).
Proof.
  unfold decimal, toString, pretty, pretty_N.
  destruct (decide (n = 0%N)) as [->|Hn]; [done|].
  split; [|by apply pretty_N_go_digits].
  rewrite pretty_N_go_step by lia. by apply pretty_N_go_nonempty.
Qed.

Lemma decodeOrder_normalised (raw : RawOrder) :
  Forall lowercase (order_addresses (decodeOrder raw))
  ∧ Forall decimal (order_numbers (decodeOrder raw)).
Proof.
  split; repeat constructor;
    first [apply toLowerCase_lowercase | apply toString_decimal].
Qed.

End DecoderFacts.

Section DecoderClaim.
Import CalldataDecoder.
Variable decodeFunctionData : string → Outcome string RawMatchOrders.

(** C10 (decoding never throws, and normalises what it returns).  For every
    input string and every behaviour of the ABI decoder,
    [decodeMatchOrdersCalldata] returns [null] or a decoded result; it
    returns [null] when the input does not start with [0x2287e350] and when
    the ABI decoder throws; a result that is not [null] comes from an input
    with the selector that the ABI decoder accepted, every maker, signer and
    taker address in it is lower-case, and its token ids, amounts and fill
    amounts are the decimal digits of the decoded numbers. *)
Theorem decode_total_and_normalised (data : string) :
  (decodeMatchOrdersCalldata decodeFunctionData data = None
   ∨ ∃ d, decodeMatchOrdersCalldata decodeFunctionData data = Some d)
  ∧ (String.prefix MATCH_ORDERS_SELECTOR data = false →
     decodeMatchOrdersCalldata decodeFunctionData data = None)
  ∧ (∀ e, decodeFunctionData data = Throws e →
     decodeMatchOrdersCalldata decodeFunctionData data = None)
  ∧ (∀ d, decodeMatchOrdersCalldata decodeFunctionData data = Some d →
     String.prefix MATCH_ORDERS_SELECTOR data = true
     ∧ (∃ raw, decodeFunctionData data = Returns raw
               ∧ takerOrder d = decodeOrder (rawTakerOrder raw)
               ∧ makerOrders d = decodeOrder <$> rawMakerOrders raw
               ∧ takerFillAmount d = toString (rawTakerFillAmount raw)
               ∧ makerFillAmounts d = toString <$> rawMakerFillAmounts raw)
     ∧ Forall lowercase (addresses d)
     ∧ Forall decimal (numbers d)).
Proof.
  unfold decodeMatchOrdersCalldata.
  destruct (String.prefix MATCH_ORDERS_SELECTOR data) eqn:Hp; simpl.
  2: { split; [by left|]. split; [done|]. split; [done|]. by intros d [=]. }
  destruct (decodeFunctionData data) as [raw|e] eqn:Hd; simpl.
  2: { split; [by left|]. split; [done|]. split; [done|]. by intros d [=]. }
  split; [right; eauto|]. split; [done|]. split; [done|].
  intros d [= <-]. split; [done|]. split; [by exists raw|].
  unfold addresses, numbers; cbn [takerOrder makerOrders takerFillAmount
                                  makerFillAmounts].
  split.
  - apply Forall_app. split; [apply decodeOrder_normalised|].
    apply Forall_bind, Forall_fmap, Forall_true. intros o.
    apply decodeOrder_normalised.
  - apply Forall_app. split; [apply decodeOrder_normalised|].
    apply Forall_app. split.
    + apply Forall_bind, Forall_fmap, Forall_true. intros o.
      apply decodeOrder_normalised.
    + constructor; [apply toString_decimal|].
      apply Forall_fmap, Forall_true. intros n. apply toString_decimal.
Qed.

End DecoderClaim.

Section DecoderScenario.
Import CalldataDecoder.

(** The scenario: the accepted calldata decodes to lower-case addresses and
    decimal amounts; anything else gives [null]. *)
Lemma decode_total_and_normalised_witness :
  decodeMatchOrdersCalldata decode_one "0x2287e350aa"
  = Some (mkDecodedMatchOrders (decodeOrder raw_order) [decodeOrder raw_order]
                               "50000000" ["100000000"])
  ∧ maker (decodeOrder raw_order) = "0xabcdef0123456789abcdef0123456789abcdef01"
  ∧ tokenId (decodeOrder raw_order) = "1234567890123456789"
  ∧ Forall lowercase
      (addresses (mkDecodedMatchOrders (decodeOrder raw_order)
                    [decodeOrder raw_order] "50000000" ["100000000"]))
  ∧ decodeMatchOrdersCalldata decode_one "0x2287e350ab" = None
  ∧ decodeMatchOrdersCalldata decode_one "0xa9059cbb00" = None.
Proof.
  assert (Hd : decodeMatchOrdersCalldata decode_one "0x2287e350aa"
               = Some (mkDecodedMatchOrders (decodeOrder raw_order)
                         [decodeOrder raw_order] "50000000" ["100000000"]))
    by (vm_compute; reflexivity).
  split; [exact Hd|]. split; [vm_compute; reflexivity|].
  split; [vm_compute; reflexivity|].
  split; [|split; vm_compute; reflexivity].
  exact (proj1 (proj2 (proj2 (proj2 (proj2 (proj2
           (decode_total_and_normalised decode_one "0x2287e350aa"))) _ Hd)))).
Defined.

End DecoderScenario.

(** ** relayer-service.ts and calldata-decoder.ts: further properties *)

Section RelayerSuccess.
Import RelayerService.

Lemma relay_success (client : RelayClient) (what : string) (txs : list Call) :
  success (relay client what txs) = true ↔
  ∃ tx, obtained (execute client txs) = Some tx ∧ state tx ≠ STATE_FAILED.
Proof.
  unfold relay, obtained, try_catch, await.
  destruct (execute client txs) as [response|e]; simpl.
  - destruct (wait response) as [[tx|]|e]; simpl.
    + case_bool_decide as Hst; simpl.
      * split; [done|]. intros (tx' & [= <-] & Hne). done.
      * split; [|done]. intros _. by exists tx.
    + split; [done|]. by intros (tx' & [=] & _).
    + split; [done|]. by intros (tx' & [=] & _).
  - split; [done|]. by intros (tx' & [=] & _).
Qed.

Lemma relay_success_result (client : RelayClient) (what : string) (txs : list Call)
    (tx : RelayerTransaction) :
  obtained (execute client txs) = Some tx → state tx ≠ STATE_FAILED →
  relay client what txs = mkRelayerResult true (Some (transactionHash tx)) None.
Proof.
  unfold relay, obtained, try_catch, await.
  destruct (execute client txs) as [response|e]; simpl; [|done].
  destruct (wait response) as [[tx'|]|e]; simpl; try done.
  intros [= ->] Hne. by rewrite bool_decide_false.
Qed.

(** The label of the error message does not change the outcome. *)
Lemma relay_label (client : RelayClient) (what what' : string)
    (txs : list Call) :
  success (relay client what txs) = success (relay client what' txs)
  ∧ txHash (relay client what txs) = txHash (relay client what' txs).
Proof.
  unfold relay, try_catch, await.
  destruct (execute client txs) as [response|e]; simpl; [|done].
  destruct (wait response) as [[tx|]|e]; simpl; try done.
  by case_bool_decide.
Qed.

(** X1.  A relayer operation reports success exactly when the relay client
    handed back a transaction whose state is not [STATE_FAILED]; the result
    is then [success] with that transaction's hash and no error message.
    [STATE_FAILED] is the only state that counts as a failure: a transaction
    that is [STATE_INVALID] (or still [STATE_NEW]) is reported as a success.
    [approveUsdc], [split], [merge] and [redeem] are [executeBatch] on one
    call with value 0, up to the wording of the error message; [deploySafe]
    asks in addition that the transaction names the Safe ([to] is not
    empty). *)
Theorem relayer_success_iff (USDC_CONTRACT CTF_CONTRACT : string)
    (client : RelayClient) (data : string) (transactions : list Call) :
  (success (executeBatch client transactions) = true ↔
     ∃ tx, obtained (execute client transactions) = Some tx
           ∧ state tx ≠ STATE_FAILED)
  ∧ (∀ tx, obtained (execute client transactions) = Some tx →
     state tx ≠ STATE_FAILED →
     executeBatch client transactions
     = mkRelayerResult true (Some (transactionHash tx)) None)
  ∧ (∀ hash safe,
       executeBatch
         (answering (Returns (mkResponse (Returns (Some
            (mkRelayerTransaction STATE_INVALID hash safe)))))) transactions
       = mkRelayerResult true (Some hash) None)
  ∧ (∃ r, approveUsdc USDC_CONTRACT client (Returns data) = Returns r
          ∧ success r
            = success (executeBatch client [mkCall USDC_CONTRACT "0" data])
          ∧ txHash r
            = txHash (executeBatch client [mkCall USDC_CONTRACT "0" data]))
  ∧ (∃ r, split CTF_CONTRACT client (Returns data) = Returns r
          ∧ success r
            = success (executeBatch client [mkCall CTF_CONTRACT "0" data])
          ∧ txHash r
            = txHash (executeBatch client [mkCall CTF_CONTRACT "0" data]))
  ∧ (∃ r, merge CTF_CONTRACT client (Returns data) = Returns r
          ∧ success r
            = success (executeBatch client [mkCall CTF_CONTRACT "0" data])
          ∧ txHash r
            = txHash (executeBatch client [mkCall CTF_CONTRACT "0" data]))
  ∧ (∃ r, redeem CTF_CONTRACT client (Returns data) = Returns r
          ∧ success r
            = success (executeBatch client [mkCall CTF_CONTRACT "0" data])
          ∧ txHash r
            = txHash (executeBatch client [mkCall CTF_CONTRACT "0" data]))
  ∧ (deploySuccess (deploySafe client) = true ↔
     ∃ tx, obtained (deploy client) = Some tx ∧ state tx ≠ STATE_FAILED
           ∧ to tx ≠ "").
Proof.
  split_and!.
  - apply relay_success.
  - intros tx Htx Hne. by apply relay_success_result.
  - intros hash safe. reflexivity.
  - eexists. split; [reflexivity|]. apply relay_label.
  - eexists. split; [reflexivity|]. apply relay_label.
  - eexists. split; [reflexivity|]. apply relay_label.
  - eexists. split; [reflexivity|]. apply relay_label.
  - unfold deploySafe, obtained, try_catch, await.
    destruct (deploy client) as [response|e]; simpl.
    + destruct (wait response) as [[tx|]|e]; simpl.
      * case_bool_decide as Hst; simpl.
        { split; [done|]. intros (tx' & [= <-] & Hne & _). done. }
        case_bool_decide as Hto; simpl.
        { split; [done|]. intros (tx' & [= <-] & _ & Hne). done. }
        split; [|done]. intros _. by exists tx.
      * split; [done|]. by intros (tx' & [=] & _).
      * split; [done|]. by intros (tx' & [=] & _).
    + split; [done|]. by intros (tx' & [=] & _).
Qed.
End RelayerSuccess.

Section SettlementFacts.
Import CalldataDecoder Settlement.

Lemma lower_char_idem (c : ascii) : lower_char (lower_char c) = lower_char c.
Proof.
  pose proof (lower_char_not_upper c) as Hc.
  unfold lower_char at 1. by rewrite Hc.
Qed.

Lemma toLowerCase_idem (s : string) : toLowerCase (toLowerCase s) = toLowerCase s.
Proof. induction s as [|c s IH]; simpl; [done|]. by rewrite lower_char_idem, IH. Qed.

Lemma toLowerCase_empty (s : string) : toLowerCase s = "" ↔ s = "".
Proof. destruct s; simpl; split; congruence. Qed.

Lemma add_elem_of (seen : list string) (h x : string) :
  x ∈ Dedup.add seen h ↔ x ∈ seen ∨ x = h.
Proof.
  unfold Dedup.add. destruct (Dedup.has seen h) eqn:Hh.
  - apply has_true in Hh. split; [by left|]. by intros [?| ->].
  - rewrite elem_of_app, list_elem_of_singleton. done.
Qed.

Lemma add_NoDup (seen : list string) (h : string) :
  NoDup seen → NoDup (Dedup.add seen h).
Proof.
  intros Hnd. unfold Dedup.add. destruct (Dedup.has seen h) eqn:Hh; [done|].
  apply has_false in Hh. apply NoDup_app. split_and!; [done| |apply NoDup_singleton].
  intros x Hx ->%list_elem_of_singleton. done.
Qed.

Lemma add_idem (seen : list string) (h : string) :
  Dedup.add (Dedup.add seen h) h = Dedup.add seen h.
Proof.
  unfold Dedup.add at 1.
  assert (Dedup.has (Dedup.add seen h) h = true) as ->; [|done].
  apply has_true, add_elem_of. by right.
Qed.

Lemma add_length (seen : list string) (h : string) :
  length (Dedup.add seen h) ≤ S (length seen).
Proof.
  unfold Dedup.add. destruct (Dedup.has seen h); [lia|].
  rewrite length_app. simpl. lia.
Qed.

Lemma add_head (seen : list string) (h x : string) :
  head seen = Some x → head (Dedup.add seen h) = Some x.
Proof.
  unfold Dedup.add. destruct (Dedup.has seen h); [done|].
  by destruct seen.
Qed.

Lemma addTraders_adds (seen : list string) (o : DecodedOrder) :
  addTraders seen o = Dedup.add (Dedup.add seen (maker o)) (signer o).
Proof.
  unfold addTraders. destruct (String.eqb (signer o) (maker o)) eqn:He; simpl.
  - apply String.eqb_eq in He. rewrite He. by rewrite add_idem.
  - done.
Qed.

Lemma foldl_addTraders (os : list DecodedOrder) : ∀ seen,
  foldl addTraders seen os
  = foldl Dedup.add seen (os ≫= λ o, [maker o; signer o]).
Proof.
  induction os as [|o os IH]; intros seen; simpl; [done|].
  by rewrite IH, addTraders_adds.
Qed.

Lemma foldl_add_NoDup (hs : list string) : ∀ seen,
  NoDup seen → NoDup (foldl Dedup.add seen hs).
Proof.
  induction hs as [|h hs IH]; intros seen Hnd; simpl; [done|].
  by apply IH, add_NoDup.
Qed.

Lemma foldl_add_elem_of (hs : list string) (x : string) : ∀ seen,
  x ∈ foldl Dedup.add seen hs ↔ x ∈ seen ∨ x ∈ hs.
Proof.
  induction hs as [|h hs IH]; intros seen; simpl.
  - rewrite elem_of_nil. tauto.
  - rewrite IH, add_elem_of, elem_of_cons. split; intros H; intuition auto.
Qed.

Lemma foldl_add_length (hs : list string) : ∀ seen,
  length (foldl Dedup.add seen hs) ≤ length seen + length hs.
Proof.
  induction hs as [|h hs IH]; intros seen; simpl; [lia|].
  pose proof (IH (Dedup.add seen h)). pose proof (add_length seen h). lia.
Qed.

Lemma foldl_add_head (hs : list string) (x : string) : ∀ seen,
  head seen = Some x → head (foldl Dedup.add seen hs) = Some x.
Proof.
  induction hs as [|h hs IH]; intros seen Hx; simpl; [done|].
  by apply IH, add_head.
Qed.

Lemma traders_length (d : DecodedMatchOrders) :
  length (traders d) = 2 * S (length (makerOrders d)).
Proof.
  unfold traders.
  assert (∀ os : list DecodedOrder,
            length (os ≫= λ o, [maker o; signer o]) = 2 * length os) as Hl.
  { induction os as [|o os IH]; [done|].
    rewrite bind_cons, length_app, IH. simpl. lia. }
  by rewrite Hl.
Qed.

Lemma traders_elem_of (d : DecodedMatchOrders) (a : string) :
  a ∈ traders d ↔
  ∃ o, o ∈ takerOrder d :: makerOrders d ∧ (a = maker o ∨ a = signer o).
Proof.
  unfold traders. rewrite list_elem_of_bind. split.
  - intros (o & Ha & Ho). exists o. split; [done|].
    apply elem_of_cons in Ha as [->|Ha]; [by left|].
    apply list_elem_of_singleton in Ha. by right.
  - intros (o & Ho & [->| ->]); exists o; (split; [|done]).
    + apply elem_of_cons. by left.
    + apply elem_of_cons. right. by apply list_elem_of_singleton.
Qed.

Lemma traders_addresses (d : DecodedMatchOrders) (a : string) :
  a ∈ traders d → a ∈ addresses d.
Proof.
  intros (o & Ho & Ha)%traders_elem_of.
  assert (a ∈ order_addresses o) as Hao.
  { unfold order_addresses. rewrite !elem_of_cons.
    destruct Ha as [->| ->]; auto. }
  unfold addresses. apply elem_of_app.
  apply elem_of_cons in Ho as [->|Ho]; [by left|right].
  apply list_elem_of_bind. by exists o.
Qed.

Section Decoded.
Variable decodeFunctionData : string → Outcome string RawMatchOrders.

Lemma decoded_lowercase (data : string) (d : DecodedMatchOrders) :
  decodeMatchOrdersCalldata decodeFunctionData data = Some d →
  Forall lowercase (addresses d).
Proof.
  unfold decodeMatchOrdersCalldata, try_catch.
  destruct (negb _); [done|].
  destruct (decodeFunctionData data) as [raw|e]; [|done].
  intros [= <-]. unfold addresses. cbn [takerOrder makerOrders].
  apply Forall_app. split; [apply decodeOrder_normalised|].
  apply Forall_forall. intros a (o & Ha & Ho)%list_elem_of_bind.
  apply list_elem_of_fmap in Ho as (raw' & -> & _).
  pose proof (decodeOrder_normalised raw') as [Hl _].
  by eapply Forall_forall in Hl.
Qed.

(** X2.  [extractTraderAddresses] returns the maker and the signer of the
    taker order and of every maker order, each address once, in the order of
    first appearance (so the list starts with the maker of the taker order);
    the test [signer !== maker] changes nothing, a set ignoring a second
    [add].  The [taker] field of an order is not read.  On the result of
    [decodeMatchOrdersCalldata] every address returned is lower-case. *)
Theorem extractTraderAddresses_unique (d : DecodedMatchOrders) :
  extractTraderAddresses d = foldl Dedup.add [] (traders d)
  ∧ NoDup (extractTraderAddresses d)
  ∧ (∀ a, a ∈ extractTraderAddresses d ↔
          ∃ o, o ∈ takerOrder d :: makerOrders d ∧ (a = maker o ∨ a = signer o))
  ∧ head (extractTraderAddresses d) = Some (maker (takerOrder d))
  ∧ length (extractTraderAddresses d) ≤ 2 * S (length (makerOrders d))
  ∧ (∀ data d', decodeMatchOrdersCalldata decodeFunctionData data = Some d' →
       Forall lowercase (extractTraderAddresses d')).
Proof.
  assert (∀ d, extractTraderAddresses d = foldl Dedup.add [] (traders d)) as Heq.
  { intros d0. unfold extractTraderAddresses, traders.
    rewrite foldl_addTraders, addTraders_adds. by rewrite bind_cons. }
  assert (∀ d a, a ∈ extractTraderAddresses d ↔ a ∈ traders d) as Hin.
  { intros d0 a. rewrite Heq, foldl_add_elem_of, elem_of_nil. tauto. }
  split_and!.
  - apply Heq.
  - rewrite Heq. apply foldl_add_NoDup, NoDup_nil_2.
  - intros a. rewrite Hin. apply traders_elem_of.
  - rewrite Heq. unfold traders. rewrite bind_cons. simpl.
    apply foldl_add_head, add_head. reflexivity.
  - rewrite Heq. pose proof (foldl_add_length (traders d) []) as Hl.
    rewrite traders_length in Hl. simpl in *. lia.
  - intros data d' Hd. apply Forall_forall. intros a Ha%Hin.
    apply traders_addresses in Ha.
    pose proof (decoded_lowercase data d' Hd) as Hl.
    by eapply Forall_forall in Hl.
Qed.
End Decoded.

(** X3.  [isSettlementTx] answers [true] exactly for a string that is, up to
    the case of its letters, the address of the CTF router or of the NegRisk
    router; it answers [false] for [null], [undefined] and the empty string,
    and two spellings of one address that differ only in case get the same
    answer. *)
Theorem isSettlementTx_routers (to : option string) :
  (isSettlementTx to = true ↔
   ∃ s, to = Some s
        ∧ (toLowerCase s = "0xe3f18acc55091e2c48d883fc8c8413319d4ab7b0"
           ∨ toLowerCase s = "0xb768891e3130f6df18214ac804d4db76c2c37730"))
  ∧ (∀ a b, toLowerCase a = toLowerCase b →
       isSettlementTx (Some a) = isSettlementTx (Some b))
  ∧ (∀ s, isSettlementTx (Some (toLowerCase s)) = isSettlementTx (Some s))
  ∧ isSettlementTx (Some CTF_ROUTER) = true
  ∧ isSettlementTx (Some NEG_RISK_ROUTER) = true
  ∧ isSettlementTx (Some "") = false
  ∧ isSettlementTx None = false.
Proof.
  assert (ROUTER_ADDRESSES =
          ["0xe3f18acc55091e2c48d883fc8c8413319d4ab7b0";
           "0xb768891e3130f6df18214ac804d4db76c2c37730"]) as Hr
    by (vm_compute; reflexivity).
  assert (∀ a b, toLowerCase a = toLowerCase b →
            isSettlementTx (Some a) = isSettlementTx (Some b)) as Hcase.
  { intros a b Hab. unfold isSettlementTx. rewrite Hab. f_equal.
    pose proof (toLowerCase_empty a) as Ha.
    pose proof (toLowerCase_empty b) as Hb. rewrite Hab in Ha.
    repeat case_bool_decide; tauto. }
  split_and!.
  - destruct to as [s|]; unfold isSettlementTx.
    + rewrite andb_true_iff, negb_true_iff, bool_decide_eq_false, has_true, Hr.
      rewrite !elem_of_cons, elem_of_nil. split.
      * intros (_ & Hs). exists s. split; [done|tauto].
      * intros (s' & [= <-] & Hs). split; [|tauto].
        intros ->. simpl in Hs. destruct Hs; discriminate.
    + split; [done|]. by intros (s & [=] & _).
  - exact Hcase.
  - intros s. apply Hcase, toLowerCase_idem.
  - vm_compute; reflexivity.
  - vm_compute; reflexivity.
  - reflexivity.
  - reflexivity.
Qed.

(** X4.  [decodeOrder] keeps seven of the thirteen fields of an order and
    loses nothing of them but the case of the letters of the addresses: two
    orders decode to the same result exactly when their makers, signers and
    takers are equal up to case and their token ids, maker amounts, taker
    amounts and sides are equal.  Salt, expiration, nonce, fee rate,
    signature type and signature play no part. *)
Theorem decodeOrder_kept_fields (a b : RawOrder) :
  decodeOrder a = decodeOrder b
  ↔ toLowerCase (rawMaker a) = toLowerCase (rawMaker b)
    ∧ toLowerCase (rawSigner a) = toLowerCase (rawSigner b)
    ∧ toLowerCase (rawTaker a) = toLowerCase (rawTaker b)
    ∧ rawTokenId a = rawTokenId b
    ∧ rawMakerAmount a = rawMakerAmount b
    ∧ rawTakerAmount a = rawTakerAmount b
    ∧ rawSide a = rawSide b.
Proof.
  unfold decodeOrder, toString. split.
  - intros [= Hm Hs Ht Hid%(inj pretty) Hma%(inj pretty) Hta%(inj pretty) Hsd].
    done.
  - intros (-> & -> & -> & -> & -> & -> & ->). done.
Qed.
End SettlementFacts.

(** ** crypto-copy-trade.ts: holdings and the report *)

Section CopyTradeReportFacts.
Import CryptoCopyTrade CopyTradeReport.
#[local] Open Scope Qc_scope.

Lemma Qc_sub_nonpos (a b : Qc) : a - b ≤ 0 ↔ a ≤ b.
Proof.
  rewrite (Qcle_minus_iff (a - b) 0), (Qcle_minus_iff a b).
  by replace (0 + - (a - b)) with (b + - a) by ring.
Qed.




Lemma updateHoldings_positive (scale : Qc) (h : gmap string (Position Qc))
    (trade : SmartMoneyTrade Qc) (result : OrderResult Qc) :
  positive h →
  (success result = true → side trade = BUY → tokenId trade ≠ "" →
   0 < copySize scale trade result) →
  positive (updateHoldings scale h trade result).
Proof.
  intros Hpos Hbuy. unfold updateHoldings.
  destruct (success result) eqn:Hs; simpl; [|done].
  case_bool_decide as Htok; simpl; [done|].
  destruct (side trade) eqn:Hside.
  - specialize (Hbuy eq_refl eq_refl Htok).
    destruct (h !! tokenId trade) as [cur|] eqn:Hcur.
    + apply map_Forall_insert_2; [|done]. simpl.
      pose proof (Hpos _ _ Hcur) as Hc. simpl in Hc.
      apply Qclt_le_trans with (shares cur); [done|].
      by apply Qc_le_add_r, Qclt_le_weak.
    + by apply map_Forall_insert_2.
  - destruct (h !! tokenId trade) as [cur|] eqn:Hcur; [|done].
    destruct (Qc_ltb 0 (shares cur)) eqn:Hgt; [|done].
    destruct (Qc_leb _ 0) eqn:Hle.
    + by apply map_Forall_delete.
    + apply map_Forall_insert_2; [|done]. simpl.
      apply Qcnot_le_lt. intros Hn. apply Qc_leb_true in Hn. simpl in Hle. congruence.
Qed.

Lemma foldl_sum {B : Type} (f : B → Qc) (l : list B) : ∀ a : Qc,
  foldl (λ sum e, sum + f e) a l = a + sumQc (f <$> l).
Proof.
  induction l as [|x l IH]; intros a.
  - rewrite fmap_nil, sumQc_nil. cbn [foldl]. ring.
  - cbn [foldl]. rewrite IH, fmap_cons, sumQc_cons. ring.
Qed.

Lemma run_positive (scale : Qc)
    (calls : list (SmartMoneyTrade Qc * OrderResult Qc)) : ∀ st : Script Qc,
  positive (holdings st) →
  Forall (λ call, success call.2 = true → side call.1 = BUY →
                  tokenId call.1 ≠ "" → 0 < copySize scale call.1 call.2) calls →
  positive (holdings (run scale st calls)).
Proof.
  induction calls as [|call calls IH]; intros st Hpos Hall; simpl; [done|].
  apply Forall_cons in Hall as [Hcall Hall].
  apply IH; [|done]. simpl. by apply updateHoldings_positive.
Qed.

Lemma getPositionSharesForToken_positive (h : gmap string (Position Qc))
    (tok : string) :
  positive h → (0 < getPositionSharesForToken h tok ↔ is_Some (h !! tok)).
Proof.
  intros Hpos. unfold getPositionSharesForToken.
  destruct (h !! tok) as [p|] eqn:Hp; simpl.
  - split; [by eexists|]. intros _. exact (Hpos _ _ Hp).
  - split; [|by intros [? [=]]]. intros Hlt. by apply Qclt_not_eq in Hlt.
Qed.

(** X5.  After any sequence of [onTrade] calls in which every executed BUY on
    a token has a positive copy size, every position in [holdings] has a
    positive number of shares (a SELL that uses a position up deletes it).
    So [getPositionSharesForToken] is positive exactly for the tokens in the
    map, and the filter [p.shares > 0] of [shutdown] drops nothing: the open
    positions are all the entries of [holdings], their count is the size of
    the map, and the value after redemption is the sum of the shares held. *)
Theorem open_positions_are_all_holdings (scale : Qc)
    (calls : list (SmartMoneyTrade Qc * OrderResult Qc)) :
  Forall (λ call, success call.2 = true → side call.1 = BUY →
                  tokenId call.1 ≠ "" → 0 < copySize scale call.1 call.2) calls →
  let st := run scale script0 calls in
  (∀ tok p, holdings st !! tok = Some p → 0 < shares p)
  ∧ (∀ tok, 0 < getPositionSharesForToken (holdings st) tok
            ↔ is_Some (holdings st !! tok))
  ∧ (∀ entries, entries ≡ₚ map_to_list (holdings st) →
       openPositions entries = entries
       ∧ unredeemedCount entries = base.size (holdings st)
       ∧ valueAfterRedeemed entries = sumQc ((λ e, shares e.2) <$> entries)).
Proof.
  intros Hall st.
  assert (positive (holdings st)) as Hpos.
  { apply run_positive; [|done]. apply map_Forall_empty. }
  split_and!.
  - intros tok p Hp. exact (Hpos _ _ Hp).
  - intros tok. by apply getPositionSharesForToken_positive.
  - intros entries Hperm.
    assert (openPositions entries = entries) as Hopen.
    { unfold openPositions. apply forallb_filter_id, forallb_forall.
      intros [tok p] Hin%list_elem_of_In. rewrite Hperm in Hin.
      apply elem_of_map_to_list in Hin. simpl.
      apply Qc_ltb_true. exact (Hpos _ _ Hin). }
    split_and!.
    + done.
    + unfold unredeemedCount. rewrite Hopen, Hperm.
      apply length_map_to_list.
    + unfold valueAfterRedeemed. rewrite Hopen, foldl_sum. simpl. ring.
Qed.

Lemma updateHoldings_sell (scale : Qc) (h : gmap string (Position Qc))
    (trade : SmartMoneyTrade Qc) (result : OrderResult Qc)
    (cur : Position Qc) :
  success result = true → tokenId trade ≠ "" → side trade = SELL →
  h !! tokenId trade = Some cur → 0 < shares cur →
  let sold := copySize scale trade result in
  updateHoldings scale h trade result =
  if Qc_leb (shares cur - sold) 0 then delete (tokenId trade) h
  else <[tokenId trade :=
           mkPosition (shares cur - sold)
                      (costBasis cur - costBasis cur * Qc_min 1 (sold / shares cur))
                      (positionSlug cur)]> h.
Proof.
  intros Hs Htok Hside Hcur Hpos sold.
  unfold updateHoldings. rewrite Hs, Hside, Hcur. simpl.
  rewrite bool_decide_false by done. simpl.
  by assert (Qc_ltb 0 (shares cur) = true) as -> by by apply Qc_ltb_true.
Qed.

Lemma updateHoldings_open (scale : Qc) (h : gmap string (Position Qc))
    (trade : SmartMoneyTrade Qc) (result : OrderResult Qc) :
  success result = true → tokenId trade ≠ "" → side trade = BUY →
  h !! tokenId trade = None →
  updateHoldings scale h trade result =
  <[tokenId trade :=
      mkPosition (copySize scale trade result) (copyValue scale trade result)
                 (if bool_decide (marketSlug trade = "") then "unknown"
                  else marketSlug trade)]> h.
Proof.
  intros Hs Htok Hside Hnone.
  unfold updateHoldings. rewrite Hs, Hside, Hnone. simpl.
  by rewrite bool_decide_false by done.
Qed.


(** X8.  An executed BUY that opens a position, followed by an executed SELL
    of the same token for at least as many shares, leaves [holdings] as they
    were before the BUY. *)
Theorem buy_then_sell_restores_holdings (scale : Qc)
    (h : gmap string (Position Qc)) (buy sell : SmartMoneyTrade Qc)
    (bought sold : OrderResult Qc) :
  h !! tokenId buy = None → tokenId buy ≠ "" → tokenId sell = tokenId buy →
  side buy = BUY → side sell = SELL →
  success bought = true → success sold = true →
  0 < copySize scale buy bought →
  copySize scale buy bought ≤ copySize scale sell sold →
  updateHoldings scale (updateHoldings scale h buy bought) sell sold = h.
Proof.
  intros Hnone Htok Hsame Hbuy Hsell Hb Hs Hpos Hle.
  rewrite (updateHoldings_open scale h buy bought) by done.
  erewrite (updateHoldings_sell scale _ sell sold); [|done|congruence|done| |].
  2: { rewrite Hsame. apply lookup_insert_eq. }
  2: { done. }
  simpl.
  assert (Qc_leb (copySize scale buy bought - copySize scale sell sold) 0
          = true) as ->.
  { apply Qc_leb_true. by apply (proj2 (Qc_sub_nonpos _ _)). }
  rewrite Hsame. by apply delete_insert_id.
Qed.





Lemma open_positions_are_all_holdings_witness :
  Forall (λ call, success call.2 = true → side call.1 = BUY →
                  tokenId call.1 ≠ "" → 0 < copySize (qc 3 10) call.1 call.2)
         scenario_calls
  ∧ unredeemedCount (map_to_list (holdings (run (qc 3 10) script0 scenario_calls)))
    = 1%nat
  ∧ valueAfterRedeemed
      (map_to_list (holdings (run (qc 3 10) script0 scenario_calls)))
    = qc 9 5.
Proof.
  assert (Forall (λ call, success call.2 = true → side call.1 = BUY →
                  tokenId call.1 ≠ "" → 0 < copySize (qc 3 10) call.1 call.2)
         scenario_calls) as Hall.
  { repeat constructor; simpl; intros; try done; compute_done. }
  split; [exact Hall|].
  destruct (open_positions_are_all_holdings (qc 3 10) scenario_calls Hall)
    as (_ & _ & Hentries).
  destruct (Hentries _ (reflexivity _)) as (_ & -> & ->).
  split; compute_done.
Defined.

Lemma buy_then_sell_restores_holdings_witness :
  updateHoldings (qc 3 10)
    (updateHoldings (qc 3 10) ∅ (tradeOf BUY (qc 10 1) (qc 1 2) "T") filled_order)
    (tradeOf SELL (qc 10 1) (qc 3 5) "T") filled_order = ∅.
Proof.
  apply buy_then_sell_restores_holdings; try done; compute_done.
Defined.
End CopyTradeReportFacts.

(** ** wallet-deepdive.ts: the report *)

(** Linear arithmetic on [Qc], by [lra] on the underlying rationals: the
    facts about the order of [Qc] are kept, everything else is dropped. *)
Ltac qc_collect :=
  repeat match goal with
  | H : @eq Qc _ _ |- _ => revert H
  | H : ¬ (@eq Qc _ _) |- _ => revert H
  | H : Qcle _ _ |- _ => revert H
  | H : Qclt _ _ |- _ => revert H
  | H : ¬ (Qcle _ _) |- _ => revert H
  | H : ¬ (Qclt _ _) |- _ => revert H
  end;
  repeat match goal with H : _ |- _ => clear H end;
  intros.

Ltac qc_to_q :=
  repeat match goal with
  | H : @eq Qc ?x ?y |- _ =>
      let H' := fresh in
      assert (H' : (this x == this y)%Q) by (rewrite H; reflexivity); clear H
  | H : ¬ (@eq Qc ?x ?y) |- _ =>
      let H' := fresh in
      assert (H' : ¬ (this x == this y)%Q)
        by (intros ?; apply H; by apply Qc_is_canon); clear H
  | H : ¬ (_ ≤ _)%Qc |- _ => apply Qcnot_le_lt in H
  | H : ¬ (_ < _)%Qc |- _ => apply Qcnot_lt_le in H
  | |- ¬ (_ ≤ _)%Qc => apply Qclt_not_le
  | |- ¬ (_ < _)%Qc => apply Qcle_not_lt
  | |- @eq Qc _ _ => apply Qc_is_canon
  end;
  unfold Qcle, Qclt, Qcminus, Qcplus, Qcopp, Qcmult, qc in *;
  cbn [this Q2Qc] in *;
  repeat setoid_rewrite Qred_correct;
  repeat match goal with
  | H : context [Qred _] |- _ => setoid_rewrite Qred_correct in H
  end.

Ltac qc_lra := qc_collect; qc_to_q; lra.

Section SortGeneric.
Import Poller.
#[local] Open Scope Z_scope.
Context {A : Type} (cmp : A → A → Z).

Lemma insert_sorted_elem_of (x y : A) (l : list A) :
  y ∈ insert_sorted cmp x l ↔ y = x ∨ y ∈ l.
Proof. by rewrite (insert_sorted_perm cmp x l), elem_of_cons. Qed.

Lemma insert_sorted_sorted (x : A) (l : list A) :
  (∀ a b, 0 < cmp a b → cmp b a ≤ 0) →
  (∀ a b c, cmp a b ≤ 0 → cmp b c ≤ 0 → cmp a c ≤ 0) →
  StronglySorted (λ a b, cmp a b ≤ 0) l →
  StronglySorted (λ a b, cmp a b ≤ 0) (insert_sorted cmp x l).
Proof.
  intros Htotal Htrans. induction 1 as [|y l Hl IH Hy]; simpl.
  - repeat constructor.
  - destruct (cmp x y <=? 0) eqn:Hxy.
    + apply Z.leb_le in Hxy. constructor; [by constructor|].
      constructor; [done|].
      eapply Forall_impl; [exact Hy|]. intros z Hz. by eapply Htrans.
    + apply Z.leb_gt in Hxy. constructor; [done|].
      apply Forall_forall. intros z [->|Hz]%insert_sorted_elem_of.
      * by apply Htotal.
      * by eapply Forall_forall in Hy.
Qed.

Lemma sort_sorted (l : list A) :
  (∀ a b, 0 < cmp a b → cmp b a ≤ 0) →
  (∀ a b c, cmp a b ≤ 0 → cmp b c ≤ 0 → cmp a c ≤ 0) →
  StronglySorted (λ a b, cmp a b ≤ 0) (sort cmp l).
Proof.
  intros Htotal Htrans. induction l as [|x l IH]; simpl; [constructor|].
  by apply insert_sorted_sorted.
Qed.

(** Elements that compare as equal keep their order. *)
Lemma insert_sorted_ties (P : A → bool) (x : A) (l : list A) :
  (∀ a b, P a = true → P b = true → cmp a b ≤ 0) →
  List.filter P (insert_sorted cmp x l) = List.filter P (x :: l).
Proof.
  intros Hties. induction l as [|y l IH]; [done|].
  cbn [insert_sorted]. destruct (cmp x y <=? 0) eqn:Hxy; [done|].
  apply Z.leb_gt in Hxy. cbn [List.filter] in *. rewrite IH.
  destruct (P x) eqn:Hx, (P y) eqn:Hy; try done.
  specialize (Hties x y Hx Hy). lia.
Qed.

Lemma sort_ties (P : A → bool) (l : list A) :
  (∀ a b, P a = true → P b = true → cmp a b ≤ 0) →
  List.filter P (sort cmp l) = List.filter P l.
Proof.
  intros Hties. induction l as [|x l IH]; [done|].
  cbn [sort foldr]. fold (sort cmp l). rewrite insert_sorted_ties by done.
  cbn [List.filter]. by rewrite IH.
Qed.
End SortGeneric.

Lemma StronglySorted_mono {A : Type} (R R' : A → A → Prop) (l : list A) :
  (∀ a b, R a b → R' a b) → StronglySorted R l → StronglySorted R' l.
Proof.
  intros HR. induction 1 as [|x l Hl IH Hx]; constructor; [done|].
  eapply Forall_impl; [exact Hx|]. intros y. apply HR.
Qed.

Section Chronological.
Import WalletDeepDive DeepDiveReport.
#[local] Open Scope Z_scope.

(** X11.  The script processes the trades in the order of their timestamps,
    oldest first, whatever the order in which the API returned them: the
    sorted list has the same trades, no trade comes before one with a smaller
    timestamp (a missing timestamp counts as 0), and trades with the same
    timestamp keep the order in which they were fetched. *)
Theorem sorted_chronological {A : Type} (trades : list (Fetched A)) :
  sorted trades ≡ₚ trades
  ∧ StronglySorted
      (λ a b, default 0 (timestamp a) ≤ default 0 (timestamp b))
      (sorted trades)
  ∧ (∀ t : Z,
       List.filter (λ a, bool_decide (default 0 (timestamp a) = t))
                   (sorted trades)
       = List.filter (λ a, bool_decide (default 0 (timestamp a) = t)) trades).
Proof.
  split_and!.
  - apply sort_perm.
  - eapply StronglySorted_mono; [|apply sort_sorted].
    + intros a b. unfold chronological. lia.
    + intros a b. unfold chronological. lia.
    + intros a b c. unfold chronological. lia.
  - intros t. apply sort_ties. intros a b Ha Hb.
    apply bool_decide_eq_true in Ha, Hb. unfold chronological. lia.
Qed.
End Chronological.

Section FifoClosedForm.
Import WalletDeepDive DeepDiveReport.
#[local] Open Scope Qc_scope.

Lemma Qc_min_case (a b : Qc) :
  (a ≤ b ∧ Qc_min a b = a) ∨ (b < a ∧ Qc_min a b = b).
Proof.
  unfold Qc_min. destruct (Qc_leb a b) eqn:Hab.
  - left. by apply Qc_leb_true in Hab.
  - right. split; [|done]. apply Qcnot_le_lt. intros Hle.
    apply Qc_leb_true in Hle. congruence.
Qed.

Lemma total_size_cons (l : Lot Qc) (lots : list (Lot Qc)) :
  total_size (l :: lots) = size l + total_size lots.
Proof. unfold total_size. by rewrite fmap_cons, sumQc_cons. Qed.

Lemma total_size_nonneg (lots : list (Lot Qc)) :
  Forall (λ l, 0 ≤ size l) lots → 0 ≤ total_size lots.
Proof.
  induction 1 as [|l lots Hl _ IH].
  - unfold total_size. rewrite fmap_nil, sumQc_nil. apply Qcle_refl.
  - rewrite total_size_cons. qc_lra.
Qed.

(** The shares a SELL of [q] takes from a queue: [q], or all of them. *)
Lemma spec_consume_sold (lots : list (Lot Qc)) : ∀ q : Qc,
  0 ≤ q → Forall (λ l, 0 ≤ size l) lots →
  sumQc (take <$> (spec_consume q lots).1) = Qc_min q (total_size lots).
Proof.
  induction lots as [|lot rest IH]; intros q Hq Hall.
  - simpl. unfold total_size. rewrite fmap_nil, !sumQc_nil.
    destruct (Qc_min_case q 0) as [[? ->]|[? ->]]; [qc_lra|done].
  - apply Forall_cons in Hall as [Hlot Hall].
    pose proof (total_size_nonneg rest Hall) as Hrest.
    rewrite total_size_cons. cbn [spec_consume].
    case_bool_decide as Hpos.
    + destruct (Qc_min_case (size lot) q) as [[Hle Hmin]|[Hlt Hmin]];
        rewrite Hmin.
      * rewrite bool_decide_true by qc_lra.
        cbn [fst]. rewrite fmap_cons, sumQc_cons. cbn [take snd].
        rewrite IH by (done || qc_lra).
        destruct (Qc_min_case (q - size lot) (total_size rest))
          as [[? ->]|[? ->]];
          destruct (Qc_min_case q (size lot + total_size rest))
            as [[? ->]|[? ->]]; qc_lra.
      * rewrite bool_decide_false by qc_lra.
        cbn [fst]. rewrite fmap_cons, fmap_nil, sumQc_cons, sumQc_nil.
        cbn [take snd].
        destruct (Qc_min_case q (size lot + total_size rest))
          as [[? ->]|[? ->]]; qc_lra.
    + cbn [fst]. rewrite fmap_nil, sumQc_nil.
      destruct (Qc_min_case q (size lot + total_size rest))
        as [[? ->]|[? ->]]; qc_lra.
Qed.

Lemma spec_proceeds_sold (p : Qc) (sl : list Slice) :
  spec_proceeds p sl = sumQc (take <$> sl) * p.
Proof.
  unfold spec_proceeds. induction sl as [|s sl IH].
  - rewrite !fmap_nil, sumQc_nil. ring.
  - rewrite !fmap_cons, !sumQc_cons, IH. ring.
Qed.

Lemma total_size_unflagged (lots : list (SimpleLot Qc)) :
  total_size (unflagged <$> lots) = sumQc (ssize <$> lots).
Proof.
  unfold total_size. rewrite <- list_fmap_compose. done.
Qed.

Lemma total_size_simple (lots : list (Lot Qc)) :
  sumQc (ssize <$> (simple <$> lots)) = total_size lots.
Proof. unfold total_size. by rewrite <- list_fmap_compose. Qed.

Lemma spec_consume_nonneg (lots : list (Lot Qc)) : ∀ q : Qc,
  Forall (λ l, 0 ≤ size l) lots →
  Forall (λ l, 0 ≤ size l) (spec_consume q lots).2.
Proof.
  induction lots as [|lot rest IH]; intros q Hall; [done|].
  apply Forall_cons in Hall as [Hlot Hall]. cbn [spec_consume].
  case_bool_decide as Hpos; [|by constructor].
  case_bool_decide as Hdep; cbn [snd].
  - by apply IH.
  - constructor; [|done]. cbn [reduce size]. qc_lra.
Qed.

(** X9.  A SELL in the all-trades loop closes at most what is held: with
    [held] the shares in the queue of the asset, it realises
    [min(size, held) * price], the shares that stay in the queue are
    [held - min(size, held)], no lot gets a negative size, and a SELL of an
    asset that was never bought realises nothing.  A SELL never changes the
    total cost. *)
Theorem sell_proceeds_capped (st : Total Qc) (t : Trade Qc) :
  side t = SELL → asset_key t ≠ "" → 0 ≤ tsize t →
  Forall (λ l, 0 ≤ ssize l) (default [] (lotsAllByAsset st !! asset_key t)) →
  let held := sumQc (ssize <$> default [] (lotsAllByAsset st !! asset_key t)) in
  let sold := Qc_min (tsize t) held in
  ∃ left,
    total_trade st t =
      Some (mkTotal (<[asset_key t := left]> (lotsAllByAsset st))
                    (totalCostAll st)
                    (realizedProceedsAll st + sold * price t))
    ∧ sumQc (ssize <$> left) = held - sold
    ∧ Forall (λ l, 0 ≤ ssize l) left
    ∧ (lotsAllByAsset st !! asset_key t = None → left = [] ∧ sold = 0).
Proof.
  intros Hside Hkey Hq Hall held sold.
  pose proof (total_trade_sell st t Hside Hkey) as Hsell. cbv zeta in Hsell.
  set (lots := unflagged <$> default [] (lotsAllByAsset st !! asset_key t)) in *.
  assert (Forall (λ l, 0 ≤ size l) lots) as Hall'.
  { unfold lots. apply Forall_fmap. eapply Forall_impl; [exact Hall|]. done. }
  assert (total_size lots = held) as Hheld by apply total_size_unflagged.
  exists (simple <$> (spec_consume (tsize t) lots).2).
  pose proof (spec_consume_sold lots (tsize t) Hq Hall') as Hsold.
  rewrite Hheld in Hsold. fold sold in Hsold.
  split_and!.
  - rewrite Hsell. by rewrite spec_proceeds_sold, Hsold.
  - rewrite total_size_simple. rewrite <- Hsold, <- Hheld.
    pose proof (spec_consume_size lots (tsize t)) as Hsz. qc_lra.
  - apply Forall_fmap. eapply Forall_impl; [by apply spec_consume_nonneg|]. done.
  - intros Hnone. unfold sold, held, lots. rewrite Hnone.
    cbn [default fmap list_fmap spec_consume snd]. split; [done|].
    change (sumQc []) with 0.
    destruct (Qc_min_case (tsize t) 0) as [[? ->]|[? ->]]; [qc_lra|done].
Qed.
End FifoClosedForm.

Section Conservation.
Import WalletDeepDive DeepDiveReport.
#[local] Open Scope Qc_scope.























End Conservation.

Section Totals.
Import WalletDeepDive DeepDiveReport.
#[local] Open Scope Qc_scope.









End Totals.

Section ReportScenario.
Import WalletDeepDive DeepDiveReport.
#[local] Open Scope Qc_scope.



Lemma deepDive_scenario :
  deepDive (qc 100 1) scenario_trades scenario_positions
  = Some (mkReport (qc 1 2) (qc 9 10) (qc 1 2) 0 0 (qc 9 10) (qc 80 1)
                   (qc 13 2) (qc 27 10) (qc 32 5) (qc 91 10) (qc 40 1)).
Proof. compute_done. Qed.


Lemma sell_proceeds_capped_witness :
  ∃ left st',
    total_trade
      (mkTotal {[ "X" := [mkSimpleLot (qc 10 1) (qc 5 1);
                          mkSimpleLot (qc 10 1) (qc 6 1)] ]} (qc 11 1) 0)
      (mkTrade "X" "" SELL (qc 25 1) (qc 7 10)) = Some st'
    ∧ lotsAllByAsset st' !! "X" = Some left
    ∧ realizedProceedsAll st' = qc 14 1
    ∧ sumQc (ssize <$> left) = 0.
Proof.
  destruct (sell_proceeds_capped
              (mkTotal {[ "X" := [mkSimpleLot (qc 10 1) (qc 5 1);
                                  mkSimpleLot (qc 10 1) (qc 6 1)] ]} (qc 11 1) 0)
              (mkTrade "X" "" SELL (qc 25 1) (qc 7 10)))
    as (left & Hleft & Hsize & _); [done|done|compute_done| |].
  { cbn. repeat constructor; compute_done. }
  eexists left, _. split; [exact Hleft|]. split_and!.
  - apply lookup_insert_eq.
  - compute_done.
  - rewrite Hsize. compute_done.
Defined.
End ReportScenario.

(** ** e2e-builder-test.ts: order book and order sizes *)

Section OrderBookFacts.
Import OrderBook.
#[local] Open Scope Qc_scope.

Lemma sgn_nonpos (x : Qc) : (sgn x ≤ 0)%Z ↔ x ≤ 0.
Proof.
  unfold sgn, Qcle, Qle. simpl. rewrite Z.mul_1_r.
  destruct (Qnum x); simpl; split; intros; lia.
Qed.

Lemma sgn_pos (x : Qc) : (0 < sgn x)%Z ↔ 0 < x.
Proof.
  unfold sgn, Qclt, Qlt. simpl. rewrite Z.mul_1_r.
  destruct (Qnum x); simpl; split; intros; lia.
Qed.

Lemma sort_nil_inv {A : Type} (cmp : A → A → Z) (l : list A) :
  Poller.sort cmp l = [] → l = [].
Proof.
  intros Hs. apply Permutation_nil_r. rewrite <- Hs. by rewrite sort_perm.
Qed.

(** The first element of a sorted array: nothing goes before it, and it is
    the first of the elements that compare equal to it. *)
Lemma sort_head {A : Type} (cmp : A → A → Z) (l : list A) (x : A) :
  (∀ a b, 0 < cmp a b → cmp b a ≤ 0)%Z →
  (∀ a b c, cmp a b ≤ 0 → cmp b c ≤ 0 → cmp a c ≤ 0)%Z →
  head (Poller.sort cmp l) = Some x →
  x ∈ l
  ∧ (∀ y, y ∈ l → cmp x y ≤ 0)%Z
  ∧ head (List.filter (λ y, (cmp y x <=? 0)%Z && (cmp x y <=? 0)%Z) l) = Some x.
Proof.
  intros Htotal Htrans Hhead.
  assert (cmp x x ≤ 0)%Z as Hxx.
  { destruct (Z_lt_le_dec 0 (cmp x x)) as [Hlt|Hle]; [|done]. by apply Htotal. }
  pose proof (sort_sorted cmp l Htotal Htrans) as Hsorted.
  pose proof (sort_perm cmp l) as Hperm.
  destruct (Poller.sort cmp l) as [|x' rest] eqn:Hs; [done|].
  injection Hhead as ->.
  apply StronglySorted_inv in Hsorted as [_ Hx].
  split_and!.
  - rewrite <- Hperm. apply elem_of_cons. by left.
  - intros y Hy. rewrite <- Hperm in Hy.
    apply elem_of_cons in Hy as [->|Hy]; [done|].
    by eapply Forall_forall in Hx.
  - rewrite <- (sort_ties cmp _ l), Hs.
    + cbn [List.filter].
      assert ((cmp x x <=? 0)%Z = true) as -> by by apply Z.leb_le.
      done.
    + intros a b [Ha _]%andb_true_iff [_ Hb]%andb_true_iff.
      apply Z.leb_le in Ha, Hb. by eapply Htrans.
Qed.

(** X13.  [getBookPrices] reports the best level of each side whatever the
    order of the levels in the answer: the best bid is the highest bid price
    and the best ask the lowest ask price, each with the size of the first
    level at that price in the answer; a side that is empty or missing is
    reported as price 0 and size 0. *)
Theorem getBookPrices_best (data : BookData) :
  let p := getBookPrices data in
  (default [] (bids data) = [] → bestBid p = 0 ∧ bidSize p = 0)
  ∧ (default [] (asks data) = [] → bestAsk p = 0 ∧ askSize p = 0)
  ∧ (default [] (bids data) ≠ [] →
     (∀ l, l ∈ default [] (bids data) → levelPrice l ≤ bestBid p)
     ∧ head (List.filter (λ l, bool_decide (levelPrice l = bestBid p))
                         (default [] (bids data)))
       = Some (mkLevel (bestBid p) (bidSize p)))
  ∧ (default [] (asks data) ≠ [] →
     (∀ l, l ∈ default [] (asks data) → bestAsk p ≤ levelPrice l)
     ∧ head (List.filter (λ l, bool_decide (levelPrice l = bestAsk p))
                         (default [] (asks data)))
       = Some (mkLevel (bestAsk p) (askSize p))).
Proof.
  intros p. unfold p, getBookPrices. cbn [bestBid bestAsk bidSize askSize].
  set (bs := default [] (bids data)). set (as_ := default [] (asks data)).
  split_and!.
  - by intros ->.
  - by intros ->.
  - intros Hne.
    destruct (Poller.sort _ bs) as [|b rest] eqn:Hs.
    { by apply sort_nil_inv in Hs. }
    destruct (sort_head (λ a b, sgn (levelPrice b - levelPrice a)) bs b)
      as (Hin & Hbest & Hfirst).
    + intros x y Hlt%sgn_pos. apply sgn_nonpos. qc_lra.
    + intros x y z Hxy%sgn_nonpos Hyz%sgn_nonpos. apply sgn_nonpos. qc_lra.
    + by rewrite Hs.
    + cbn. split.
      * intros l Hl. specialize (Hbest l Hl). apply sgn_nonpos in Hbest. qc_lra.
      * destruct b as [bp bsz]. cbn in *. rewrite <- Hfirst. f_equal.
        apply filter_ext. intros l.
        apply eq_true_iff_eq.
        rewrite bool_decide_eq_true, andb_true_iff, !Z.leb_le, !sgn_nonpos.
        split.
        -- intros ->. split; qc_lra.
        -- intros [H1 H2]. qc_lra.
  - intros Hne.
    destruct (Poller.sort _ as_) as [|a rest] eqn:Hs.
    { by apply sort_nil_inv in Hs. }
    destruct (sort_head (λ a b, sgn (levelPrice a - levelPrice b)) as_ a)
      as (Hin & Hbest & Hfirst).
    + intros x y Hlt%sgn_pos. apply sgn_nonpos. qc_lra.
    + intros x y z Hxy%sgn_nonpos Hyz%sgn_nonpos. apply sgn_nonpos. qc_lra.
    + by rewrite Hs.
    + cbn. split.
      * intros l Hl. specialize (Hbest l Hl). apply sgn_nonpos in Hbest. qc_lra.
      * destruct a as [ap asz]. cbn in *. rewrite <- Hfirst. f_equal.
        apply filter_ext. intros l.
        apply eq_true_iff_eq.
        rewrite bool_decide_eq_true, andb_true_iff, !Z.leb_le, !sgn_nonpos.
        split.
        -- intros ->. split; qc_lra.
        -- intros [H1 H2]. qc_lra.
Qed.

End OrderBookFacts.

Section OrderSizingFacts.
Import OrderSizing.
#[local] Open Scope float_scope.

Lemma ticks_elem (k : Z) : (1 ≤ k ≤ 9999)%Z → In k ticks.
Proof.
  intros Hk. apply list_elem_of_In, elem_of_seqZ. lia.
Qed.

Lemma ticks_ok : forallb tick_ok ticks = true.
Proof. vm_compute. reflexivity. Qed.

Lemma tick_ok_inv (k : Z) :
  (1 ≤ k ≤ 9999)%Z →
  ∃ n : Z,
    whole (orderSize (tick k)) = Some n
    ∧ n = (if bool_decide (k ∈ oneMore) then least k + 1 else least k)%Z
    ∧ (MIN_ORDER_VALUE <=? tick k * orderSize (tick k)) = true
    ∧ (tick k * orderSize (tick k) <? 1) = false
    ∧ (tick k =? 0) = false.
Proof.
  intros Hk%ticks_elem.
  pose proof (proj1 (forallb_forall tick_ok ticks) ticks_ok k Hk) as Hok.
  unfold tick_ok in Hok.
  destruct (whole (orderSize (tick k))) as [n|]; [|done].
  apply andb_true_iff in Hok as [Hok Hz].
  apply andb_true_iff in Hok as [Hok Hv].
  apply andb_true_iff in Hok as [Hn Hw].
  exists n. split_and!; [done| |done|by apply negb_true_iff|by apply negb_true_iff].
  destruct (bool_decide (k ∈ oneMore)); by apply Z.eqb_eq in Hn.
Qed.

Lemma ceils_ok : forallb ceil_ok ticks = true.
Proof. vm_compute. reflexivity. Qed.

Lemma ceil_ok_inv (k : Z) (n : Z) :
  (1 ≤ k ≤ 9999)%Z →
  whole (orderSize (tick k)) = Some n →
  ∃ c : Z,
    whole (ceil (MIN_ORDER_VALUE / tick k)) = Some c
    ∧ (MIN_ORDER_VALUE / tick k <=? ceil (MIN_ORDER_VALUE / tick k)) = true
    ∧ (ceil (MIN_ORDER_VALUE / tick k) - 1 <? MIN_ORDER_VALUE / tick k) = true
    ∧ n = Z.max 5 c.
Proof.
  intros Hk%ticks_elem Hn.
  pose proof (proj1 (forallb_forall ceil_ok ticks) ceils_ok k Hk) as Hok.
  unfold ceil_ok in Hok. cbv zeta in Hok. rewrite Hn in Hok.
  destruct (whole (ceil (MIN_ORDER_VALUE / tick k))) as [c|]; [|done].
  apply andb_true_iff in Hok as [Hok Hmax].
  apply andb_true_iff in Hok as [Hle Hlt].
  exists c. split_and!; [done|done|done|by apply Z.eqb_eq].
Qed.

Lemma least_spec (k : Z) :
  (0 < k)%Z →
  (5 ≤ least k
   ∧ 10500 ≤ k * least k
   ∧ ∀ m : Z, 5 ≤ m → 10500 ≤ k * m → least k ≤ m)%Z.
Proof.
  intros Hk. unfold least.
  assert (10500 ≤ k * ((10500 + k - 1) / k))%Z as Hc.
  { pose proof (Z.mul_div_le (10500 + k - 1) k Hk).
    pose proof (Z.mod_pos_bound (10500 + k - 1) k Hk).
    pose proof (Z.div_mod (10500 + k - 1) k). lia. }
  split_and!; [lia|nia|]. intros m H5 Hm.
  apply Z.max_lub; [done|].
  apply Z.lt_succ_r. apply Z.div_lt_upper_bound; [done|]. nia.
Qed.

Lemma oneMore_below (k : Z) : k ∈ oneMore → (k ≤ 1750)%Z.
Proof.
  unfold oneMore. rewrite !elem_of_cons, elem_of_nil. lia.
Qed.

(** X14.  At each price of the grid $0.0001, $0.0002, ..., $0.9999, read as
    [parseFloat] reads it, the size of the limit orders of Steps 5 and 6,
    computed in binary64 as the script computes it, is a whole number of
    shares: the greater of 5 and the least whole number that is not below
    the rounded quotient [1.05 / price].  It is at least 5 and worth at least
    $1.05 at that price, exactly and as the script multiplies it out.  It is
    the least such number, except at the eleven prices of [oneMore], where
    the quotient is rounded to just above a whole number and [Math.ceil]
    adds a share to the least number: at $0.15 the size is 8, where 7 shares
    are worth $1.05.  From $0.21 on the size is 5. *)
Theorem order_size_meets_minimum (k : Z) :
  (1 ≤ k ≤ 9999)%Z →
  let quotient := MIN_ORDER_VALUE / tick k in
  ∃ c n : Z,
    whole (ceil quotient) = Some c
    ∧ (quotient <=? ceil quotient) = true
    ∧ (ceil quotient - 1 <? quotient) = true
    ∧ whole (orderSize (tick k)) = Some n
    ∧ n = Z.max 5 c
    ∧ (5 ≤ n)%Z
    ∧ (10500 ≤ k * n)%Z
    ∧ (MIN_ORDER_VALUE <=? tick k * orderSize (tick k)) = true
    ∧ (k ∉ oneMore →
       ∀ m : Z, (5 ≤ m)%Z → (10500 ≤ k * m)%Z → (n ≤ m)%Z)
    ∧ (k ∈ oneMore →
       (5 ≤ n - 1)%Z ∧ (10500 ≤ k * (n - 1))%Z
       ∧ ∀ m : Z, (5 ≤ m)%Z → (10500 ≤ k * m)%Z → (n - 1 ≤ m)%Z)
    ∧ ((2100 ≤ k)%Z → n = 5%Z)
    ∧ whole (ceil (MIN_ORDER_VALUE / tick 1500)) = Some 8%Z
    ∧ whole (orderSize (tick 1500)) = Some 8%Z
    ∧ (MIN_ORDER_VALUE <=? tick 1500 * 7) = true.
Proof.
  intros Hk quotient. subst quotient.
  destruct (tick_ok_inv k Hk) as (n & Hn & Heq & Hv & _ & _).
  destruct (ceil_ok_inv k n Hk Hn) as (c & Hc & Hle & Hlt & Hmax).
  destruct (least_spec k) as (H5 & Hw & Hleast); [lia|].
  exists c, n. split_and!; [done|done|done|done|done| | |done| | | | | |].
  - case_bool_decide; lia.
  - case_bool_decide; nia.
  - intros Hout. rewrite bool_decide_false in Heq by done.
    intros m. rewrite Heq. apply Hleast.
  - intros Hin. rewrite bool_decide_true in Heq by done.
    replace (n - 1)%Z with (least k) by lia. done.
  - intros Hbig.
    assert (k ∉ oneMore) as Hout.
    { intros Hin%oneMore_below. lia. }
    rewrite bool_decide_false in Heq by done. rewrite Heq.
    apply Z.le_antisymm; [|done]. apply Hleast; lia.
  - vm_compute. reflexivity.
  - vm_compute. reflexivity.
  - vm_compute. reflexivity.
Qed.

(** X15.  The guards of the limit steps, in binary64.  With both best prices
    on the grid $0.0001, ..., $0.9999 the liquidity check of Step 4 passes.
    Step 6 never takes its SKIP branch at a bid of the grid: the size
    computed makes the order worth at least $1.05, so [sellValue < 1.0] is
    false, and the SELL is placed at the bid with that size.  Step 5 either
    skips or places its BUY at the ask with the size computed; it skips
    whenever 90% of the balance is below $1.05, and an order it places costs
    at most 90% of the balance, when that is a number.  At an ask of $0.15
    and a balance of $1.30 it skips, the 8 shares costing $1.20 against a
    budget of $1.17, although 7 shares would cost $1.05.  A best price of 0
    on either side stops the run at Step 4; at Step 6, which reads the book
    again, a bid of 0 gives an infinite size and a value that is not a
    number, and the SELL is placed.  The check of Step 4 does not bound the
    size off the grid: the least positive prices pass it and give an
    infinite size. *)
Theorem limit_steps_guards (k j : Z) (initialBalance : float) :
  (1 ≤ k ≤ 9999)%Z →
  (1 ≤ j ≤ 9999)%Z →
  let bestBid := tick k in
  let bestAsk := tick j in
  checkLiquidity bestBid bestAsk = Returns ()
  ∧ limitSell bestBid = Placed bestBid (orderSize bestBid)
  ∧ (limitBuy bestAsk initialBalance = Skipped
     ∨ limitBuy bestAsk initialBalance = Placed bestAsk (orderSize bestAsk))
  ∧ ((initialBalance * 0.9 <? MIN_ORDER_VALUE) = true →
     limitBuy bestAsk initialBalance = Skipped)
  ∧ (is_nan (initialBalance * 0.9) = false →
     limitBuy bestAsk initialBalance ≠ Skipped →
     (bestAsk * orderSize bestAsk <=? initialBalance * 0.9) = true)
  ∧ limitBuy (tick 1500) 1.3 = Skipped
  ∧ (tick 1500 * 7 <=? 1.3 * 0.9) = true
  ∧ (∀ price, ∃ e, checkLiquidity 0 price = Throws e
                   ∧ checkLiquidity price 0 = Throws e)
  ∧ limitSell 0 = Placed 0 infinity
  ∧ checkLiquidity 0x1p-1070 0x1p-1070 = Returns ()
  ∧ orderSize 0x1p-1070 = infinity.
Proof.
  intros Hk Hj bestBid bestAsk.
  destruct (tick_ok_inv k Hk) as (n & _ & _ & _ & Hsell & Hbid).
  destruct (tick_ok_inv j Hj) as (m & _ & _ & Hcost & _ & Hask).
  fold bestBid in Hsell, Hbid. fold bestAsk in Hcost, Hask.
  split_and!.
  - unfold checkLiquidity. by rewrite Hbid, Hask.
  - unfold limitSell. cbv zeta. by rewrite Hsell.
  - unfold limitBuy. cbv zeta.
    destruct (initialBalance * 0.9 <? bestAsk * orderSize bestAsk); auto.
  - intros Hlow. unfold limitBuy. cbv zeta.
    by rewrite (float_lt_le_trans _ _ _ Hlow Hcost).
  - intros Hnum. unfold limitBuy. cbv zeta.
    destruct (initialBalance * 0.9 <? bestAsk * orderSize bestAsk) eqn:Hlt;
      [done|]. intros _.
    apply float_not_lt; [done| |done].
    by eapply float_le_not_nan.
  - vm_compute. reflexivity.
  - vm_compute. reflexivity.
  - intros price. eexists. split; [vm_compute; reflexivity|].
    unfold checkLiquidity. destruct (price =? 0); vm_compute; reflexivity.
  - vm_compute. reflexivity.
  - vm_compute. reflexivity.
  - vm_compute. reflexivity.
Qed.

End OrderSizingFacts.

Section OrderSizingScenario.
Import OrderSizing.
#[local] Open Scope float_scope.

Lemma order_size_meets_minimum_witness :
  (1 ≤ 1000 ≤ 9999)%Z
  ∧ ∃ n : Z, whole (orderSize (tick 1000)) = Some n ∧ (5 ≤ n)%Z
             ∧ (10500 ≤ 1000 * n)%Z.
Proof.
  assert (1 ≤ 1000 ≤ 9999)%Z as Hk by lia.
  split; [exact Hk|].
  destruct (order_size_meets_minimum 1000 Hk)
    as (c & n & _ & _ & _ & Hn & _ & H5 & Hv & _).
  by exists n.
Defined.

Lemma limit_steps_guards_witness :
  (1 ≤ 1400 ≤ 9999)%Z ∧ (1 ≤ 1500 ≤ 9999)%Z
  ∧ limitSell (tick 1400) = Placed (tick 1400) (orderSize (tick 1400))
  ∧ ((1.1 * 0.9 <? MIN_ORDER_VALUE) = true →
     limitBuy (tick 1500) 1.1 = Skipped).
Proof.
  assert (1 ≤ 1400 ≤ 9999)%Z as Hk by lia.
  assert (1 ≤ 1500 ≤ 9999)%Z as Hj by lia.
  split; [exact Hk|]. split; [exact Hj|].
  destruct (limit_steps_guards 1400 1500 1.1 Hk Hj)
    as (_ & Hsell & _ & Hskip & _).
  by split.
Defined.

End OrderSizingScenario.

(** ** e2e-builder-test.ts: [findActiveMarket] *)

Section FindMarketFacts.
Import OrderBook FindMarket.
#[local] Open Scope Qc_scope.

Variable scanCryptoShortTermMarkets : Coin → Outcome string (list Market).
Variable getClobMarket : string → Outcome string (option ClobMarket).
Variable getBookPrices : string → Outcome string BookPrices.
Variable getTime : string → option Z.
Variable now : Z.

Lemma eligible_within (s : SideBook) : eligible s = true ↔ within (prices s).
Proof.
  unfold eligible, within.
  rewrite !andb_true_iff, Qc_ltb_true, !Qc_leb_true. tauto.
Qed.

(** The choice between the two sides. *)
Lemma sides_best (primary secondary : Token) (yesPrices noPrices : BookPrices)
    (best : SideBook) (rest : list SideBook) :
  sides primary secondary yesPrices noPrices = best :: rest →
  (name best = YES ∧ token best = tokenId primary ∧ prices best = yesPrices
   ∧ within yesPrices
   ∧ (within noPrices → bestAsk yesPrices ≤ bestAsk noPrices))
  ∨ (name best = NO ∧ token best = tokenId secondary ∧ prices best = noPrices
     ∧ within noPrices
     ∧ (within yesPrices → bestAsk noPrices < bestAsk yesPrices)).
Proof.
  unfold sides. cbn [List.filter].
  destruct (eligible (mkSideBook YES _ yesPrices)) eqn:Hyes;
    destruct (eligible (mkSideBook NO _ noPrices)) eqn:Hno;
    cbn [Poller.sort foldr Poller.insert_sorted].
  - apply eligible_within in Hyes, Hno. cbn in Hyes, Hno.
    destruct (cheapest _ _ <=? 0)%Z eqn:Hcmp; intros [= <- _].
    + apply Z.leb_le, sgn_nonpos in Hcmp. cbn in Hcmp. left.
      split_and!; try done. intros _. qc_lra.
    + apply Z.leb_gt, sgn_pos in Hcmp. cbn in Hcmp. right.
      split_and!; try done. intros _. qc_lra.
  - apply eligible_within in Hyes. cbn in Hyes. intros [= <- _]. left.
    split_and!; try done. intros Hno'.
    assert (eligible (mkSideBook NO (tokenId secondary) noPrices) = true)
      by by apply eligible_within.
    congruence.
  - apply eligible_within in Hno. cbn in Hno. intros [= <- _]. right.
    split_and!; try done. intros Hyes'.
    assert (eligible (mkSideBook YES (tokenId primary) yesPrices) = true)
      by by apply eligible_within.
    congruence.
  - done.
Qed.

Lemma search_sound (candidates : list Market) (m : ActiveMarket) :
  search getClobMarket getBookPrices candidates = Returns m →
  ∃ candidate yesPrices noPrices,
    candidate ∈ candidates
    ∧ activeConditionId m = conditionId candidate
    ∧ getBookPrices (primaryTokenId m) = Returns yesPrices
    ∧ getBookPrices (secondaryTokenId m) = Returns noPrices
    ∧ ((tradeSide m = YES ∧ tradeTokenId m = primaryTokenId m
        ∧ within yesPrices
        ∧ (within noPrices → bestAsk yesPrices ≤ bestAsk noPrices))
       ∨ (tradeSide m = NO ∧ tradeTokenId m = secondaryTokenId m
          ∧ within noPrices
          ∧ (within yesPrices → bestAsk noPrices < bestAsk yesPrices))).
Proof.
  induction candidates as [|candidate rest IH]; [done|].
  assert (search getClobMarket getBookPrices rest = Returns m →
          ∃ c y n, c ∈ candidate :: rest
            ∧ activeConditionId m = conditionId c
            ∧ getBookPrices (primaryTokenId m) = Returns y
            ∧ getBookPrices (secondaryTokenId m) = Returns n
            ∧ ((tradeSide m = YES ∧ tradeTokenId m = primaryTokenId m
                ∧ within y ∧ (within n → bestAsk y ≤ bestAsk n))
               ∨ (tradeSide m = NO ∧ tradeTokenId m = secondaryTokenId m
                  ∧ within n ∧ (within y → bestAsk n < bestAsk y)))) as IH'.
  { intros (c & y & n & Hc & Hrest)%IH. exists c, y, n.
    split; [|done]. apply elem_of_cons. by right. }
  cbn [search].
  destruct (getClobMarket (conditionId candidate)) as [marketInfo|e]; [|done].
  destruct (marketInfo ≫= tokens) as [toks|]; [|done].
  destruct (length toks <? 2); [done|].
  destruct (primaryOf toks) as [primary|]; [|done].
  destruct (secondaryOf toks) as [secondary|]; [|done].
  cbn [Poller.promise_all].
  destruct (getBookPrices (tokenId primary)) as [yesPrices|e] eqn:Hy; [|done].
  destruct (getBookPrices (tokenId secondary)) as [noPrices|e] eqn:Hn; [|done].
  destruct (sides primary secondary yesPrices noPrices) as [|best more] eqn:Hs;
    [done|].
  intros [= <-]. exists candidate, yesPrices, noPrices. cbn.
  split_and!; [apply elem_of_cons; by left|done|done|done|].
  destruct (sides_best _ _ _ _ _ _ Hs)
    as [(Hname & Htok & _ & Hw & Hle)|(Hname & Htok & _ & Hw & Hlt)].
  - left. by rewrite Hname, Htok.
  - right. by rewrite Hname, Htok.
Qed.

(** X16.  A market [findActiveMarket] returns is one of the scanned markets
    that has not ended, and the side it says to trade has an order book
    within budget and with liquidity (best ask above 0 and at most 0.80, at
    least 5 shares offered at it); when both sides have one, it is the side
    with the lower best ask, YES on a tie.  The token to trade is the token
    of that side. *)
Theorem findActiveMarket_sound (m : ActiveMarket) :
  findActiveMarket scanCryptoShortTermMarkets getClobMarket getBookPrices
                   getTime now = Returns m →
  ∃ candidate yesPrices noPrices,
    candidate ∈ allMarkets scanCryptoShortTermMarkets
    ∧ active getTime now candidate = true
    ∧ activeConditionId m = conditionId candidate
    ∧ getBookPrices (primaryTokenId m) = Returns yesPrices
    ∧ getBookPrices (secondaryTokenId m) = Returns noPrices
    ∧ ((tradeSide m = YES ∧ tradeTokenId m = primaryTokenId m
        ∧ within yesPrices
        ∧ (within noPrices → bestAsk yesPrices ≤ bestAsk noPrices))
       ∨ (tradeSide m = NO ∧ tradeTokenId m = secondaryTokenId m
          ∧ within noPrices
          ∧ (within yesPrices → bestAsk noPrices < bestAsk yesPrices))).
Proof.
  unfold findActiveMarket. case_bool_decide as Hempty; [done|].
  intros (c & y & n & Hc & Hrest)%search_sound.
  apply list_elem_of_In, filter_In in Hc as [Hc Hact].
  exists c, y, n. split; [by apply list_elem_of_In|]. split; [done|].
  exact Hrest.
Qed.

Lemma sides_nil (primary secondary : Token) (yesPrices noPrices : BookPrices) :
  sides primary secondary yesPrices noPrices = [] →
  ¬ within yesPrices ∧ ¬ within noPrices.
Proof.
  unfold sides. intros Hs%sort_nil_inv. cbn [List.filter] in Hs.
  destruct (eligible (mkSideBook YES _ yesPrices)) eqn:Hyes; [done|].
  destruct (eligible (mkSideBook NO _ noPrices)) eqn:Hno; [done|].
  split; intros Hw.
  - assert (eligible (mkSideBook YES (tokenId primary) yesPrices) = true)
      by by apply eligible_within.
    congruence.
  - assert (eligible (mkSideBook NO (tokenId secondary) noPrices) = true)
      by by apply eligible_within.
    congruence.
Qed.


Lemma primaryOf_Some (toks : list Token) :
  (2 ≤ length toks)%nat → is_Some (primaryOf toks).
Proof.
  intros Hlen. unfold primaryOf. destruct (find _ toks); [by eexists|].
  destruct toks; [simpl in Hlen; lia|]. by eexists.
Qed.

Lemma secondaryOf_Some (toks : list Token) :
  (2 ≤ length toks)%nat → is_Some (secondaryOf toks).
Proof.
  intros Hlen. unfold secondaryOf. destruct (find _ toks); [by eexists|].
  destruct toks as [|? [|? ?]]; [simpl in Hlen; lia..|]. by eexists.
Qed.

Lemma search_gives_up (candidates : list Market) :
  search getClobMarket getBookPrices candidates = Throws NoBalancedMarket →
  Forall (passed getClobMarket getBookPrices) candidates.
Proof.
  induction candidates as [|candidate rest IH]; [by constructor|].
  cbn [search].
  destruct (getClobMarket (conditionId candidate)) as [marketInfo|e] eqn:Hinfo;
    [|done].
  destruct (marketInfo ≫= tokens) as [toks|] eqn:Htoks.
  2: { intros Hrest. constructor; [|by apply IH].
       exists marketInfo. by rewrite Htoks. }
  destruct (length toks <? 2) eqn:Hlen.
  { intros Hrest. constructor; [|by apply IH].
    exists marketInfo. rewrite Htoks. split; [done|]. left.
    by apply Nat.ltb_lt in Hlen. }
  apply Nat.ltb_ge in Hlen.
  destruct (primaryOf_Some toks Hlen) as [primary Hp].
  destruct (secondaryOf_Some toks Hlen) as [secondary Hs2].
  rewrite Hp, Hs2. cbn [Poller.promise_all].
  destruct (getBookPrices (tokenId primary)) as [yesPrices|e] eqn:Hy; [|done].
  destruct (getBookPrices (tokenId secondary)) as [noPrices|e] eqn:Hn; [|done].
  destruct (sides primary secondary yesPrices noPrices) as [|best more] eqn:Hs;
    [|done].
  intros Hrest. constructor; [|by apply IH].
  exists marketInfo. rewrite Htoks. split; [done|]. right.
  exists primary, secondary, yesPrices, noPrices.
  destruct (sides_nil _ _ _ _ Hs). by split_and!.
Qed.

Lemma search_never_counts (candidates : list Market) (n : nat) :
  search getClobMarket getBookPrices candidates ≠ Throws (NoActiveMarkets n).
Proof.
  induction candidates as [|candidate rest IH]; [done|].
  cbn [search].
  destruct (getClobMarket (conditionId candidate)) as [marketInfo|e]; [|done].
  destruct (marketInfo ≫= tokens) as [toks|]; [|done].
  destruct (length toks <? 2); [done|].
  destruct (primaryOf toks) as [primary|]; [|done].
  destruct (secondaryOf toks) as [secondary|]; [|done].
  cbn [Poller.promise_all].
  destruct (getBookPrices (tokenId primary)) as [yesPrices|e]; [|done].
  destruct (getBookPrices (tokenId secondary)) as [noPrices|e]; [|done].
  by destruct (sides primary secondary yesPrices noPrices).
Qed.

Lemma allMarkets_concat :
  allMarkets scanCryptoShortTermMarkets
  = concat ((λ coin, match scanCryptoShortTermMarkets coin with
                     | Returns markets => markets
                     | Throws _ => []
                     end) <$> [BTC; ETH; SOL]).
Proof.
  unfold allMarkets. cbn.
  destruct (scanCryptoShortTermMarkets BTC),
    (scanCryptoShortTermMarkets ETH), (scanCryptoShortTermMarkets SOL);
    cbn; by rewrite ?app_nil_r, <- ?app_assoc.
Qed.

(** X17.  How [findActiveMarket] fails.  A scan that throws is skipped: the
    markets considered are those of the scans that answered.  The error that
    counts the markets checked is thrown exactly when none of them is still
    open.  What [getClobMarket] throws for the first open market ends the
    search (the loop has no [try]).  The error about balanced prices means
    that every open market was passed over: fewer than two tokens, or neither
    order book within budget. *)
Theorem findActiveMarket_failures :
  let all := allMarkets scanCryptoShortTermMarkets in
  let found := findActiveMarket scanCryptoShortTermMarkets getClobMarket
                                getBookPrices getTime now in
  (∀ m, m ∈ all ↔
        ∃ coin markets, scanCryptoShortTermMarkets coin = Returns markets
                        ∧ m ∈ markets)
  ∧ (Forall (λ m, active getTime now m = false) all ↔
     found = Throws (NoActiveMarkets (length all)))
  ∧ (∀ candidate rest e,
       List.filter (active getTime now) all = candidate :: rest →
       getClobMarket (conditionId candidate) = Throws e →
       found = Throws (Rejected e))
  ∧ (found = Throws NoBalancedMarket →
     Forall (passed getClobMarket getBookPrices)
            (List.filter (active getTime now) all)).
Proof.
  intros all found. split_and!.
  - intros m. unfold all. rewrite allMarkets_concat. cbn.
    rewrite app_nil_r, !elem_of_app. split.
    + intros [Hm|[Hm|Hm]].
      * exists BTC. destruct (scanCryptoShortTermMarkets BTC) as [ms|];
          [by exists ms|by apply elem_of_nil in Hm].
      * exists ETH. destruct (scanCryptoShortTermMarkets ETH) as [ms|];
          [by exists ms|by apply elem_of_nil in Hm].
      * exists SOL. destruct (scanCryptoShortTermMarkets SOL) as [ms|];
          [by exists ms|by apply elem_of_nil in Hm].
    + intros (coin & ms & Hscan & Hm). destruct coin; rewrite Hscan; auto.
  - unfold found, findActiveMarket. fold all. split.
    + intros Hall. rewrite bool_decide_true; [done|].
      induction Hall as [|m l Hm _ IH]; [done|]. cbn. by rewrite Hm.
    + case_bool_decide as Hempty.
      * intros _. apply Forall_forall. intros m Hm.
        destruct (active getTime now m) eqn:Hact; [|done].
        assert (m ∈ List.filter (active getTime now) all) as Hin.
        { apply list_elem_of_In, filter_In. split; [|done].
          by apply list_elem_of_In. }
        rewrite Hempty in Hin. by apply elem_of_nil in Hin.
      * intros Hs. by apply search_never_counts in Hs.
  - intros candidate rest e Hfilter Hthrow.
    unfold found, findActiveMarket. fold all. rewrite Hfilter.
    rewrite bool_decide_false by done. cbn [search]. by rewrite Hthrow.
  - unfold found, findActiveMarket. fold all.
    case_bool_decide as Hempty; [done|]. apply search_gives_up.
Qed.
End FindMarketFacts.

Section FindMarketScenario.
Import OrderBook FindMarket.
#[local] Open Scope Qc_scope.

Lemma findActiveMarket_sound_witness :
  findActiveMarket scenario_scan scenario_clob scenario_book scenario_getTime
                   2000%Z
  = Returns (mkActiveMarket "0xc2" "t-yes" "t-no" "Unknown" "t-no" NO)
  ∧ ∃ candidate yesPrices noPrices,
      candidate ∈ allMarkets scenario_scan
      ∧ active scenario_getTime 2000%Z candidate = true
      ∧ conditionId candidate = "0xc2"
      ∧ scenario_book "t-yes" = Returns yesPrices
      ∧ scenario_book "t-no" = Returns noPrices
      ∧ within noPrices.
Proof.
  assert (findActiveMarket scenario_scan scenario_clob scenario_book
            scenario_getTime 2000%Z
          = Returns (mkActiveMarket "0xc2" "t-yes" "t-no" "Unknown" "t-no" NO))
    as Hfound by (vm_compute; reflexivity).
  split; [exact Hfound|].
  destruct (findActiveMarket_sound scenario_scan scenario_clob scenario_book
              scenario_getTime 2000%Z _ Hfound)
    as (c & y & n & Hc & Hact & Hid & Hy & Hn & Hside).
  exists c, y, n. cbn in Hid, Hy, Hn, Hside.
  split_and!; try done.
  destruct Hside as [(Hyes & _)|(_ & _ & Hw & _)]; [done|done].
Defined.
End FindMarketScenario.

(** ** docs/copy-trading-implementation.md: further snippets *)

Section DedupLoopFacts.
Import Poller CopyTradingNotes.

Lemma dedupLoop_spec (executeCopyTrade : Activity → Outcome string ())
    (activities : list Activity) : ∀ seen : list string,
  NoDup seen →
  let r := dedupLoop executeCopyTrade seen activities in
  seenAfter r = seen ++ (transactionHash <$> executed r)
  ∧ NoDup (seenAfter r)
  ∧ executed r `sublist_of` activities
  ∧ (thrown r = None →
     (∀ a, a ∈ activities → transactionHash a ∈ seenAfter r)
     ∧ Forall (λ a, ∃ u, executeCopyTrade a = Returns u) (executed r))
  ∧ (∀ e, thrown r = Some e →
     ∃ a, last (executed r) = Some a ∧ executeCopyTrade a = Throws e).
Proof.
  induction activities as [|a rest IH]; intros seen Hnd; cbn [dedupLoop].
  - cbn. rewrite app_nil_r. split_and!; try done.
    intros _. split; [|done]. intros a Ha. by apply elem_of_nil in Ha.
  - destruct (Dedup.has seen (transactionHash a)) eqn:Hhas.
    + destruct (IH seen Hnd) as (Hseen & Hnd' & Hsub & Hok & Herr).
      split_and!; try done.
      * by apply sublist_cons.
      * intros Hnone. destruct (Hok Hnone) as [Hall Hex]. split; [|done].
        intros b [->|Hb]%elem_of_cons; [|by apply Hall].
        rewrite Hseen. apply elem_of_app. left. by apply has_true.
    + assert (Dedup.add seen (transactionHash a) = seen ++ [transactionHash a])
        as Hadd by (unfold Dedup.add; by rewrite Hhas).
      assert (NoDup (Dedup.add seen (transactionHash a))) as Hnd1
        by by apply add_NoDup.
      destruct (executeCopyTrade a) as [u|e] eqn:Hexec.
      * destruct (IH _ Hnd1) as (Hseen & Hnd' & Hsub & Hok & Herr).
        cbn [seenAfter executed thrown].
        split_and!.
        -- rewrite Hseen, Hadd, fmap_cons, <- app_assoc. done.
        -- done.
        -- by apply sublist_skip.
        -- intros Hnone. destruct (Hok Hnone) as [Hall Hex]. split.
           ++ intros b [->|Hb]%elem_of_cons; [|by apply Hall].
              rewrite Hseen, Hadd. apply elem_of_app. left.
              apply elem_of_app. right. by apply list_elem_of_singleton.
           ++ constructor; [by exists u|done].
        -- intros e He. destruct (Herr e He) as (b & Hlast & Hb).
           exists b. split; [|done].
           destruct (executed (dedupLoop executeCopyTrade _ rest));
             [done|]. done.
      * cbn [seenAfter executed thrown]. split_and!.
        -- by rewrite Hadd.
        -- done.
        -- apply sublist_skip, sublist_nil_l.
        -- done.
        -- intros e' [= <-]. by exists a.
Qed.

(** X18.  The loop of the deduplication snippet hands no transaction hash to
    [executeCopyTrade] twice, and never one that was in the set before: the
    activities executed are a subsequence of the input, one for each new
    hash, and the set afterwards holds exactly their hashes.  If no call
    throws, every input activity has its hash executed once; a call that
    throws ends the loop with its activity as the last one executed, and
    the hash of that activity is already in the set. *)
Theorem dedup_never_repeats (executeCopyTrade : Activity → Outcome string ())
    (activities : list Activity) :
  let r := dedupLoop executeCopyTrade [] activities in
  NoDup (transactionHash <$> executed r)
  ∧ seenAfter r = transactionHash <$> executed r
  ∧ executed r `sublist_of` activities
  ∧ (thrown r = None →
     ∀ a, a ∈ activities →
          ∃ b, b ∈ executed r ∧ transactionHash b = transactionHash a)
  ∧ (∀ e, thrown r = Some e →
     ∃ a, last (executed r) = Some a ∧ executeCopyTrade a = Throws e)
  ∧ (∀ seen a, NoDup seen →
       a ∈ executed (dedupLoop executeCopyTrade seen activities) →
       transactionHash a ∉ seen).
Proof.
  intros r.
  destruct (dedupLoop_spec executeCopyTrade activities [] (NoDup_nil_2))
    as (Hseen & Hnd & Hsub & Hok & Herr).
  fold r in Hseen, Hnd, Hsub, Hok, Herr. rewrite app_nil_l in Hseen.
  split_and!.
  - by rewrite <- Hseen.
  - done.
  - done.
  - intros Hnone a Ha. destruct (Hok Hnone) as [Hall _].
    specialize (Hall a Ha). rewrite Hseen in Hall.
    apply list_elem_of_fmap in Hall as (b & Hb & Hin). by exists b.
  - done.
  - intros seen a Hnd0 Ha Hin.
    destruct (dedupLoop_spec executeCopyTrade activities seen Hnd0)
      as (Hseen' & Hnd' & _). cbv zeta in *.
    rewrite Hseen' in Hnd'. apply NoDup_app in Hnd' as (_ & Hdisj & _).
    apply (Hdisj _ Hin). apply list_elem_of_fmap. by exists a.
Qed.
End DedupLoopFacts.

Section BatchFacts.
Import CopyTradingNotes.

Lemma batchLoop_run (query : list string → Outcome string ())
    (wallets : list string) : ∀ (fuel i : nat),
  length wallets ≤ i + fuel * batchSize →
  ∃ r, batchLoop fuel query i wallets = Some r
       ∧ Forall (λ b, 1 ≤ length b ≤ batchSize) (batches r)
       ∧ concat (batches r) `prefix_of` drop i wallets
       ∧ (failure r = None →
          concat (batches r) = drop i wallets
          ∧ Forall (λ b, ∃ u, query b = Returns u) (batches r)
          ∧ pauses r = replicate (length (batches r)) 1000%Z
          ∧ length (batches r) = (length wallets - i + 29) / 30)
       ∧ (∀ e, failure r = Some e →
          ∃ done b, batches r = done ++ [b] ∧ query b = Throws e
                    ∧ Forall (λ b', ∃ u, query b' = Returns u) done
                    ∧ pauses r = replicate (length done) 1000%Z).
Proof.
  induction fuel as [|fuel IH]; intros i Hfuel.
  - cbn [batchLoop]. assert ((i <? length wallets) = false) as ->
      by (apply Nat.ltb_ge; lia).
    eexists. split; [done|]. cbn.
    rewrite drop_ge by lia. split_and!; try done.
    intros _. split_and!; try done.
    replace (length wallets - i + 29) with 29 by lia. done.
  - cbn [batchLoop]. destruct (i <? length wallets) eqn:Hi.
    2: { apply Nat.ltb_ge in Hi. eexists. split; [done|]. cbn.
         rewrite drop_ge by lia. split_and!; try done.
         intros _. split_and!; try done.
         replace (length wallets - i + 29) with 29 by lia. done. }
    apply Nat.ltb_lt in Hi.
    set (batch := take batchSize (drop i wallets)).
    assert (1 ≤ length batch ≤ batchSize) as Hlen.
    { unfold batch. rewrite length_take, length_drop. unfold batchSize. lia. }
    assert (drop i wallets = batch ++ drop (i + batchSize) wallets) as Hsplit.
    { unfold batch. rewrite <- (take_drop batchSize (drop i wallets)) at 1.
      by rewrite drop_drop. }
    destruct (query batch) as [u|e] eqn:Hq.
    + destruct (IH (i + batchSize)) as (r & Hr & Hall & Hpre & Hok & Herr);
        [unfold batchSize in *; lia|].
      rewrite Hr. cbn [mbind option_bind]. eexists. split; [done|].
      cbn [batches pauses failure]. split_and!.
      * by constructor.
      * rewrite Hsplit. cbn [concat]. by apply prefix_app.
      * intros Hnone. destruct (Hok Hnone) as (Hcat & Hq' & Hp & Hk).
        split_and!.
        -- cbn [concat]. by rewrite Hcat, Hsplit.
        -- constructor; [by exists u|done].
        -- cbn. by rewrite Hp.
        -- cbn [length]. rewrite Hk. unfold batchSize.
           assert (length wallets - i = 30 + (length wallets - (i + 30))
                   ∨ length wallets - i < 30) as [Hfull|Hshort] by lia.
           ++ rewrite Hfull.
              replace (30 + (length wallets - (i + 30)) + 29)
                with (1 * 30 + (length wallets - (i + 30) + 29)) by lia.
              by rewrite Nat.div_add_l by done.
           ++ replace (length wallets - (i + 30)) with 0 by lia.
              change ((0 + 29) / 30) with 0.
              apply Nat.div_unique with (r := length wallets - i + 29 - 30);
                lia.
      * intros e He. destruct (Herr e He) as (done & b & Hb & Hthrow & Hdone & Hp).
        exists (batch :: done), b. split_and!.
        -- by rewrite Hb.
        -- done.
        -- constructor; [by exists u|done].
        -- cbn. by rewrite Hp.
    + eexists. split; [done|]. cbn [batches pauses failure].
      split_and!.
      * by constructor.
      * cbn. rewrite app_nil_r. exists (drop 30 (drop i wallets)).
        by rewrite take_drop.
      * done.
      * intros e' [= <-]. exists [], batch. by split_and!.
Qed.

(** X19.  The batched query of the rate-limit snippet terminates and asks for
    the wallets in order, in batches of 1 to 30 wallets.  If no batch fails,
    every wallet is queried exactly once, in [ceil(n / 30)] batches, with a
    pause of one second after each batch (also after the last).  If a batch
    fails, it is the last one queried: the batches before it succeeded and
    each was followed by a pause of one second, and no pause follows the
    batch that failed. *)
Theorem batches_cover_wallets (query : list string → Outcome string ())
    (wallets : list string) :
  ∃ r, batchLoop (length wallets) query 0 wallets = Some r
       ∧ Forall (λ b, 1 ≤ length b ≤ 30) (batches r)
       ∧ concat (batches r) `prefix_of` wallets
       ∧ (failure r = None →
          concat (batches r) = wallets
          ∧ Forall (λ b, ∃ u, query b = Returns u) (batches r)
          ∧ pauses r = replicate (length (batches r)) 1000%Z
          ∧ length (batches r) = (length wallets + 29) / 30)
       ∧ (∀ e, failure r = Some e →
          ∃ done b, batches r = done ++ [b] ∧ query b = Throws e
                    ∧ Forall (λ b', ∃ u, query b' = Returns u) done
                    ∧ pauses r = replicate (length done) 1000%Z).
Proof.
  destruct (batchLoop_run query wallets (length wallets) 0)
    as (r & Hr & Hall & Hpre & Hok & Herr).
  { unfold batchSize. lia. }
  exists r. rewrite drop_0 in *. split_and!; try done.
  intros Hnone. destruct (Hok Hnone) as (Hcat & Hq & Hp & Hk).
  split_and!; try done. by rewrite Hk, Nat.sub_0_r.
Qed.
End BatchFacts.

Section TickFacts.
Import Poller.

Lemma copyAll_prefix (executeCopyTrade : Activity → Outcome string ())
    (newActivities : list Activity) :
  let r := copyAll executeCopyTrade newActivities in
  (∃ rest, List.filter (λ a, bool_decide (side a = BUY)) newActivities
           = r.1 ++ rest
           ∧ (r.2 = None → rest = []))
  ∧ Forall (λ a, side a = BUY) r.1
  ∧ (r.2 = None → Forall (λ a, ∃ u, executeCopyTrade a = Returns u) r.1)
  ∧ (∀ e, r.2 = Some e →
     ∃ a, last r.1 = Some a ∧ executeCopyTrade a = Throws e).
Proof.
  induction newActivities as [|a rest IH]; cbn [copyAll List.filter].
  - cbn. split_and!; try done. by exists [].
  - destruct IH as ((more & Hmore & Hnone) & Hbuy & Hok & Herr).
    destruct (side a) eqn:Hside.
    + rewrite bool_decide_true by done.
      destruct (executeCopyTrade a) as [u|e] eqn:Hexec; cbn [fst snd].
      * split_and!.
        -- exists more. split; [|done]. by rewrite Hmore.
        -- by constructor.
        -- intros Hn. constructor; [by exists u|by apply Hok].
        -- intros e He. destruct (Herr e He) as (b & Hlast & Hb).
           exists b. split; [|done].
           by destruct (copyAll executeCopyTrade rest).1.
      * split_and!.
        -- eexists. split; [reflexivity|done].
        -- by repeat constructor.
        -- done.
        -- intros e' [= <-]. by exists a.
    + rewrite bool_decide_false by done. split_and!; try done.
      by exists more.
Qed.

(** X20.  A tick whose poll succeeds advances the last-check timestamp to
    the time of the poll and hands downstream only BUY activities, in the
    order of the poll result, SELLs being skipped.  If no handler throws all
    the BUYs of the poll are handed over; if one throws, it is the last one
    handed over, the BUYs after it are dropped for good (the timestamp has
    advanced), and the error is logged. *)
Theorem tick_delivers_buys_until_failure
    (getActivity : string → Z → Outcome string (list Activity))
    (executeCopyTrade : Activity → Outcome string ())
    (now lastCheckTimestamp : Z) (targetWallets : list string)
    (newActivities : list Activity) :
  (pollTargetWallets getActivity now lastCheckTimestamp targetWallets).1
  = Returns newActivities →
  let t := tick getActivity executeCopyTrade now lastCheckTimestamp
                targetWallets in
  lastCheck t = now
  ∧ Forall (λ a, side a = BUY) (delivered t)
  ∧ (∃ skipped,
       List.filter (λ a, bool_decide (side a = BUY)) newActivities
       = delivered t ++ skipped
       ∧ (pollError t = None → skipped = []))
  ∧ (pollError t = None →
     Forall (λ a, ∃ u, executeCopyTrade a = Returns u) (delivered t))
  ∧ (∀ e, pollError t = Some e →
     ∃ a, last (delivered t) = Some a ∧ executeCopyTrade a = Throws e).
Proof.
  intros Hpoll t.
  assert (pollTargetWallets getActivity now lastCheckTimestamp targetWallets
          = (Returns newActivities, now)) as Hp.
  { revert Hpoll. unfold pollTargetWallets.
    destruct (promise_all _) as [results|e]; cbn; [|done]. by intros [= <-]. }
  destruct (copyAll_prefix executeCopyTrade newActivities)
    as (Hpre & Hbuy & Hok & Herr). cbv zeta in *.
  unfold t, tick. rewrite Hp. cbn [fst snd try_catch].
  destruct (copyAll executeCopyTrade newActivities) as [done err] eqn:Hc.
  cbn [fst snd] in *. destruct err as [e|]; cbn [try_catch delivered pollError lastCheck fst snd].
  - split_and!; try done.
  - split_and!; try done.
Qed.

Lemma tick_delivers_buys_until_failure_witness :
  let t := tick both_answer CopyTradingNotes.rejects_act1 300 0 ["W1"; "W2"] in
  (pollTargetWallets both_answer 300 0 ["W1"; "W2"]).1 = Returns [act2; act1]
  ∧ lastCheck t = 300%Z
  ∧ delivered t = [act2; act1]
  ∧ pollError t = Some "order rejected"
  ∧ Forall (λ a, side a = BUY) (delivered t).
Proof.
  intros t.
  assert ((pollTargetWallets both_answer 300 0 ["W1"; "W2"]).1
          = Returns [act2; act1]) as Hpoll by (vm_compute; reflexivity).
  split; [exact Hpoll|].
  destruct (tick_delivers_buys_until_failure both_answer
              CopyTradingNotes.rejects_act1 300 0 ["W1"; "W2"] _ Hpoll)
    as (Hlast & Hbuy & _).
  split; [exact Hlast|]. split; [vm_compute; reflexivity|].
  split; [vm_compute; reflexivity|]. exact Hbuy.
Defined.
End TickFacts.

(** ** e2e-builder-test.ts: the duration of [waitForFill] *)

Section WaitForFillDuration.
Import E2E FillTiming.
#[local] Open Scope Z_scope.


Lemma waitLoop_duration (env : nat → Reply) (start T L G : Z) :
  bounded env L G →
  ∀ (fuel : nat) (w : World) (res : FillResult) (w' : World),
    waitLoop fuel env start T w = Some (res, w') →
    clock w ≤ clock w'
    ∧ clock w' ≤ Z.max (clock w) (start + T + L + 2000 + G) + L
    ∧ (start ≤ clock w → open (order res) → start + T ≤ clock w')
    ∧ (calls w < calls w' ≤ calls w + fuel + 1)%nat.
Proof.
  intros Hb. induction fuel as [|fuel IH]; intros w res w' Hrun.
  - destruct (clock w - start <? T) eqn:Hc.
    { cbn [waitLoop] in Hrun. by rewrite Hc in Hrun. }
    rewrite waitLoop_timeout in Hrun by done. injection Hrun as <- <-.
    apply Z.ltb_ge in Hc. destruct (Hb (calls w)) as [Hl Hg]. cbn.
    split_and!; lia.
  - destruct (clock w - start <? T) eqn:Hc.
    2: { rewrite waitLoop_timeout in Hrun by done. injection Hrun as <- <-.
         apply Z.ltb_ge in Hc. destruct (Hb (calls w)) as [Hl Hg]. cbn.
         split_and!; lia. }
    rewrite waitLoop_poll in Hrun by done.
    apply Z.ltb_lt in Hc. destruct (Hb (calls w)) as [Hl Hg].
    cbn [getOrder fst snd] in Hrun.
    destruct (reply (env (calls w))) as [ord|] eqn:Hreply.
    2: { injection Hrun as <- <-. cbn. split_and!; try lia.
         intros _ (o & [=] & _). }
    assert (∀ b, Some (mkFillResult b (Some ord),
                       mkWorld (clock w + latency (env (calls w)))
                               (S (calls w))
                               (trace w ++ [GetOrder (clock w) (Some ord)]))
                 = Some (res, w') →
                 ¬ open (Some ord) →
                 clock w ≤ clock w'
                 ∧ clock w' ≤ Z.max (clock w) (start + T + L + 2000 + G) + L
                 ∧ (start ≤ clock w → open (order res) → start + T ≤ clock w')
                 ∧ (calls w < calls w' ≤ calls w + S fuel + 1)%nat) as Hdone.
    { intros b [= <- <-] Hclosed. cbn. split_and!; try lia.
      intros _ Hopen. done. }
    assert (status ord = NEW ∨ status ord = PARTIALLY_FILLED →
            waitLoop fuel env start T
              (sleep 2000 (lag (env (calls w)))
                 (mkWorld (clock w + latency (env (calls w))) (S (calls w))
                    (trace w ++ [GetOrder (clock w) (Some ord)])))
            = Some (res, w') →
            clock w ≤ clock w'
            ∧ clock w' ≤ Z.max (clock w) (start + T + L + 2000 + G) + L
            ∧ (start ≤ clock w → open (order res) → start + T ≤ clock w')
            ∧ (calls w < calls w' ≤ calls w + S fuel + 1)%nat) as Hsleep.
    { intros _ Hrest. apply IH in Hrest as (H1 & H2 & H3 & H4).
      cbn [sleep clock calls] in *. split_and!; try lia.
      intros Hs Hopen. apply H3; [lia|done]. }
    destruct (status ord) eqn:Hst.
    + apply Hsleep; [by left|done].
    + apply Hsleep; [by right|done].
    + apply (Hdone true Hrun). intros (o & [= <-] & [?|?]); congruence.
    + apply (Hdone false Hrun). intros (o & [= <-] & [?|?]); congruence.
    + apply (Hdone false Hrun). intros (o & [= <-] & [?|?]); congruence.
    + apply (Hdone false Hrun). intros (o & [= <-] & [?|?]); congruence.
Qed.

(** X21.  How long [waitForFill] takes.  When every [getOrder] answers
    within [L] ms and every timer is at most [G] ms late, a call with a
    timeout [T] that is not negative returns after at most
    [T + 2000 + G + 2 L] ms and makes at least one and at most
    [fuel_for T + 1] calls to [getOrder]; and it does not give up early: if
    the order it returns is still open (NEW or PARTIALLY_FILLED), at least
    [T] ms have passed. *)
Theorem waitForFill_duration (env : nat → Reply) (timeoutMs : option Z)
    (w : World) (L G : Z) :
  bounded env L G → 0 ≤ default 15000 timeoutMs →
  let T := default 15000 timeoutMs in
  ∃ (res : FillResult) (w' : World),
    waitForFill (fuel_for T) env timeoutMs w = Some (res, w')
    ∧ clock w ≤ clock w' ≤ clock w + T + 2000 + G + 2 * L
    ∧ (open (order res) → clock w + T ≤ clock w')
    ∧ (calls w < calls w' ≤ calls w + fuel_for T + 1)%nat.
Proof.
  intros Hb HT T.
  assert (causal env) as Hcausal.
  { intros i. destruct (Hb i). lia. }
  destruct (waitForFill_run env timeoutMs w Hcausal)
    as (n & res & w' & Hrun & _).
  exists res, w'. split; [exact Hrun|].
  unfold waitForFill in Hrun.
  destruct (waitLoop_duration env (clock w) T L G Hb _ _ _ _ Hrun)
    as (H1 & H2 & H3 & H4).
  destruct (Hb 0%nat). subst T. split_and!; try lia.
  intros Hopen. apply H3; [lia|done].
Qed.

Lemma waitForFill_duration_witness :
  bounded (always NEW 300) 300 0
  ∧ ∃ (res : FillResult) (w' : World),
      waitForFill (fuel_for 4000) (always NEW 300) (Some 4000) world0
      = Some (res, w')
      ∧ clock w' ≤ 6600
      ∧ (calls w' ≤ fuel_for 4000 + 1)%nat.
Proof.
  assert (bounded (always NEW 300) 300 0) as Hb by (intros i; cbn; lia).
  split; [exact Hb|].
  destruct (waitForFill_duration (always NEW 300) (Some 4000) world0 300 0 Hb)
    as (res & w' & Hrun & Hclock & _ & Hcalls); [cbn; lia|].
  exists res, w'. split; [exact Hrun|]. cbn in Hclock, Hcalls. lia.
Defined.
End WaitForFillDuration.

(** ** Configuration from the environment *)

Section ConfigFacts.
Import Config.

Lemma split_nonempty (sep : N) (s : JSString) : split sep s ≠ [].
Proof.
  destruct s as [|c s]; [done|]. cbn [split].
  destruct (c =? sep)%N; [done|]. by destruct (split sep s).
Qed.

Lemma split_app_sep (sep : N) (a s : JSString) :
  sep ∉ a → split sep (a ++ sep :: s) = a :: split sep s.
Proof.
  induction a as [|c a IH]; intros Hsep.
  - cbn [app split]. by rewrite N.eqb_refl.
  - apply not_elem_of_cons in Hsep as [Hne Hsep].
    cbn [app split]. destruct (c =? sep)%N eqn:Hc.
    { apply N.eqb_eq in Hc. congruence. }
    by rewrite (IH Hsep).
Qed.

Lemma split_no_sep (sep : N) (a : JSString) : sep ∉ a → split sep a = [a].
Proof.
  induction a as [|c a IH]; intros Hsep; [done|].
  apply not_elem_of_cons in Hsep as [Hne Hsep].
  cbn [split]. destruct (c =? sep)%N eqn:Hc.
  { apply N.eqb_eq in Hc. congruence. }
  by rewrite (IH Hsep).
Qed.

Lemma join_cons (sep : N) (p : JSString) (ps : list JSString) :
  ps ≠ [] → join sep (p :: ps) = p ++ sep :: join sep ps.
Proof. by destruct ps. Qed.

Lemma join_split (sep : N) (s : JSString) : join sep (split sep s) = s.
Proof.
  induction s as [|c s IH]; [done|]. cbn [split].
  destruct (c =? sep)%N eqn:Hc.
  - apply N.eqb_eq in Hc as ->.
    rewrite join_cons by apply split_nonempty. by rewrite IH.
  - pose proof (split_nonempty sep s) as Hne.
    destruct (split sep s) as [|p ps]; [done|].
    destruct ps as [|q ps]; cbn [join app] in *; by rewrite IH.
Qed.

Lemma split_join (sep : N) (ps : list JSString) :
  Forall (λ p, sep ∉ p) ps → ps ≠ [] → split sep (join sep ps) = ps.
Proof.
  induction 1 as [|p ps Hp Hps IH]; intros Hne; [done|].
  destruct ps as [|q ps].
  - cbn [join]. by apply split_no_sep.
  - rewrite join_cons by done. rewrite split_app_sep by done.
    by rewrite IH.
Qed.

Lemma split_pieces (sep : N) (s : JSString) :
  Forall (λ p, sep ∉ p) (split sep s).
Proof.
  induction s as [|c s IH].
  - cbn [split]. repeat constructor. by intros ?%elem_of_nil.
  - cbn [split]. destruct (c =? sep)%N eqn:Hc.
    + constructor; [by intros ?%elem_of_nil|done].
    + apply N.eqb_neq in Hc.
      destruct (split sep s) as [|p ps].
      * repeat constructor. intros [->|[]%elem_of_nil]%elem_of_cons. done.
      * apply Forall_cons in IH as [Hp Hps]. constructor; [|done].
        intros [->|?]%elem_of_cons; done.
Qed.

Lemma trimStart_suffix (s : JSString) : trimStart s `suffix_of` s.
Proof.
  induction s as [|c s IH]; [done|]. cbn [trimStart].
  destruct (isWhiteSpace c); [by apply suffix_cons_r|done].
Qed.

Lemma trimStart_head (s : JSString) :
  from_option isWhiteSpace false (head (trimStart s)) = false.
Proof.
  induction s as [|c s IH]; [done|]. cbn [trimStart].
  destruct (isWhiteSpace c) eqn:Hc; [done|]. by cbn.
Qed.

Lemma trimStart_id (s : JSString) :
  from_option isWhiteSpace false (head s) = false → trimStart s = s.
Proof. destruct s as [|c s]; [done|]. cbn. by intros ->. Qed.

Lemma trimStart_snoc (x : JSString) (c : N) :
  isWhiteSpace c = false → ∃ y, trimStart (x ++ [c]) = y ++ [c].
Proof.
  intros Hc. induction x as [|d x IH].
  - exists []. cbn. by rewrite Hc.
  - cbn [app trimStart]. destruct (isWhiteSpace d); [done|].
    by exists (d :: x).
Qed.

Lemma head_reverse {A : Type} (l : list A) : head (reverse l) = last l.
Proof.
  induction l as [|x l IH] using rev_ind; [done|].
  by rewrite reverse_snoc, last_snoc.
Qed.

Lemma last_reverse {A : Type} (l : list A) : last (reverse l) = head l.
Proof. by rewrite <- head_reverse, reverse_involutive. Qed.

Lemma trimEnd_id (s : JSString) :
  from_option isWhiteSpace false (last s) = false → trimEnd s = s.
Proof.
  intros Hs. unfold trimEnd. rewrite trimStart_id.
  - apply reverse_involutive.
  - by rewrite head_reverse.
Qed.

Lemma trimEnd_prefix (s : JSString) : trimEnd s `prefix_of` s.
Proof.
  unfold trimEnd. destruct (trimStart_suffix (reverse s)) as [k Hk].
  exists (reverse k). apply (inj reverse).
  by rewrite reverse_app, !reverse_involutive.
Qed.

Lemma trimEnd_head (s : JSString) :
  from_option isWhiteSpace false (head s) = false →
  from_option isWhiteSpace false (head (trimEnd s)) = false.
Proof.
  destruct s as [|c s]; [done|]. cbn [head from_option]. intros Hc.
  unfold trimEnd. rewrite reverse_cons.
  destruct (trimStart_snoc (reverse s) c Hc) as [y ->].
  by rewrite reverse_snoc.
Qed.

Lemma trim_trimmed (s : JSString) : trimmed (trim s).
Proof.
  split.
  - apply trimEnd_head, trimStart_head.
  - unfold trim, trimEnd. rewrite last_reverse. apply trimStart_head.
Qed.

Lemma trim_id (s : JSString) : trimmed s → trim s = s.
Proof.
  intros [Hh Hl]. unfold trim. rewrite trimStart_id by done.
  by apply trimEnd_id.
Qed.

Lemma trim_sublist (s : JSString) (c : N) : c ∈ trim s → c ∈ s.
Proof.
  intros Hc. unfold trim in Hc.
  destruct (trimEnd_prefix (trimStart s)) as [k Hk].
  destruct (trimStart_suffix s) as [k' Hk'].
  rewrite Hk', Hk. rewrite !elem_of_app. auto.
Qed.

Lemma setOf_snoc (l : list JSString) (a : JSString) :
  setOf (l ++ [a])
  = if bool_decide (a ∈ setOf l) then setOf l else setOf l ++ [a].
Proof. unfold setOf. by rewrite foldl_snoc. Qed.

Lemma setOf_spec (l : list JSString) :
  NoDup (setOf l) ∧ (∀ a, a ∈ setOf l ↔ a ∈ l) ∧ (NoDup l → setOf l = l).
Proof.
  induction l as [|a l (Hnd & Hin & Hid)] using rev_ind.
  - split_and!; [constructor|done|done].
  - rewrite setOf_snoc. case_bool_decide as Ha.
    + split_and!; [done| |].
      * intros b. rewrite elem_of_app, list_elem_of_singleton, <- Hin.
        split; [tauto|]. intros [?| ->]; done.
      * intros [Hnd' [Hdis _]]%NoDup_app. exfalso.
        apply (Hdis a); [by apply Hin|by apply list_elem_of_singleton].
    + split_and!.
      * apply NoDup_app. split_and!; [done| |apply NoDup_singleton].
        intros b Hb ->%list_elem_of_singleton. done.
      * intros b. rewrite !elem_of_app, Hin. done.
      * intros [Hnd' _]%NoDup_app. by rewrite Hid.
Qed.

Lemma envAddresses_join (pieces : list JSString) :
  Forall (λ p, comma ∉ p) pieces →
  envAddresses (Some (join comma pieces))
  = List.filter (λ a, 0 <? length a) (trim <$> pieces).
Proof.
  intros Hp. unfold envAddresses, default. cbn [from_option id].
  destruct pieces as [|p ps]; [done|].
  by rewrite split_join.
Qed.

Lemma truthy_true (s : JSString) : truthy s = true ↔ s ≠ [].
Proof. destruct s; cbn; split; done. Qed.

Lemma filter_nonempty_id (l : list JSString) :
  Forall (λ a, a ≠ []) l → List.filter (λ a, 0 <? length a) l = l.
Proof.
  intros Hl. apply forallb_filter_id, forallb_forall.
  intros a Ha%list_elem_of_In. rewrite Forall_forall in Hl.
  specialize (Hl a Ha). by destruct a.
Qed.

Lemma envAddresses_elem_of (v : option JSString) (a : JSString) :
  a ∈ envAddresses v
  ↔ a ≠ [] ∧ ∃ p, p ∈ split comma (default [] v) ∧ a = trim p.
Proof.
  unfold envAddresses. rewrite list_elem_of_In, filter_In.
  rewrite <- list_elem_of_In, list_elem_of_fmap.
  assert ((0 <? length a) = true ↔ a ≠ []) as ->.
  { destruct a; cbn; split; done. }
  split.
  - intros [(p & -> & Hp) Hne]. eauto.
  - intros (Hne & p & Hp & ->). eauto.
Qed.

Lemma stripQuotes_id (v : JSString) :
  from_option isQuote false (head v) = false →
  from_option isQuote false (last v) = false →
  stripQuotes v = v.
Proof.
  intros Hh Hl. unfold stripQuotes.
  destruct v as [|c v]; [done|]. cbn in Hh. rewrite Hh.
  rewrite <- head_reverse in Hl.
  destruct (reverse (c :: v)) as [|d r]; [done|]. cbn in Hl. by rewrite Hl.
Qed.

Lemma envTruthy_set (env : Env) (k v : JSString) :
  env !! k = Some v → envTruthy env k = truthy v.
Proof. unfold envTruthy. by intros ->. Qed.

Lemma envTruthy_plain (env : Env) (k : JSString) :
  k ∉ inherited → envTruthy env k = truthy (default [] (env !! k)).
Proof.
  intros Hk. unfold envTruthy. destruct (env !! k); [done|].
  by rewrite bool_decide_false.
Qed.

Lemma envLine_lookup (env : Env) (line k : JSString) :
  envLine env line !! k = env !! k
  ∨ (envTruthy env k = false ∧ ∃ v, envLine env line = <[k := v]> env).
Proof.
  unfold envLine. destruct (split equals line) as [|key parts]; [by left|].
  destruct (truthy key && negb (startsWith hash key)); [|by left].
  destruct (truthy (trim (join equals parts))); [|by left]. cbn [andb].
  destruct (envTruthy env (trim key)) eqn:Hset; [by left|].
  cbn [negb]. unfold setEnv. case_bool_decide as Hempty; [by left|].
  destruct (decide (trim key = k)) as [<-|Hne].
  - right. eauto.
  - left. by apply lookup_insert_ne.
Qed.

Lemma envLine_keeps (env : Env) (line k v : JSString) :
  env !! k = Some v → v ≠ [] → envLine env line !! k = Some v.
Proof.
  intros Hk Hv. destruct (envLine_lookup env line k) as [->|[Hset _]]; [done|].
  rewrite (envTruthy_set env k v Hk) in Hset. apply truthy_true in Hv.
  congruence.
Qed.

Lemma envLine_dom (env : Env) (line k : JSString) :
  is_Some (env !! k) → is_Some (envLine env line !! k).
Proof.
  intros Hk. destruct (envLine_lookup env line k) as [->|[_ [v ->]]]; [done|].
  rewrite lookup_insert_eq. eauto.
Qed.

Lemma envLine_lineOf (env : Env) (k v : JSString) :
  plainKey k → plainValue v →
  envLine env (lineOf (k, v))
  = if truthy (default [] (env !! k)) then env else <[k := v]> env.
Proof.
  intros (Hk & Hkt & Hke & _ & Hkh & Hki) (Hv & Hvt & _ & Hvh & Hvl).
  unfold envLine, lineOf, setEnv. cbn [fst snd].
  rewrite split_app_sep by done. rewrite join_split.
  rewrite !trim_id by done. rewrite Hkh.
  rewrite (envTruthy_plain env k Hki), (bool_decide_false (k = [])) by done.
  apply truthy_true in Hk, Hv. rewrite Hk, Hv. cbn [andb negb].
  rewrite stripQuotes_id by done.
  by destruct (truthy (default [] (env !! k))).
Qed.

Lemma loadLines_lookup (bindings : list (JSString * JSString)) :
  Forall (λ kv, plainKey kv.1 ∧ plainValue kv.2) bindings →
  ∀ (env : Env) (k : JSString),
    foldl envLine env (lineOf <$> bindings) !! k
    = if truthy (default [] (env !! k)) then env !! k
      else match (list_to_map bindings : Env) !! k with
           | Some v => Some v
           | None => env !! k
           end.
Proof.
  induction 1 as [|[k0 v0] bindings [Hk Hv] _ IH]; intros env k.
  - rewrite fmap_nil, list_to_map_nil, lookup_empty. cbn [foldl].
    by destruct (truthy _).
  - rewrite fmap_cons, list_to_map_cons. cbn [foldl fst snd] in *.
    rewrite IH, (envLine_lineOf env k0 v0 Hk Hv).
    destruct Hv as (Hv & _). apply truthy_true in Hv.
    destruct (decide (k0 = k)) as [->|Hne].
    + rewrite lookup_insert_eq.
      destruct (truthy (default [] (env !! k))) eqn:Hset.
      * by rewrite Hset.
      * rewrite lookup_insert_eq. cbn [default from_option id]. by rewrite Hv.
    + rewrite (lookup_insert_ne (list_to_map bindings)) by done.
      destruct (truthy (default [] (env !! k0))); [done|].
      by rewrite lookup_insert_ne.
Qed.

Lemma lineOf_no_newline (kv : JSString * JSString) :
  plainKey kv.1 → plainValue kv.2 → newline ∉ lineOf kv.
Proof.
  intros (_ & _ & _ & Hk & _) (_ & _ & Hv & _).
  unfold lineOf. rewrite elem_of_app, elem_of_cons.
  intros [?|[?|?]]; done.
Qed.

End ConfigFacts.

Section ConfigTheorems.
Import Config.

(** X22.  The addresses the script follows, whatever [COPY_ADDRESSES] holds:
    no address twice; an address is followed exactly when it is not empty and
    is a comma-separated piece of the variable with the white space around
    it removed; so no address is empty, starts or ends with white space, or
    contains a comma.  The script exits as unconfigured exactly when every
    piece is blank (an unset or empty variable included). *)
Theorem allAddresses_clean (COPY_ADDRESSES : option JSString) :
  let r := allAddresses COPY_ADDRESSES in
  NoDup r
  ∧ (∀ a, a ∈ r
          ↔ a ≠ [] ∧ ∃ p, p ∈ split comma (default [] COPY_ADDRESSES)
                          ∧ a = trim p)
  ∧ (∀ a, a ∈ r → a ≠ [] ∧ trimmed a ∧ comma ∉ a)
  ∧ (exitsUnconfigured COPY_ADDRESSES = true
     ↔ ∀ p, p ∈ split comma (default [] COPY_ADDRESSES) → trim p = []).
Proof.
  intros r. subst r. unfold exitsUnconfigured, allAddresses.
  cbn [TARGET_ADDRESSES app].
  destruct (setOf_spec (envAddresses COPY_ADDRESSES)) as (Hnd & Hin & _).
  assert (∀ a, a ∈ setOf (envAddresses COPY_ADDRESSES)
               ↔ a ≠ [] ∧ ∃ p, p ∈ split comma (default [] COPY_ADDRESSES)
                               ∧ a = trim p) as Hchar.
  { intros a. by rewrite Hin, envAddresses_elem_of. }
  split_and!; [done|done| |].
  - intros a (Ha & p & Hp & ->)%Hchar. split_and!; [done|apply trim_trimmed|].
    intros Hc%trim_sublist.
    pose proof (split_pieces comma (default [] COPY_ADDRESSES)) as Hall.
    rewrite Forall_forall in Hall. by apply (Hall p).
  - rewrite Nat.eqb_eq. split.
    + intros Hlen p Hp. apply length_zero_iff_nil in Hlen.
      destruct (trim p) as [|c t] eqn:Ht; [done|].
      assert (c :: t ∈ setOf (envAddresses COPY_ADDRESSES)) as Hin'.
      { apply Hchar. split; [done|]. eauto. }
      rewrite Hlen in Hin'. by apply elem_of_nil in Hin'.
    + intros Hblank.
      destruct (setOf (envAddresses COPY_ADDRESSES)) as [|a l] eqn:Hs; [done|].
      assert (a ∈ a :: l) as (Ha & p & Hp & ->)%Hchar by left.
      by rewrite (Hblank p Hp) in Ha.
Qed.

(** X23.  Reading back a list written with commas: for pieces without a
    comma, [COPY_ADDRESSES = pieces.join(',')] gives the pieces trimmed, the
    blank ones dropped, each kept once in the order of first appearance; so a
    list of distinct non-empty addresses without white space around them is
    read back as it is. *)
Theorem copy_addresses_round_trip (pieces : list JSString) :
  Forall (λ p, comma ∉ p) pieces →
  allAddresses (Some (join comma pieces))
  = setOf (List.filter (λ a, 0 <? length a) (trim <$> pieces))
  ∧ (Forall (λ p, p ≠ [] ∧ trimmed p) pieces → NoDup pieces →
     allAddresses (Some (join comma pieces)) = pieces).
Proof.
  intros Hp. unfold allAddresses. cbn [TARGET_ADDRESSES app].
  rewrite envAddresses_join by done. split; [done|].
  intros Hwf Hnd.
  assert (trim <$> pieces = pieces) as ->.
  { rewrite <- (list_fmap_id pieces) at 2. apply Forall_fmap_ext_1.
    eapply Forall_impl; [exact Hwf|]. intros p [_ Ht]. by apply trim_id. }
  rewrite filter_nonempty_id.
  - by apply setOf_spec.
  - eapply Forall_impl; [exact Hwf|]. by intros p [? _].
Qed.

Lemma copy_addresses_round_trip_witness :
  allAddresses (Some (units "0xabc,0xdef")) = [units "0xabc"; units "0xdef"].
Proof.
  refine (proj2 (copy_addresses_round_trip [units "0xabc"; units "0xdef"] _)
            _ _).
  - repeat constructor; compute_done.
  - repeat constructor; compute_done.
  - repeat constructor; compute_done.
Defined.

(** X24.  The [.env] file never overrides the environment: a variable that
    is set to a non-empty value keeps that value, whatever the file holds
    (the file missing included). *)
Theorem loadEnv_keeps_set_variables (envContent : option JSString) (env : Env)
    (k v : JSString) :
  env !! k = Some v → v ≠ [] →
  loadEnv envContent env !! k = Some v.
Proof.
  intros Hk Hv. destruct envContent as [content|]; [|done]. cbn [loadEnv].
  revert env Hk. induction (split newline content) as [|line lines IH];
    intros env Hk; [done|].
  cbn [foldl]. apply IH. by apply envLine_keeps.
Qed.

Lemma loadEnv_keeps_set_variables_witness :
  loadEnv (Some scenario_file) scenario_env !! units "PRIVATE_KEY"
  = Some (units "0x01").
Proof.
  apply loadEnv_keeps_set_variables; compute_done.
Defined.

(** X25.  Reading back a [.env] file written one [NAME=value] per line,
    with plain names (not empty, no [=], no line break, no white space
    around, not starting with [#], and not one of the names every object
    inherits, such as [toString] or [constructor]) and plain values (not
    empty, no line break, no white space or quote at either end; [=] is
    allowed): a variable that was unset or empty gets the value of the first
    line that names it, a variable that was set keeps its value, and the
    other variables are unchanged. *)
Theorem loadEnv_reads_definitions (bindings : list (JSString * JSString))
    (env : Env) (k : JSString) :
  Forall (λ kv, plainKey kv.1 ∧ plainValue kv.2) bindings →
  loadEnv (Some (fileOf bindings)) env !! k
  = if truthy (default [] (env !! k)) then env !! k
    else match (list_to_map bindings : Env) !! k with
         | Some v => Some v
         | None => env !! k
         end.
Proof.
  intros Hwf. unfold loadEnv, fileOf.
  destruct bindings as [|kv bindings].
  - cbn. rewrite lookup_empty. by destruct (truthy _).
  - rewrite split_join.
    + by apply loadLines_lookup.
    + apply Forall_fmap. eapply Forall_impl; [exact Hwf|].
      intros kv' [? ?]. by apply lineOf_no_newline.
    + done.
Qed.

Lemma loadEnv_reads_definitions_witness :
  loadEnv (Some (units "A=x=y")) ∅ !! units "A" = Some (units "x=y").
Proof.
  refine (loadEnv_reads_definitions [(units "A", units "x=y")] ∅ (units "A") _).
  repeat constructor; compute_done.
Defined.


(** The scenarios, replayed. *)
Lemma config_scenarios :
  allAddresses (Some scenario_addresses) = [units "0xabc"; units "0xdef"]
  ∧ allAddresses None = []
  ∧ loadEnv (Some scenario_file) scenario_env !! units "POLY_BUILDER_API_KEY"
    = Some (units "a=b")
  ∧ loadEnv (Some (units "  # KEY=1")) ∅ !! units "# KEY" = Some (units "1")
  ∧ loadEnv (Some (units "toString=x")) ∅ = ∅
  ∧ loadEnv (Some (units " =x")) ∅ = ∅.
Proof. split_and!; compute_done. Qed.
End ConfigTheorems.
